(** * nighres / cbstools-python wrappers: cache gate, marshalling, result wrapping

    Shallow embedding of the four wrapper modules
      - nighres/intensity/flash_t2s_fitting.py
      - nighres/intensity/lcpca_denoising.py
      - nighres/intensity/mp2rage_t1_mapping.py
      - nighres/shape/levelset_fusion.py
    Every wrapper prints a banner, resolves its output file names, consults
    the on-disk cache, drives an opaque Java object through the JCC bridge,
    reshapes the flat results and wraps them as NIfTI images.

    The numerical work happens inside the Java library, which is an oracle
    here; numpy scalars and Java floats are abstract types. *)

From Stdlib Require Import Ascii ZArith Lia.
From stdpp Require Import base tactics option list gmap strings fin_maps.

Set Default Proof Using "Type".

(* ===================================================================== *)
(** ** numpy volumes *)
(* ===================================================================== *)

Module Volume.

(** A 3-D [numpy.ndarray]: its [shape] tuple and its elements, kept in
    C order (last index fastest), the layout [a[x, y, z]] indexes into. *)
Record ndarray (A : Type) := NdArray {
  shape : nat * nat * nat;
  elems : list A
}.
Arguments NdArray {A} _ _.
Arguments shape {A} _.
Arguments elems {A} _.

Definition size3 (d : nat * nat * nat) : nat :=
  let '(X, Y, Z) := d in X * Y * Z.

(** Every numpy array holds exactly as many elements as its shape says. *)
Definition wf {A} (a : ndarray A) : Prop :=
  length (elems a) = size3 (shape a).

Definition in_bounds (d : nat * nat * nat) (x y z : nat) : Prop :=
  let '(X, Y, Z) := d in x < X ∧ y < Y ∧ z < Z.

(** Linear offset of [(x, y, z)], row-major and column-major. *)
Definition ravel_C (d : nat * nat * nat) (x y z : nat) : nat :=
  let '(_, Y, Z) := d in (x * Y + y) * Z + z.

Definition ravel_F (d : nat * nat * nat) (x y z : nat) : nat :=
  let '(X, Y, _) := d in x + X * (y + Y * z).

Definition unravel_C (d : nat * nat * nat) (i : nat) : nat * nat * nat :=
  let '(_, Y, Z) := d in (i / Z / Y, (i / Z) mod Y, i mod Z).

Definition unravel_F (d : nat * nat * nat) (j : nat) : nat * nat * nat :=
  let '(X, Y, _) := d in (j mod X, (j / X) mod Y, j / X / Y).

(** [a[x, y, z]]; [None] stands for numpy's IndexError. *)
Definition getitem3 {A} (a : ndarray A) (x y z : nat) : option A :=
  let '(X, Y, Z) := shape a in
  if decide (x < X ∧ y < Y ∧ z < Z)
  then elems a !! ravel_C (shape a) x y z
  else None.

(** [a.flatten('F')]: a fresh 1-D array listing [a] with the first index
    varying fastest. *)
Definition flatten_F {A} (a : ndarray A) : list A :=
  omap (λ j, let '(x, y, z) := unravel_F (shape a) j in getitem3 a x y z)
       (seq 0 (size3 (shape a))).

(** [np.reshape(flat, d, 'F')]: [None] stands for the ValueError numpy
    raises when [flat] does not hold [size3 d] elements. *)
Definition reshape_F {A} (flat : list A) (d : nat * nat * nat)
  : option (ndarray A) :=
  if decide (length flat = size3 d)
  then Some (NdArray d
         (omap (λ i, let '(x, y, z) := unravel_C d i in
                     flat !! ravel_F d x y z)
               (seq 0 (size3 d))))
  else None.

(** [a.astype(t)] and friends act element by element and keep the shape. *)
Definition map_array {A B} (f : A → B) (a : ndarray A) : ndarray B :=
  NdArray (shape a) (f <$> elems a).

End Volume.
Export Volume.

(* ===================================================================== *)
(** ** The Python side: values, exceptions, effects *)
(* ===================================================================== *)

(** Numbers are opaque: a numpy scalar, a Java [float], and the
    conversions the wrappers apply between them. *)
Class Numeric := {
  scalar : Type;
  jfloat : Type;
  (** element-wise [ndarray.astype(float)], i.e. to Python's float64 *)
  astype_float : scalar → scalar;
  (** one element of [JArray('float')(seq)]: a 32-bit Java float *)
  JArray_float : scalar → jfloat;
  (** one element of [np.array(jarr, dtype=np.float32)] *)
  np_float32 : jfloat → scalar;
  (** [np.fmin] and [np.fmax], the NaN-ignoring binary minimum/maximum *)
  np_fmin : scalar → scalar → scalar;
  np_fmax : scalar → scalar → scalar
}.

Inductive exn :=
| IndexError
| ValueError (msg : string)
| NameError (name : string)
| FileNotFoundError (path : string)
| JavaError (msg : string).

Definition exc_type (e : exn) : string :=
  match e with
  | IndexError => "IndexError"
  | ValueError _ => "ValueError"
  | NameError _ => "NameError"
  | FileNotFoundError _ => "FileNotFoundError"
  | JavaError _ => "JavaError"
  end.

(** How a statement ends: normally, or with an exception in flight. *)
Inductive res (A : Type) :=
| Val (a : A)
| Exc (e : exn).
Arguments Val {A} _.
Arguments Exc {A} _.

Definition nl : string := String "010"%char EmptyString.

Section python.
Context {Num : Numeric}.

(** NIfTI header fields the wrappers read or write. *)
Record header := Header {
  zooms : list scalar;
  cal_min : scalar;
  cal_max : scalar
}.

Definition affine := list (list scalar).

(** A nibabel image object.  Its header is a mutable object: the image
    holds a reference into the heap of header objects. *)
Record niimg := Niimg {
  img_data : ndarray scalar;
  img_affine : affine;
  img_header : nat
}.

(** What a saved image file holds. *)
Record stored := Stored {
  st_data : ndarray scalar;
  st_affine : affine;
  st_header : header
}.

(** A "niimg" argument: a file name or an image already in memory. *)
Inductive input :=
| FromFile (path : string)
| InMemory (img : niimg).

(** Arguments crossing the JCC bridge. *)
Inductive jarg :=
| JInt (n : Z)
| JFloat (v : scalar)
| JBool (b : bool)
| JString (s : string)
| JFloatArray (a : list jfloat).

Inductive event :=
| EvPrint (msg : string)
| EvOutputDir (dir : string)
| EvIsFile (path : string)
| EvLoad (path : string)
| EvSave (path : string)
| EvInitVM
| EvNew (cls : string)
| EvCall (meth : string) (args : list jarg)
| EvExecute
| EvGet (meth : string) (args : list jarg).

Definition is_native (e : event) : bool :=
  match e with
  | EvInitVM | EvNew _ | EvCall _ _ | EvExecute | EvGet _ _ => true
  | _ => false
  end.

Definition is_write (e : event) : bool :=
  match e with
  | EvOutputDir _ | EvSave _ => true
  | _ => false
  end.

Record world := World {
  fs : gmap string stored;
  heap : list header;
  trace : list event
}.

Definition M (A : Type) : Type := world → res A * world.

Definition ret {A} (a : A) : M A := λ w, (Val a, w).
Definition raise {A} (e : exn) : M A := λ w, (Exc e, w).
Definition bind {A B} (m : M A) (k : A → M B) : M B :=
  λ w, match m w with
       | (Val a, w') => k a w'
       | (Exc e, w') => (Exc e, w')
       end.

(** [try: body / except: handler]; a bare [except] catches everything. *)
Definition try_except {A} (body : M A) (handler : exn → M A) : M A :=
  λ w, match body w with
       | (Exc e, w') => handler e w'
       | r => r
       end.

End python.

Declare Scope py_scope.
Delimit Scope py_scope with py.
Notation "x ← m ; k" := (bind m (λ x, k))
  (at level 20, m at level 100, k at level 200, only parsing) : py_scope.
Notation "' x ← m ; k" := (bind m (λ x, k))
  (at level 20, x pattern, m at level 100, k at level 200, only parsing)
  : py_scope.
Notation "m ;; k" := (bind m (λ _, k))
  (at level 100, k at level 200, right associativity) : py_scope.
Open Scope py_scope.

(** The parts of [nighres.utils] the wrappers call.  Their outcome
    depends on the working directory and on directory permissions, which
    the model does not track: they are oracles.  [_output_dir_4saving]
    creates the directory when it is absent. *)
Class Utils {Num : Numeric} := {
  _output_dir_4saving : option string → input → exn + string;
  _fname_4saving : option string → input → string → exn + string;
  _check_topology_lut_dir : option string → exn + string
}.

(** The Java library.  [execute()] either throws or leaves results that
    the getters hand back; which, is decided by everything that went
    over the bridge so far. *)
Class Native {Num : Numeric} := {
  jvm_execute : list event → string + (string → list jarg → list jfloat)
}.

Section primitives.
Context {Num : Numeric} {U : Utils} {J : Native}.

Definition log (e : event) : M unit :=
  λ w, (Val (), World (fs w) (heap w) (trace w ++ [e])).

Definition print (msg : string) : M unit := log (EvPrint msg).

Definition lift_sum {A} (r : exn + A) : M A :=
  match r with inl e => raise e | inr a => ret a end.

(** [l[i]] *)
Definition getitem {A} (l : list A) (i : nat) : M A :=
  match l !! i with Some a => ret a | None => raise IndexError end.

(** [os.path.join(a, b)] on POSIX. *)
Definition os_path_join (a b : string) : string :=
  if String.prefix "/" b then b
  else if bool_decide (a = "") then b
  else if String.prefix "/" (String.rev a) then a +:+ b
  else a +:+ "/" +:+ b.

Definition output_dir_4saving (output_dir : option string) (rootfile : input)
  : M string :=
  d ← lift_sum (_output_dir_4saving output_dir rootfile);
  log (EvOutputDir d);;
  ret d.

Definition fname_4saving (file_name : option string) (rootfile : input)
    (suffix : string) : M string :=
  lift_sum (_fname_4saving file_name rootfile suffix).

Definition check_topology_lut_dir (d : option string) : M string :=
  lift_sum (_check_topology_lut_dir d).

(** [os.path.isfile(p)] *)
Definition isfile (p : string) : M bool :=
  λ w, (Val (bool_decide (is_Some (fs w !! p))),
        World (fs w) (heap w) (trace w ++ [EvIsFile p])).

(** Python's short-circuit [and]. *)
Definition and_then (a b : M bool) : M bool :=
  x ← a; if x then b else ret false.

(** Modelled from the spec: [nighres.io.load_volume].  A file name is
    read with nibabel, giving an image with a header object of its own;
    an image object is handed back as it is. *)
Definition load_volume (v : input) : M niimg :=
  match v with
  | FromFile p => λ w,
      match fs w !! p with
      | Some s =>
          (Val (Niimg (st_data s) (st_affine s) (length (heap w))),
           World (fs w) (heap w ++ [st_header s]) (trace w ++ [EvLoad p]))
      | None =>
          (Exc (FileNotFoundError p),
           World (fs w) (heap w) (trace w ++ [EvLoad p]))
      end
  | InMemory img => ret img
  end.

(** Reading a header object. *)
Definition deref (l : nat) : M header :=
  λ w, match heap w !! l with
       | Some h => (Val h, w)
       | None => (Exc (ValueError "dangling header"), w)
       end.

(** Modelled from the spec: [nighres.io.save_volume].  Writes the image,
    with the header as it is at that moment, replacing any file there. *)
Definition save_volume (p : string) (img : niimg) : M unit :=
  h ← deref (img_header img);
  λ w, (Val (),
        World (<[p := Stored (img_data img) (img_affine img) h]> (fs w))
              (heap w) (trace w ++ [EvSave p])).

(** [header.get_zooms()], each entry through [.item()]. *)
Definition get_zooms (hdr : nat) : M (list scalar) :=
  h ← deref hdr; ret (zooms h).

(** [header['cal_min'] = v] and [header['cal_max'] = v]: in place. *)
Definition set_cal_min (hdr : nat) (v : scalar) : M unit :=
  h ← deref hdr;
  λ w, (Val (),
        World (fs w) (<[hdr := Header (zooms h) v (cal_max h)]> (heap w))
              (trace w)).

Definition set_cal_max (hdr : nat) (v : scalar) : M unit :=
  h ← deref hdr;
  λ w, (Val (),
        World (fs w) (<[hdr := Header (zooms h) (cal_min h) v]> (heap w))
              (trace w)).

(** [nb.Nifti1Image(data, affine, header)].  nibabel does not keep the
    header object it is given: the image stores
    [header_class.from_header(header)], a copy taken at construction. *)
Definition Nifti1Image (data : ndarray scalar) (aff : affine) (hdr : nat)
  : M niimg :=
  h ← deref hdr;
  λ w, (Val (Niimg data aff (length (heap w))),
        World (fs w) (heap w ++ [h]) (trace w)).

(** [np.fmin.reduce] / [np.fmax.reduce] over all elements, which is how
    numpy computes [nanmin] / [nanmax]; an empty array is a ValueError. *)
Definition reduce (op : scalar → scalar → scalar) (l : list scalar)
  : option scalar :=
  match l with
  | [] => None
  | x :: xs => Some (foldl op x xs)
  end.

Definition np_nanmin (a : ndarray scalar) : M scalar :=
  match reduce np_fmin (elems a) with
  | Some v => ret v
  | None => raise (ValueError "zero-size array")
  end.

Definition np_nanmax (a : ndarray scalar) : M scalar :=
  match reduce np_fmax (elems a) with
  | Some v => ret v
  | None => raise (ValueError "zero-size array")
  end.

(** [np.reshape(np.array(jarr, dtype=np.float32), dimensions, 'F')] *)
Definition np_reshape_F (jarr : list jfloat) (dimensions : nat * nat * nat)
  : M (ndarray scalar) :=
  match reshape_F (np_float32 <$> jarr) dimensions with
  | Some a => ret a
  | None => raise (ValueError "cannot reshape array")
  end.

(** [JArray('float')((data.flatten('F')).astype(float))] *)
Definition to_jarray (data : ndarray scalar) : list jfloat :=
  JArray_float <$> (astype_float <$> flatten_F data).

(** The bridge. [initVM] raising ValueError (already running) is
    swallowed by the caller's [try/except ValueError: pass]. *)
Definition initVM : M unit := log EvInitVM.
Definition jnew (cls : string) : M unit := log (EvNew cls).
Definition jcall (meth : string) (args : list jarg) : M unit :=
  log (EvCall meth args).

Definition jexecute : M (string → list jarg → list jfloat) :=
  λ w, match jvm_execute (trace w) with
       | inl msg =>
           (Exc (JavaError msg),
            World (fs w) (heap w) (trace w ++ [EvExecute]))
       | inr r =>
           (Val r, World (fs w) (heap w) (trace w ++ [EvExecute]))
       end.

Definition jget (r : string → list jarg → list jfloat)
    (meth : string) (args : list jarg) : M (list jfloat) :=
  log (EvGet meth args);; ret (r meth args).

(** A name looked up in a module's globals. *)
Definition global_name (globals : list string) (x : string) : M unit :=
  if bool_decide (x ∈ globals) then ret () else raise (NameError x).

(** The handler every wrapper puts around [execute()]:
<<
    except:
        print("\n The underlying Java code did not execute cleanly: ")
        print(sys.exc_info()[0])
        raise
>> *)
Definition execute_guarded (globals : list string)
  : M (string → list jarg → list jfloat) :=
  try_except jexecute (λ e,
    print (nl +:+ " The underlying Java code did not execute cleanly: ");;
    global_name globals "sys";;
    print (exc_type e);;
    raise e).

(** [for idx, x in enumerate(l): acc = body(idx, x, acc)] *)
Fixpoint fold_enumerate_from {A B} (i : nat) (l : list A) (acc : B)
    (body : nat → A → B → M B) : M B :=
  match l with
  | [] => ret acc
  | x :: l' =>
      acc' ← body i x acc;
      fold_enumerate_from (S i) l' acc' body
  end.

Definition fold_enumerate {A B} (l : list A) (acc : B)
    (body : nat → A → B → M B) : M B :=
  fold_enumerate_from 0 l acc body.

Definition for_enumerate {A} (l : list A) (body : nat → A → M unit)
  : M unit :=
  fold_enumerate l () (λ i x _, body i x).

(** What a wrapper returns: a dict from fixed keys to an image or to a
    list of images, or [None]. *)
Inductive pyval :=
| VImg (img : niimg)
| VList (imgs : list niimg).

Definition pydict := list (string * pyval).

(** How the cache consultation ends: with the dict to return at once, or
    with the computation still to do (and the output paths, if any). *)
Inductive gate (F : Type) :=
| Hit (output : pydict)
| Miss (files : option F).
Arguments Hit {F} _.
Arguments Miss {F} _.

(** The statements under a later [if save_data:], which use the file
    names bound under the first one. *)
Definition when_saving {F} (save_data : bool) (files : option F)
    (k : F → M unit) : M unit :=
  if save_data then
    match files with
    | Some f => k f
    | None => raise (NameError "output file")
    end
  else ret ().

(** The three statements repeated for every output:
<<
    header['cal_min'] = np.nanmin(data)
    header['cal_max'] = np.nanmax(data)
    img = nb.Nifti1Image(data, affine, header)
>> *)
Definition wrap_image (data : ndarray scalar) (aff : affine) (hdr : nat)
  : M niimg :=
  lo ← np_nanmin data;
  set_cal_min hdr lo;;
  hi ← np_nanmax data;
  set_cal_max hdr hi;;
  Nifti1Image data aff hdr.

Definition skip_msg : string := "skip computation (use existing results)".

End primitives.

Arguments Hit {_ F} _.
Arguments Miss {_ F} _.

(* ===================================================================== *)
(** ** nighres/intensity/flash_t2s_fitting.py *)
(* ===================================================================== *)

Section wrappers.
Context {Num : Numeric} {U : Utils} {J : Native}.

Definition flash_globals : list string :=
  ["np"; "nb"; "os"; "sys"; "cbstools"; "load_volume"; "save_volume";
   "_output_dir_4saving"; "_fname_4saving"; "_check_topology_lut_dir"].

Definition flash_files (image_list : list input)
    (output_dir file_name : option string)
  : M (string * string * string * string) :=
  root ← getitem image_list 0;
  output_dir ← output_dir_4saving output_dir root;
  root ← getitem image_list 0;
  n ← fname_4saving file_name root "qt2fit-t2s";
  let t2s_file := os_path_join output_dir n in
  root ← getitem image_list 0;
  n ← fname_4saving file_name root "qt2fit-r2s";
  let r2s_file := os_path_join output_dir n in
  root ← getitem image_list 0;
  n ← fname_4saving file_name root "qt2fit-s0";
  let s0_file := os_path_join output_dir n in
  root ← getitem image_list 0;
  n ← fname_4saving file_name root "qt2fit-err";
  let err_file := os_path_join output_dir n in
  ret (t2s_file, r2s_file, s0_file, err_file).

Definition flash_cached (overwrite : bool)
    (files : string * string * string * string)
  : M (gate (string * string * string * string)) :=
  let '(t2s_file, r2s_file, s0_file, err_file) := files in
  hit ← and_then (ret (negb overwrite))
        (and_then (isfile t2s_file)
        (and_then (isfile r2s_file)
        (and_then (isfile s0_file) (isfile err_file))));
  if hit then
    print skip_msg;;
    t2s ← load_volume (FromFile t2s_file);
    r2s ← load_volume (FromFile r2s_file);
    s0 ← load_volume (FromFile s0_file);
    err ← load_volume (FromFile err_file);
    ret (Hit [("t2s", VImg t2s); ("r2s", VImg r2s); ("s0", VImg s0);
              ("residuals", VImg err)])
  else ret (Miss (Some files)).

(** From [initVM] to the last setter: returns [dimensions], [affine]
    and the [header] object of the first image. *)
Definition flash_configure (image_list : list input) (te_list : list scalar)
  : M (nat * nat * nat * affine * nat) :=
  initVM;;
  jnew "IntensityFlashT2sFitting";;
  jcall "setNumberOfEchoes" [JInt (Z.of_nat (length image_list))];;
  root ← getitem image_list 0;
  img ← load_volume root;
  let data := img_data img in
  let affine := img_affine img in
  let header := img_header img in
  resolution ← get_zooms header;
  let dimensions := shape data in
  let '(d0, d1, d2) := dimensions in
  jcall "setDimensions"
    [JInt (Z.of_nat d0); JInt (Z.of_nat d1); JInt (Z.of_nat d2)];;
  r0 ← getitem resolution 0;
  r1 ← getitem resolution 1;
  r2 ← getitem resolution 2;
  jcall "setResolutions" [JFloat r0; JFloat r1; JFloat r2];;
  for_enumerate image_list (λ idx image,
    im ← load_volume image;
    let data := img_data im in
    jcall "setEchoImageAt"
      [JInt (Z.of_nat idx); JFloatArray (to_jarray data)]);;
  for_enumerate te_list (λ idx te,
    jcall "setEchoTimeAt" [JInt (Z.of_nat idx); JFloat te]);;
  ret (dimensions, affine, header).

(** From the first getter to the returned dict. *)
Definition flash_collect (r : string → list jarg → list jfloat)
    (dimensions : nat * nat * nat) (affine : affine) (header : nat)
    (save_data : bool) (files : option (string * string * string * string))
  : M (option pydict) :=
  a ← jget r "getT2sImage" [];
  t2s_data ← np_reshape_F a dimensions;
  a ← jget r "getR2sImage" [];
  r2s_data ← np_reshape_F a dimensions;
  a ← jget r "getS0Image" [];
  s0_data ← np_reshape_F a dimensions;
  a ← jget r "getResidualImage" [];
  err_data ← np_reshape_F a dimensions;
  t2s ← wrap_image t2s_data affine header;
  r2s ← wrap_image r2s_data affine header;
  s0 ← wrap_image s0_data affine header;
  err ← wrap_image err_data affine header;
  when_saving save_data files (λ '(t2s_file, r2s_file, s0_file, err_file),
    save_volume t2s_file t2s;;
    save_volume r2s_file r2s;;
    save_volume s0_file s0;;
    save_volume err_file err);;
  ret (Some [("t2s", VImg t2s); ("r2s", VImg r2s); ("s0", VImg s0);
             ("residuals", VImg err)]).

Definition flash_compute (image_list : list input) (te_list : list scalar)
    (save_data : bool) (files : option (string * string * string * string))
  : M (option pydict) :=
  '(dimensions, affine, header) ← flash_configure image_list te_list;
  r ← execute_guarded flash_globals;
  flash_collect r dimensions affine header save_data files.

Definition flash_file_list (files : string * string * string * string)
  : list string :=
  let '(t2s_file, r2s_file, s0_file, err_file) := files in
  [t2s_file; r2s_file; s0_file; err_file].

(** The [if save_data:] block ahead of the computation. *)
Definition flash_gate (image_list : list input)
    (save_data overwrite : bool) (output_dir file_name : option string)
  : M (gate (string * string * string * string)) :=
  if save_data then
    files ← flash_files image_list output_dir file_name;
    flash_cached overwrite files
  else ret (Miss None).

Definition flash_t2s_fitting (image_list : list input)
    (te_list : list scalar) (save_data overwrite : bool)
    (output_dir file_name : option string) : M (option pydict) :=
  print (nl +:+ "T2* Fitting");;
  g ← flash_gate image_list save_data overwrite output_dir file_name;
  match g with
  | Hit output => ret (Some output)
  | Miss files => flash_compute image_list te_list save_data files
  end.

(* ===================================================================== *)
(** ** nighres/intensity/lcpca_denoising.py *)
(* ===================================================================== *)

Definition lcpca_globals : list string :=
  ["np"; "nb"; "os"; "sys"; "nighresjava"; "load_volume"; "save_volume";
   "_output_dir_4saving"; "_fname_4saving"; "_check_topology_lut_dir"].

Definition den_names (output_dir : string) (file_name : option string)
    (images : list input) (den_files : list string) : M (list string) :=
  fold_enumerate images den_files (λ idx image den_files,
    n ← fname_4saving file_name image "lcpca-den";
    let den_file := os_path_join output_dir n in
    ret (den_files ++ [den_file])).

Definition lcpca_files (image_list : list input)
    (phase_list : option (list input))
    (output_dir file_name : option string)
  : M (list string * string * string) :=
  root ← getitem image_list 0;
  output_dir ← output_dir_4saving output_dir root;
  den_files ← den_names output_dir file_name image_list [];
  den_files ← match phase_list with
              | Some pl => den_names output_dir file_name pl den_files
              | None => ret den_files
              end;
  root ← getitem image_list 0;
  n ← fname_4saving file_name root "lcpca-dim";
  let dim_file := os_path_join output_dir n in
  root ← getitem image_list 0;
  n ← fname_4saving file_name root "lcpca-res";
  let err_file := os_path_join output_dir n in
  ret (den_files, dim_file, err_file).

(** [for den_file in den_files: if not isfile(den_file): missing = True] *)
Fixpoint any_missing (den_files : list string) (missing : bool) : M bool :=
  match den_files with
  | [] => ret missing
  | den_file :: rest =>
      b ← isfile den_file;
      any_missing rest (if negb b then true else missing)
  end.

(** [for den_file in den_files: denoised.append(load_volume(den_file))] *)
Fixpoint load_all (den_files : list string) (denoised : list niimg)
  : M (list niimg) :=
  match den_files with
  | [] => ret denoised
  | den_file :: rest =>
      img ← load_volume (FromFile den_file);
      load_all rest (denoised ++ [img])
  end.

Definition lcpca_cached (overwrite : bool)
    (files : list string * string * string)
  : M (gate (list string * string * string)) :=
  let '(den_files, dim_file, err_file) := files in
  c ← and_then (ret (negb overwrite))
        (and_then (isfile dim_file) (isfile err_file));
  if c then
    missing ← any_missing den_files false;
    if negb missing then
      print skip_msg;;
      denoised ← load_all den_files [];
      dim ← load_volume (FromFile dim_file);
      err ← load_volume (FromFile err_file);
      ret (Hit [("denoised", VList denoised); ("dimensions", VImg dim);
                ("residuals", VImg err)])
    else ret (Miss (Some files))
  else ret (Miss (Some files)).

(** The body of the two output loops: fetch, reshape, wrap, append,
    save. *)
Definition denoise_one (r : string → list jarg → list jfloat)
    (getter : string) (offset : nat)
    (dimensions : nat * nat * nat) (aff : affine) (header : nat)
    (save_data : bool) (files : option (list string * string * string))
    (idx : nat) (image : input) (denoised_list : list niimg)
  : M (list niimg) :=
  a ← jget r getter [JInt (Z.of_nat idx)];
  den_data ← np_reshape_F a dimensions;
  denoised ← wrap_image den_data aff header;
  let denoised_list := denoised_list ++ [denoised] in
  when_saving save_data files (λ '(den_files, _, _),
    f ← getitem den_files (idx + offset);
    save_volume f denoised);;
  ret denoised_list.

Definition denoised_loop (r : string → list jarg → list jfloat)
    (getter : string) (images : list input) (offset : nat)
    (dimensions : nat * nat * nat) (aff : affine) (header : nat)
    (save_data : bool) (files : option (list string * string * string))
    (denoised_list : list niimg) : M (list niimg) :=
  fold_enumerate images denoised_list
    (denoise_one r getter offset dimensions aff header save_data files).

(** From loading the first image to the last setter. *)
Definition lcpca_configure (image_list : list input)
    (phase_list : option (list input))
    (ngb_size : Z) (stdev_cutoff : scalar) (min_dimension max_dimension : Z)
  : M (nat * nat * nat * affine * nat) :=
  root ← getitem image_list 0;
  img ← load_volume root;
  let data := img_data img in
  let affine := img_affine img in
  let header := img_header img in
  resolution ← get_zooms header;
  let dimensions := shape data in
  let '(d0, d1, d2) := dimensions in
  jcall "setDimensions"
    [JInt (Z.of_nat d0); JInt (Z.of_nat d1); JInt (Z.of_nat d2)];;
  r0 ← getitem resolution 0;
  r1 ← getitem resolution 1;
  r2 ← getitem resolution 2;
  jcall "setResolutions" [JFloat r0; JFloat r1; JFloat r2];;
  for_enumerate image_list (λ idx image,
    im ← load_volume image;
    let data := img_data im in
    jcall "setMagnitudeImageAt"
      [JInt (Z.of_nat idx); JFloatArray (to_jarray data)]);;
  match phase_list with
  | Some pl =>
      for_enumerate pl (λ idx image,
        im ← load_volume image;
        let data := img_data im in
        jcall "setPhaseImageAt"
          [JInt (Z.of_nat idx); JFloatArray (to_jarray data)])
  | None => ret ()
  end;;
  jcall "setPatchSize" [JInt ngb_size];;
  jcall "setStdevCutoff" [JFloat stdev_cutoff];;
  jcall "setMinimumDimension" [JInt min_dimension];;
  jcall "setMaximumDimension" [JInt max_dimension];;
  ret (dimensions, affine, header).

(** From the first output loop to the returned dict. *)
Definition lcpca_collect (r : string → list jarg → list jfloat)
    (image_list : list input) (phase_list : option (list input))
    (dimensions : nat * nat * nat) (affine : affine) (header : nat)
    (save_data : bool) (files : option (list string * string * string))
  : M (option pydict) :=
  denoised_list ←
    denoised_loop r "getDenoisedMagnitudeImageAt" image_list 0
      dimensions affine header save_data files [];
  denoised_list ←
    match phase_list with
    | Some pl =>
        denoised_loop r "getDenoisedPhaseImageAt" pl (length image_list)
          dimensions affine header save_data files denoised_list
    | None => ret denoised_list
    end;
  a ← jget r "getLocalDimensionImage" [];
  dim_data ← np_reshape_F a dimensions;
  a ← jget r "getNoiseFitImage" [];
  err_data ← np_reshape_F a dimensions;
  dim ← wrap_image dim_data affine header;
  err ← wrap_image err_data affine header;
  when_saving save_data files (λ '(_, dim_file, err_file),
    save_volume dim_file dim;;
    save_volume err_file err);;
  ret (Some [("denoised", VList denoised_list); ("dimensions", VImg dim);
             ("residuals", VImg err)]).

Definition lcpca_run (image_list : list input)
    (phase_list : option (list input))
    (ngb_size : Z) (stdev_cutoff : scalar) (min_dimension max_dimension : Z)
    (save_data : bool) (files : option (list string * string * string))
  : M (option pydict) :=
  '(dimensions, affine, header) ←
    lcpca_configure image_list phase_list ngb_size stdev_cutoff
      min_dimension max_dimension;
  r ← execute_guarded lcpca_globals;
  lcpca_collect r image_list phase_list dimensions affine header
    save_data files.

Definition mismatch_msg : string :=
  nl +:+ "mismatch of magnitude and phase images: abort".

Definition lcpca_compute (image_list : list input)
    (phase_list : option (list input))
    (ngb_size : Z) (stdev_cutoff : scalar) (min_dimension max_dimension : Z)
    (save_data : bool) (files : option (list string * string * string))
  : M (option pydict) :=
  initVM;;
  jnew "IntensityComplexPCADenoising";;
  jcall "setImageNumber" [JInt (Z.of_nat (length image_list))];;
  match phase_list with
  | Some pl =>
      if bool_decide (length pl ≠ length image_list) then
        print mismatch_msg;;
        ret None
      else lcpca_run image_list phase_list ngb_size stdev_cutoff
             min_dimension max_dimension save_data files
  | None => lcpca_run image_list phase_list ngb_size stdev_cutoff
              min_dimension max_dimension save_data files
  end.

Definition lcpca_file_list (files : list string * string * string)
  : list string :=
  let '(den_files, dim_file, err_file) := files in
  den_files ++ [dim_file; err_file].

Definition lcpca_gate (image_list : list input)
    (phase_list : option (list input))
    (save_data overwrite : bool) (output_dir file_name : option string)
  : M (gate (list string * string * string)) :=
  if save_data then
    files ← lcpca_files image_list phase_list output_dir file_name;
    lcpca_cached overwrite files
  else ret (Miss None).

Definition lcpca_denoising (image_list : list input)
    (phase_list : option (list input))
    (ngb_size : Z) (stdev_cutoff : scalar) (min_dimension max_dimension : Z)
    (save_data overwrite : bool) (output_dir file_name : option string)
  : M (option pydict) :=
  print (nl +:+ "LCPCA denoising");;
  g ← lcpca_gate image_list phase_list save_data overwrite
        output_dir file_name;
  match g with
  | Hit output => ret (Some output)
  | Miss files =>
      lcpca_compute image_list phase_list ngb_size stdev_cutoff
        min_dimension max_dimension save_data files
  end.

(* ===================================================================== *)
(** ** nighres/intensity/mp2rage_t1_mapping.py *)
(* ===================================================================== *)

Definition mp2rage_globals : list string :=
  ["np"; "nb"; "os"; "sys"; "cbstools"; "load_volume"; "save_volume";
   "_output_dir_4saving"; "_fname_4saving"; "_check_topology_lut_dir"].

Definition mp2rage_files (first_inversion : list input)
    (output_dir file_name : option string)
  : M (string * string * string) :=
  root ← getitem first_inversion 0;
  output_dir ← output_dir_4saving output_dir root;
  root ← getitem first_inversion 0;
  n ← fname_4saving file_name root "qt1map-t1";
  let t1_file := os_path_join output_dir n in
  root ← getitem first_inversion 0;
  n ← fname_4saving file_name root "qt1map-r1";
  let r1_file := os_path_join output_dir n in
  root ← getitem first_inversion 0;
  n ← fname_4saving file_name root "qt1map-uni";
  let uni_file := os_path_join output_dir n in
  ret (t1_file, r1_file, uni_file).

Definition mp2rage_cached (overwrite : bool)
    (files : string * string * string)
  : M (gate (string * string * string)) :=
  let '(t1_file, r1_file, uni_file) := files in
  hit ← and_then (ret (negb overwrite))
        (and_then (isfile t1_file)
        (and_then (isfile r1_file) (isfile uni_file)));
  if hit then
    print skip_msg;;
    t1 ← load_volume (FromFile t1_file);
    r1 ← load_volume (FromFile r1_file);
    uni ← load_volume (FromFile uni_file);
    ret (Hit [("t1", VImg t1); ("r1", VImg r1); ("uni", VImg uni)])
  else ret (Miss (Some files)).

(** [load_volume(B1_map)] with [B1_map=None] is a ValueError. *)
Definition load_optional (v : option input) : M niimg :=
  match v with
  | Some i => load_volume i
  | None => raise (ValueError "Input volume must be a path or an image")
  end.

Definition mp2rage_configure (first_inversion second_inversion : list input)
    (inversion_times flip_angles : list scalar) (inversion_TR : scalar)
    (excitation_TR : list scalar) (N_excitations : Z) (efficiency : scalar)
    (correct_B1 : bool) (B1_map : option input)
  : M (nat * nat * nat * affine * nat) :=
  initVM;;
  jnew "IntensityMp2rageT1Fitting";;
  v ← getitem inversion_times 0;
  jcall "setFirstInversionTime" [JFloat v];;
  v ← getitem inversion_times 1;
  jcall "setSecondInversionTime" [JFloat v];;
  v ← getitem flip_angles 0;
  jcall "setFirstFlipAngle" [JFloat v];;
  v ← getitem flip_angles 1;
  jcall "setSecondFlipAngle" [JFloat v];;
  jcall "setInversionRepetitionTime" [JFloat inversion_TR];;
  v ← getitem excitation_TR 0;
  jcall "setFirstExcitationRepetitionTime" [JFloat v];;
  v ← getitem excitation_TR 1;
  jcall "setSecondExcitationRepetitionTime" [JFloat v];;
  jcall "setNumberExcitations" [JInt N_excitations];;
  jcall "setInversionEfficiency" [JFloat efficiency];;
  jcall "setCorrectB1inhomogeneities" [JBool correct_B1];;
  root ← getitem first_inversion 0;
  img ← load_volume root;
  let data1 := img_data img in
  let affine := img_affine img in
  let header := img_header img in
  resolution ← get_zooms header;
  let dimensions := shape data1 in
  let '(d0, d1, d2) := dimensions in
  jcall "setDimensions"
    [JInt (Z.of_nat d0); JInt (Z.of_nat d1); JInt (Z.of_nat d2)];;
  r0 ← getitem resolution 0;
  r1 ← getitem resolution 1;
  r2 ← getitem resolution 2;
  jcall "setResolutions" [JFloat r0; JFloat r1; JFloat r2];;
  jcall "setFirstInversionMagnitude" [JFloatArray (to_jarray data1)];;
  i ← getitem first_inversion 1;
  im ← load_volume i;
  let data2 := img_data im in
  jcall "setFirstInversionPhase" [JFloatArray (to_jarray data2)];;
  i ← getitem second_inversion 0;
  im ← load_volume i;
  let data3 := img_data im in
  jcall "setSecondInversionMagnitude" [JFloatArray (to_jarray data3)];;
  i ← getitem second_inversion 1;
  im ← load_volume i;
  let data4 := img_data im in
  jcall "setSecondInversionPhase" [JFloatArray (to_jarray data4)];;
  (if correct_B1 then
     im ← load_optional B1_map;
     let data5 := img_data im in
     jcall "setB1mapImage" [JFloatArray (to_jarray data5)]
   else ret ());;
  ret (dimensions, affine, header).

Definition mp2rage_collect (r : string → list jarg → list jfloat)
    (dimensions : nat * nat * nat) (affine : affine) (header : nat)
    (save_data : bool) (files : option (string * string * string))
  : M (option pydict) :=
  a ← jget r "getQuantitativeT1mapImage" [];
  t1_data ← np_reshape_F a dimensions;
  a ← jget r "getQuantitativeR1mapImage" [];
  r1_data ← np_reshape_F a dimensions;
  a ← jget r "getUniformT1weightedImage" [];
  uni_data ← np_reshape_F a dimensions;
  t1 ← wrap_image t1_data affine header;
  r1 ← wrap_image r1_data affine header;
  uni ← wrap_image uni_data affine header;
  when_saving save_data files (λ '(t1_file, r1_file, uni_file),
    save_volume t1_file t1;;
    save_volume r1_file r1;;
    save_volume uni_file uni);;
  ret (Some [("t1", VImg t1); ("r1", VImg r1); ("uni", VImg uni)]).

Definition mp2rage_compute (first_inversion second_inversion : list input)
    (inversion_times flip_angles : list scalar) (inversion_TR : scalar)
    (excitation_TR : list scalar) (N_excitations : Z) (efficiency : scalar)
    (correct_B1 : bool) (B1_map : option input)
    (save_data : bool) (files : option (string * string * string))
  : M (option pydict) :=
  '(dimensions, affine, header) ←
    mp2rage_configure first_inversion second_inversion inversion_times
      flip_angles inversion_TR excitation_TR N_excitations efficiency
      correct_B1 B1_map;
  r ← execute_guarded mp2rage_globals;
  mp2rage_collect r dimensions affine header save_data files.

Definition mp2rage_file_list (files : string * string * string)
  : list string :=
  let '(t1_file, r1_file, uni_file) := files in
  [t1_file; r1_file; uni_file].

Definition mp2rage_gate (first_inversion : list input)
    (save_data overwrite : bool) (output_dir file_name : option string)
  : M (gate (string * string * string)) :=
  if save_data then
    files ← mp2rage_files first_inversion output_dir file_name;
    mp2rage_cached overwrite files
  else ret (Miss None).

Definition mp2rage_t1_mapping (first_inversion second_inversion : list input)
    (inversion_times flip_angles : list scalar) (inversion_TR : scalar)
    (excitation_TR : list scalar) (N_excitations : Z) (efficiency : scalar)
    (correct_B1 : bool) (B1_map : option input)
    (save_data overwrite : bool) (output_dir file_name : option string)
  : M (option pydict) :=
  print (nl +:+ "T1 Mapping");;
  g ← mp2rage_gate first_inversion save_data overwrite output_dir file_name;
  match g with
  | Hit output => ret (Some output)
  | Miss files =>
      mp2rage_compute first_inversion second_inversion inversion_times
        flip_angles inversion_TR excitation_TR N_excitations efficiency
        correct_B1 B1_map save_data files
  end.

(* ===================================================================== *)
(** ** nighres/shape/levelset_fusion.py *)
(* ===================================================================== *)

(** This module's import block has no [import sys]. *)
Definition levelset_globals : list string :=
  ["os"; "np"; "nb"; "cbstools"; "load_volume"; "save_volume";
   "_output_dir_4saving"; "_fname_4saving"; "_check_topology_lut_dir"].

Definition levelset_files (levelset_images : list input)
    (output_dir file_name : option string) : M string :=
  root ← getitem levelset_images 0;
  output_dir ← output_dir_4saving output_dir root;
  root ← getitem levelset_images 0;
  n ← fname_4saving file_name root "lsf-avg";
  let levelset_file := os_path_join output_dir n in
  print ("output file: " +:+ levelset_file);;
  ret levelset_file.

Definition levelset_cached (overwrite : bool) (levelset_file : string)
  : M (gate string) :=
  hit ← and_then (ret (negb overwrite)) (isfile levelset_file);
  if hit then
    print skip_msg;;
    img ← load_volume (FromFile levelset_file);
    ret (Hit [("result", VImg img)])
  else ret (Miss (Some levelset_file)).

Definition levelset_configure (levelset_images : list input)
    (correct_topology : bool) (topology_lut_dir : string)
  : M (nat * nat * nat * affine * nat) :=
  initVM;;
  jnew "ShapeLevelsetFusion";;
  let nsubjects := length levelset_images in
  root ← getitem levelset_images 0;
  img ← load_volume root;
  let hdr := img_header img in
  let aff := img_affine img in
  resolution ← get_zooms hdr;
  let dimensions := shape (img_data img) in
  let '(d0, d1, d2) := dimensions in
  jcall "setNumberOfImages" [JInt (Z.of_nat nsubjects)];;
  r0 ← getitem resolution 0;
  r1 ← getitem resolution 1;
  r2 ← getitem resolution 2;
  jcall "setResolutions" [JFloat r0; JFloat r1; JFloat r2];;
  jcall "setDimensions"
    [JInt (Z.of_nat d0); JInt (Z.of_nat d1); JInt (Z.of_nat d2)];;
  for_enumerate levelset_images (λ idx image,
    im ← load_volume image;
    let data := img_data im in
    jcall "setLevelsetImageAt"
      [JInt (Z.of_nat idx); JFloatArray (to_jarray data)]);;
  jcall "setCorrectSkeletonTopology" [JBool correct_topology];;
  jcall "setTopologyLUTdirectory" [JString topology_lut_dir];;
  ret (dimensions, aff, hdr).

Definition levelset_collect (r : string → list jarg → list jfloat)
    (dimensions : nat * nat * nat) (aff : affine) (hdr : nat)
    (save_data : bool) (files : option string) : M (option pydict) :=
  a ← jget r "getLevelsetAverage" [];
  levelset_data ← np_reshape_F a dimensions;
  levelset ← wrap_image levelset_data aff hdr;
  when_saving save_data files (λ levelset_file,
    save_volume levelset_file levelset);;
  ret (Some [("result", VImg levelset)]).

Definition levelset_compute (levelset_images : list input)
    (correct_topology : bool) (topology_lut_dir : string)
    (save_data : bool) (files : option string) : M (option pydict) :=
  '(dimensions, aff, hdr) ←
    levelset_configure levelset_images correct_topology topology_lut_dir;
  r ← execute_guarded levelset_globals;
  levelset_collect r dimensions aff hdr save_data files.

Definition levelset_gate (levelset_images : list input)
    (save_data overwrite : bool) (output_dir file_name : option string)
  : M (gate string) :=
  if save_data then
    files ← levelset_files levelset_images output_dir file_name;
    levelset_cached overwrite files
  else ret (Miss None).

Definition levelset_fusion (levelset_images : list input)
    (correct_topology : bool) (topology_lut_dir : option string)
    (save_data overwrite : bool) (output_dir file_name : option string)
  : M (option pydict) :=
  print (nl +:+ "Levelset Shape Fusion");;
  topology_lut_dir ← check_topology_lut_dir topology_lut_dir;
  g ← levelset_gate levelset_images save_data overwrite output_dir file_name;
  match g with
  | Hit output => ret (Some output)
  | Miss files =>
      levelset_compute levelset_images correct_topology topology_lut_dir
        save_data files
  end.

End wrappers.

(* ===================================================================== *)
(** ** The public entry points, uniformly *)
(* ===================================================================== *)

Section api.
Context {Num : Numeric} {U : Utils} {J : Native}.

(** The four keyword options every wrapper takes. *)
Record save_opts := SaveOpts {
  save_data : bool;
  overwrite : bool;
  output_dir : option string;
  file_name : option string
}.

Inductive api_call :=
| FlashT2sFitting (image_list : list input) (te_list : list scalar)
    (o : save_opts)
| LcpcaDenoising (image_list : list input)
    (phase_list : option (list input))
    (ngb_size : Z) (stdev_cutoff : scalar) (min_dimension max_dimension : Z)
    (o : save_opts)
| Mp2rageT1Mapping (first_inversion second_inversion : list input)
    (inversion_times flip_angles : list scalar) (inversion_TR : scalar)
    (excitation_TR : list scalar) (N_excitations : Z) (efficiency : scalar)
    (correct_B1 : bool) (B1_map : option input) (o : save_opts)
| LevelsetFusion (levelset_images : list input) (correct_topology : bool)
    (topology_lut_dir : option string) (o : save_opts).

Definition invoke (c : api_call) : M (option pydict) :=
  match c with
  | FlashT2sFitting il te o =>
      flash_t2s_fitting il te
        (save_data o) (overwrite o) (output_dir o) (file_name o)
  | LcpcaDenoising il pl ngb cut dmin dmax o =>
      lcpca_denoising il pl ngb cut dmin dmax
        (save_data o) (overwrite o) (output_dir o) (file_name o)
  | Mp2rageT1Mapping fi si it fa itr etr n eff b1 b1map o =>
      mp2rage_t1_mapping fi si it fa itr etr n eff b1 b1map
        (save_data o) (overwrite o) (output_dir o) (file_name o)
  | LevelsetFusion imgs topo lut o =>
      levelset_fusion imgs topo lut
        (save_data o) (overwrite o) (output_dir o) (file_name o)
  end.

Definition options (c : api_call) : save_opts :=
  match c with
  | FlashT2sFitting _ _ o => o
  | LcpcaDenoising _ _ _ _ _ _ o => o
  | Mp2rageT1Mapping _ _ _ _ _ _ _ _ _ _ o => o
  | LevelsetFusion _ _ _ o => o
  end.

Definition with_options (c : api_call) (o : save_opts) : api_call :=
  match c with
  | FlashT2sFitting il te _ => FlashT2sFitting il te o
  | LcpcaDenoising il pl ngb cut dmin dmax _ =>
      LcpcaDenoising il pl ngb cut dmin dmax o
  | Mp2rageT1Mapping fi si it fa itr etr n eff b1 b1map _ =>
      Mp2rageT1Mapping fi si it fa itr etr n eff b1 b1map o
  | LevelsetFusion imgs topo lut _ => LevelsetFusion imgs topo lut o
  end.

(** The Java class behind each wrapper. *)
Definition java_class (c : api_call) : string :=
  match c with
  | FlashT2sFitting _ _ _ => "IntensityFlashT2sFitting"
  | LcpcaDenoising _ _ _ _ _ _ _ => "IntensityComplexPCADenoising"
  | Mp2rageT1Mapping _ _ _ _ _ _ _ _ _ _ _ => "IntensityMp2rageT1Fitting"
  | LevelsetFusion _ _ _ _ => "ShapeLevelsetFusion"
  end.

(** The image whose shape, affine and header the outputs inherit. *)
Definition first_input (c : api_call) : option input :=
  match c with
  | FlashT2sFitting il _ _ => il !! 0
  | LcpcaDenoising il _ _ _ _ _ _ => il !! 0
  | Mp2rageT1Mapping fi _ _ _ _ _ _ _ _ _ _ => fi !! 0
  | LevelsetFusion imgs _ _ _ => imgs !! 0
  end.

(** Every image a call may push over the bridge. *)
Definition pushed_inputs (c : api_call) : list input :=
  match c with
  | FlashT2sFitting il _ _ => il
  | LcpcaDenoising il pl _ _ _ _ _ => il ++ default [] pl
  | Mp2rageT1Mapping fi si _ _ _ _ _ _ _ b1map _ =>
      fi ++ si ++ option_list b1map
  | LevelsetFusion imgs _ _ _ => imgs
  end.

(** What runs ahead of the [if save_data:] block. *)
Definition banner (c : api_call) : M unit :=
  match c with
  | FlashT2sFitting _ _ _ => print (nl +:+ "T2* Fitting")
  | LcpcaDenoising _ _ _ _ _ _ _ => print (nl +:+ "LCPCA denoising")
  | Mp2rageT1Mapping _ _ _ _ _ _ _ _ _ _ _ => print (nl +:+ "T1 Mapping")
  | LevelsetFusion _ _ lut _ =>
      print (nl +:+ "Levelset Shape Fusion");;
      check_topology_lut_dir lut;;
      ret ()
  end.

(** The output file names a call resolves, in the order of the images
    in its result. *)
Definition output_files (c : api_call) : M (list string) :=
  match c with
  | FlashT2sFitting il _ o =>
      files ← flash_files il (output_dir o) (file_name o);
      ret (flash_file_list files)
  | LcpcaDenoising il pl _ _ _ _ o =>
      files ← lcpca_files il pl (output_dir o) (file_name o);
      ret (lcpca_file_list files)
  | Mp2rageT1Mapping fi _ _ _ _ _ _ _ _ _ o =>
      files ← mp2rage_files fi (output_dir o) (file_name o);
      ret (mp2rage_file_list files)
  | LevelsetFusion imgs _ _ o =>
      f ← levelset_files imgs (output_dir o) (file_name o);
      ret [f]
  end.

Definition images_of_value (v : pyval) : list niimg :=
  match v with
  | VImg i => [i]
  | VList l => l
  end.

Definition images_of (out : pydict) : list niimg :=
  flat_map (λ kv, images_of_value kv.2) out.

(** An image together with the present state of its header object. *)
Definition view (hp : list header) (img : niimg) : option stored :=
  match hp !! img_header img with
  | Some h => Some (Stored (img_data img) (img_affine img) h)
  | None => None
  end.

(** The voxel array and the affine [load_volume] finds for an input. *)
Definition input_data (files : gmap string stored) (v : input)
  : option (ndarray scalar) :=
  match v with
  | FromFile p => st_data <$> files !! p
  | InMemory img => Some (img_data img)
  end.

Definition input_affine (files : gmap string stored) (v : input)
  : option affine :=
  match v with
  | FromFile p => st_affine <$> files !! p
  | InMemory img => Some (img_affine img)
  end.

(** The header [load_volume] finds for an input. *)
Definition input_header (w : world) (v : input) : option header :=
  match v with
  | FromFile p => st_header <$> fs w !! p
  | InMemory img => heap w !! img_header img
  end.

(** A statement runs to completion from [w], and [Q] holds of its value
    and final world. *)
Definition total {A} (m : M A) (w : world) (Q : A → world → Prop) : Prop :=
  ∃ a w', m w = (Val a, w') ∧ Q a w'.

(** The header's display range is that of the image's own data. *)
Definition calibrated (hp : list header) (img : niimg) : Prop :=
  ∃ h, hp !! img_header img = Some h ∧
       reduce np_fmin (elems (img_data img)) = Some (cal_min h) ∧
       reduce np_fmax (elems (img_data img)) = Some (cal_max h).

(** An output image built from this run's native results. *)
Definition from_native (r : string → list jarg → list jfloat)
    (dims : nat * nat * nat) (img : niimg) : Prop :=
  ∃ meth args,
    reshape_F (np_float32 <$> r meth args) dims = Some (img_data img).

(** An output image as the collecting code leaves it: built from the
    native results, carrying [aff], calibrated, and with a header object
    of its own, younger than the shared one at [hdr]. *)
Definition fresh_image (r : string → list jarg → list jfloat)
    (dims : nat * nat * nat) (aff : affine) (hdr : nat)
    (hp : list header) (img : niimg) : Prop :=
  from_native r dims img ∧ img_affine img = aff ∧ calibrated hp img ∧
  hdr < img_header img < length hp.

(** The heap may grow, and only the object at [hdr] may change. *)
Definition heap_frame (hdr : nat) (hp hp' : list header) : Prop :=
  length hp ≤ length hp' ∧
  ∀ l, l ≠ hdr → l < length hp → hp' !! l = hp !! l.

(** What the configuration step hands on ([dimensions], [affine] and
    the header object) describes the first input. *)
Definition describes (files : gmap string stored) (first : option input)
    (cfg : nat * nat * nat * affine * nat) : Prop :=
  ∃ inp d, first = Some inp ∧
    input_data files inp = Some d ∧ shape d = cfg.1.1 ∧
    input_affine files inp = Some cfg.1.2.

(** What a successful computed run establishes: the configuration
    describes the first input, and every image of the result was freshly
    built from the native results. *)
Definition computed (w : world) (first : option input) (out : pydict)
    (w' : world) : Prop :=
  ∃ cfg r,
    describes (fs w) first cfg ∧
    (∃ tr, jvm_execute tr = inr r) ∧
    Forall (fresh_image r cfg.1.1 cfg.1.2 cfg.2 (heap w')) (images_of out).

(** The trace only grows. *)
Definition extends (w w' : world) : Prop :=
  ∃ evs, trace w' = trace w ++ evs.

(** Events the trace gained between two worlds. *)
Definition emitted (w w' : world) : list event :=
  drop (length (trace w)) (trace w').

(** A statement only emits events allowed by [P]; if [P] allows no
    [EvSave], the files are left as they were. *)
Definition step_ok (P : event → Prop) (w w' : world) : Prop :=
  ∃ evs, trace w' = trace w ++ evs ∧ Forall P evs ∧
         ((∀ p, ¬ P (EvSave p)) → fs w' = fs w).

Definition emits {A} (P : event → Prop) (m : M A) : Prop :=
  ∀ w, step_ok P w (m w).2.

Definition is_push (e : event) : Prop :=
  ∃ meth args a, e = EvCall meth args ∧ JFloatArray a ∈ args.

End api.

(* ===================================================================== *)
(** ** A concrete world to run the wrappers in *)
(* ===================================================================== *)

Module Demo.

(** Samples: integers, and one NaN. *)
Inductive num :=
| NaN
| Num (z : Z).

Definition fmin (a b : num) : num :=
  match a, b with
  | NaN, _ => b
  | _, NaN => a
  | Num x, Num y => Num (Z.min x y)
  end.

Definition fmax (a b : num) : num :=
  match a, b with
  | NaN, _ => b
  | _, NaN => a
  | Num x, Num y => Num (Z.max x y)
  end.

Definition numeric : Numeric := {|
  scalar := num;
  jfloat := num;
  astype_float := id;
  JArray_float := id;
  np_float32 := id;
  np_fmin := fmin;
  np_fmax := fmax
|}.

(** Output names as [<dir>/<base>_<suffix>.nii]; an in-memory image has
    no name to derive one from. *)
Definition utils : @Utils numeric := {|
  _output_dir_4saving := λ output_dir _,
    match output_dir with
    | Some d => inr d
    | None => inr "."
    end;
  _fname_4saving := λ file_name rootfile suffix,
    match file_name, rootfile with
    | Some f, _ => inr (f +:+ "_" +:+ suffix +:+ ".nii")
    | None, FromFile p => inr (p +:+ "_" +:+ suffix +:+ ".nii")
    | None, InMemory _ => inl (ValueError "no file name")
    end;
  _check_topology_lut_dir := λ d, inr (default "lut/" d)
|}.

(** A native library that succeeds: every getter yields [n] samples
    counting up from the length of the getter's name, the second one a
    NaN. *)
Definition ramp (n : nat) (meth : string) : list num :=
  (λ i, if decide (i = 1) then NaN
        else Num (Z.of_nat (String.length meth + i))) <$> seq 0 n.

Definition native_ok (n : nat) : @Native numeric := {|
  jvm_execute := λ _,
    inr ((λ meth _, ramp n meth)
         : string → list (@jarg numeric) → list (@jfloat numeric))
|}.

(** A native library whose [execute()] throws. *)
Definition native_fail : @Native numeric := {|
  jvm_execute := λ _, inl "java.lang.ArithmeticException"
|}.

Definition vol (d : nat * nat * nat) (base : Z) : ndarray num :=
  NdArray d ((λ i, Num (base + Z.of_nat i)) <$> seq 0 (size3 d)).

Definition hdr0 : @header numeric :=
  @Header numeric [Num 1; Num 1; Num 2] (Num 0) (Num 0).

Definition aff0 : @affine numeric :=
  [[Num 1; Num 0; Num 0; Num 0]; [Num 0; Num 1; Num 0; Num 0];
   [Num 0; Num 0; Num 2; Num 0]; [Num 0; Num 0; Num 0; Num 1]].

Definition echo (d : nat * nat * nat) (base : Z) : @stored numeric :=
  @Stored numeric (vol d base) aff0 hdr0.

(** Two echoes on disk, nothing computed yet. *)
Definition disk (d : nat * nat * nat) : gmap string (@stored numeric) :=
  <["echo1.nii" := echo d 100]> (<["echo2.nii" := echo d 200]> ∅).

Definition world0 (d : nat * nat * nat) : @world numeric :=
  @World numeric (disk d) [] [].

Definition no_save : save_opts :=
  SaveOpts false false None None.

Definition save_to_out (overwrite : bool) : save_opts :=
  SaveOpts true overwrite (Some "out") None.

Definition echoes : list (@input numeric) :=
  [FromFile "echo1.nii"; FromFile "echo2.nii"].

(** The scenario of the specification: two echoes, TE = 10 and 20. *)
Definition flash_call (o : save_opts) : @api_call numeric :=
  FlashT2sFitting echoes [Num 10; Num 20] o.

(** Two magnitude images and a single phase image. *)
Definition lcpca_mismatched (o : save_opts) : @api_call numeric :=
  LcpcaDenoising echoes (Some [FromFile "echo1.nii"]) 4 (Num 1) 0 (-1) o.

Definition lcpca_call (o : save_opts) : @api_call numeric :=
  LcpcaDenoising echoes (Some echoes) 4 (Num 1) 0 (-1) o.

Definition levelset_call (o : save_opts) : @api_call numeric :=
  LevelsetFusion echoes true None o.

(** The world a call leaves behind, seen by the next call. *)
Definition after (J : @Native numeric) (c : @api_call numeric)
    (w : @world numeric) : @world numeric :=
  let w' := (@invoke numeric utils J c w).2 in
  @World numeric (fs w') (heap w') [].

(** What a call returned, if it returned a dict. *)
Definition returned (J : @Native numeric) (c : @api_call numeric)
    (w : @world numeric) : @pydict numeric :=
  match (@invoke numeric utils J c w).1 with
  | Val (Some out) => out
  | _ => []
  end.

(** The disk after one saving run of the FLASH fit on 2x2x2 echoes. *)
Definition flash_saved : @world numeric :=
  after (native_ok 8) (flash_call (save_to_out false)) (world0 (2, 2, 2)).

(** The same, with the residuals file deleted. *)
Definition flash_partly_saved : @world numeric :=
  @World numeric (delete "out/echo1.nii_qt2fit-err.nii" (fs flash_saved))
    (heap flash_saved) [].

(** The output names the prologue resolves, and the world it leaves. *)
Definition resolved (c : @api_call numeric) (w : @world numeric)
  : list string :=
  match (bind (@banner numeric utils c)
           (λ _, @output_files numeric utils c) w).1 with
  | Val ps => ps
  | Exc _ => []
  end.

Definition prologue_end (c : @api_call numeric) (w : @world numeric)
  : @world numeric :=
  (bind (@banner numeric utils c) (λ _, @output_files numeric utils c) w).2.

End Demo.

(* ===================================================================== *)
(** ** Event classes used by the statements below *)
(* ===================================================================== *)

Section event_classes.
Context {Num : Numeric}.

(** Consulting the cache: an existence test, or the skip message. *)
Definition is_cache_event (e : event) : bool :=
  match e with
  | EvIsFile _ => true
  | EvPrint s => String.eqb s skip_msg
  | _ => false
  end.

(** What the [if save_data:] block may do: print, resolve the output
    directory, test for files, load cached results. *)
Definition is_gate_event (e : event) : bool :=
  match e with
  | EvPrint _ | EvOutputDir _ | EvIsFile _ | EvLoad _ => true
  | _ => false
  end.

Definition is_isfile (e : event) : bool :=
  match e with
  | EvIsFile _ => true
  | _ => false
  end.

(** Handing an array to the native object, or running it. *)
Definition is_push_or_run (e : event) : bool :=
  match e with
  | EvExecute => true
  | EvCall _ args =>
      existsb (λ a, match a with JFloatArray _ => true | _ => false end) args
  | _ => false
  end.

End event_classes.

Section marshalling.
Context {Num : Numeric} {U : Utils} {J : Native}.

Definition is_save (e : event) : bool :=
  match e with
  | EvSave _ => true
  | _ => false
  end.

Definition is_array (a : jarg) : bool :=
  match a with
  | JFloatArray _ => true
  | _ => false
  end.

Definition is_call (e : event) : bool :=
  match e with
  | EvCall _ _ => true
  | _ => false
  end.

(** Every array an event hands to the native object is one of the
    call's input volumes, as found in [files], put through
    [JArray('float')((data.flatten('F')).astype(float))]. *)
Definition marshalled (files : gmap string stored) (inputs : list input)
    (e : event) : Prop :=
  ∀ meth args a, e = EvCall meth args → JFloatArray a ∈ args →
    ∃ inp d, inp ∈ inputs ∧ input_data files inp = Some d ∧
             a = to_jarray d.

(** Events of the configuration step: marshalled, and never a save. *)
Definition configuring (files : gmap string stored) (inputs : list input)
    (e : event) : Prop :=
  is_save e = false ∧ marshalled files inputs e.

(** Run from a world whose files are [files], a statement only emits
    events allowed by [P]. *)
Definition tracks {A} (files : gmap string stored) (P : event → Prop)
    (m : M A) : Prop :=
  ∀ w, fs w = files → step_ok P w (m w).2.

End marshalling.

Section mismatch.
Context {Num : Numeric}.

(** The claim "the mismatch is reported before any call into the native
    layer", on a trace: the report is there, and nothing native
    precedes it. *)
Definition reported_before_native (tr : list event) : Prop :=
  ∃ pre post,
    tr = pre ++ EvPrint mismatch_msg :: post ∧
    Forall (λ e, is_native e = false) pre.

End mismatch.

Section failure.
Context {Num : Numeric} {U : Utils} {J : Native}.

(** What the caller sees of a run that ended in the handler around
    execute(): the exception [e], and the handler's first line in the
    log. *)
Definition failure_seen {A} (w0 : world) (e : exn) (rw : res A * world)
  : Prop :=
  rw.1 = Exc e ∧
  EvPrint (nl +:+ " The underlying Java code did not execute cleanly: ")
    ∈ emitted w0 rw.2.

(** Started in a world reached from [w0] without running execute(), a
    statement that does run it ends as [failure_seen] says. *)
Definition fails_with {A} (w0 : world) (e : exn) (m : M A) : Prop :=
  ∀ w, extends w0 w → EvExecute ∉ emitted w0 w →
       EvExecute ∈ emitted w0 (m w).2 → failure_seen w0 e (m w).

End failure.
(* ===================================================================== *)
(** ** Notions used by the further properties *)
(* ===================================================================== *)

Section further_events.
Context {Num : Numeric}.

(** Handing over a phase image, or asking for a denoised one. *)
Definition is_phase_event (e : event) : bool :=
  match e with
  | EvCall meth _ => String.eqb meth "setPhaseImageAt"
  | EvGet meth _ => String.eqb meth "getDenoisedPhaseImageAt"
  | _ => false
  end.

(** The world [w] with [evs] added to its log, nothing else touched. *)
Definition logged (w : world) (evs : list event) : world :=
  World (fs w) (heap w) (trace w ++ evs).

(** A statement that always ends in IndexError, having touched neither
    files nor headers and emitted only events allowed by [P]. *)
Definition raises_index_error {A} (P : event → Prop) (m : M A) : Prop :=
  ∀ w, ∃ evs, m w = (Exc IndexError, logged w evs) ∧ Forall P evs.

(** A statement that returns or ends in IndexError, having touched
    neither files nor headers and emitted only events allowed by [P]. *)
Definition plain_step {A} (P : event → Prop) (m : M A) : Prop :=
  ∀ w, ∃ evs, Forall P evs ∧
    (m w = (Exc IndexError, logged w evs) ∨
     ∃ a, m w = (Val a, logged w evs)).

End further_events.

Section further_effects.
Context {Num : Numeric} {U : Utils} {J : Native}.

(** How a run that saves only at its very end looks from [w0]: up to
    some world [wm] nothing was saved; what follows are saves only; and
    a run that raised stopped at [wm]. *)
Definition settled {A} (w0 : world) (rw : res A * world) : Prop :=
  ∃ wm post,
    step_ok (λ e, is_save e = false) w0 wm ∧
    trace rw.2 = trace wm ++ post ∧
    Forall (λ e, is_save e = true) post ∧
    (∀ e, rw.1 = Exc e → rw.2 = wm).

End further_effects.

Section further_state.
Context {Num : Numeric} {U : Utils} {J : Native}.

(** A statement takes the header objects from one state to a state
    related to it by [R]: equal, when the statement neither creates nor
    changes a header; an extension, when it may load images but changes
    no header. *)
Definition heap_step (R : relation (list header)) {A} (m : M A) : Prop :=
  ∀ w, R (heap w) (heap (m w).2).

(** The header objects while the outputs are being built.  The shared
    header sits at [hdr], below [n0]; the images built so far own the
    objects from [n0] on, one each and in order; every one of these
    headers has the voxel sizes [z]; and the shared header is, at this
    moment, equal to the header of the image built last. *)
Definition building (hdr : nat) (z : list scalar) (n0 : nat)
    (hp : list header) (imgs : list niimg) : Prop :=
  hdr < n0 ∧ length hp = n0 + length imgs ∧
  (∃ h, hp !! hdr = Some h ∧ zooms h = z) ∧
  (∀ i img, imgs !! i = Some img →
     img_header img = n0 + i ∧ ∃ h, hp !! (n0 + i) = Some h ∧ zooms h = z) ∧
  (∀ img, last imgs = Some img → hp !! hdr = hp !! img_header img).

(** The files after the saves [saved], made in that order on [f0]. *)
Definition written (hp : list header) (saved : list (niimg * string))
    (f0 : gmap string stored) : gmap string stored :=
  foldl (λ f ip, match view hp ip.1 with
                 | Some s => <[ip.2 := s]> f
                 | None => f
                 end) f0 saved.

(** The world while the outputs are being built and saved: [hp0] and
    [f0] are the header objects and the files the building started
    from. *)
Definition collecting (hdr : nat) (z : list scalar) (hp0 : list header)
    (f0 : gmap string stored) (imgs : list niimg)
    (saved : list (niimg * string)) (w : world) : Prop :=
  building hdr z (length hp0) (heap w) imgs ∧
  (∀ l, l < length hp0 → l ≠ hdr → heap w !! l = hp0 !! l) ∧
  fs w = written (heap w) saved f0 ∧
  (∀ img p, (img, p) ∈ saved → img ∈ imgs).

(** The header object the configuration step hands on: it is the one
    [load_volume] gave for the first input, it holds [h], the header of
    that input as the call found it, and [hp] extends the header objects
    the call started from.  For an image object it is the caller's own
    header object; for a file name it is a new one. *)
Definition shares_header (w : world) (first : option input) (hdr : nat)
    (h : header) (hp : list header) : Prop :=
  ∃ inp,
    first = Some inp ∧ input_header w inp = Some h ∧
    heap w `prefix_of` hp ∧ hp !! hdr = Some h ∧
    (∀ img0, inp = InMemory img0 → hdr = img_header img0) ∧
    (∀ p, inp = FromFile p → length (heap w) ≤ hdr).

(** What a computed run that succeeded leaves behind. *)
Definition outcome (w : world) (first : option input) (sd : bool)
    (prologue : M (list string)) (out : pydict) (w' : world) : Prop :=
  ∃ hdr h hp0 saved,
    shares_header w first hdr h hp0 ∧
    collecting hdr (zooms h) hp0 (fs w) (images_of out) saved w' ∧
    is_Some (last (images_of out)) ∧
    (sd = false → saved = []) ∧
    (sd = true → ∀ ps w1, prologue w = (Val ps, w1) →
       saved = zip (images_of out) ps ∧
       length ps = length (images_of out)).

End further_state.

Section further_values.
Context {Num : Numeric} {U : Utils} {J : Native}.

(** What a statement returns or raises does not depend on the world it
    runs in. *)
Definition oblivious {A} (m : M A) : Prop :=
  ∀ w w', (m w).1 = (m w').1.

End further_values.

(* ===================================================================== *)
(** ** Column-major flattening and reshaping *)
(* ===================================================================== *)

Section volume_facts.
Context {A : Type}.
Implicit Types (a : ndarray A) (flat : list A) (d : nat * nat * nat).

Lemma omap_seq_total {B} (f : nat → option B) (s n : nat) :
  (∀ i, i < n → is_Some (f (s + i))) →
  length (omap f (seq s n)) = n ∧
  ∀ i, i < n → omap f (seq s n) !! i = f (s + i).
Proof.
  revert s. induction n as [|n IH]; intros s Hf; simpl.
  - split; [done | intros; lia].
  - destruct (Hf 0) as [v Hv]; [lia|].
    rewrite Nat.add_0_r in Hv. rewrite Hv.
    destruct (IH (S s)) as [Hlen Hlk].
    { intros i Hi. replace (S s + i) with (s + S i) by lia. apply Hf. lia. }
    split; [cbn [length]; by f_equal|].
    intros [|i] Hi; simpl.
    + by rewrite Nat.add_0_r.
    + rewrite Hlk by lia. f_equal. lia.
Qed.

Lemma unravel_F_ravel_F d x y z :
  in_bounds d x y z → unravel_F d (ravel_F d x y z) = (x, y, z).
Proof.
  destruct d as [[X Y] Z]. simpl. intros (Hx & Hy & Hz).
  assert (E1 : (x + X * (y + Y * z)) mod X = x).
  { rewrite (Nat.mul_comm X), Nat.Div0.mod_add. by apply Nat.mod_small. }
  assert (E2 : (x + X * (y + Y * z)) / X = y + Y * z).
  { rewrite (Nat.mul_comm X), Nat.div_add by lia.
    rewrite Nat.div_small by lia. lia. }
  rewrite E1, E2.
  rewrite (Nat.mul_comm Y), Nat.Div0.mod_add, Nat.div_add by lia.
  rewrite Nat.mod_small, Nat.div_small by lia. done.
Qed.

Lemma unravel_C_ravel_C d x y z :
  in_bounds d x y z → unravel_C d (ravel_C d x y z) = (x, y, z).
Proof.
  destruct d as [[X Y] Z]. simpl. intros (Hx & Hy & Hz).
  assert (E1 : ((x * Y + y) * Z + z) mod Z = z).
  { rewrite Nat.add_comm, Nat.Div0.mod_add. by apply Nat.mod_small. }
  assert (E2 : ((x * Y + y) * Z + z) / Z = x * Y + y).
  { rewrite Nat.add_comm, Nat.div_add by lia.
    rewrite Nat.div_small by lia. lia. }
  rewrite E1, E2.
  rewrite (Nat.add_comm (x * Y)), Nat.Div0.mod_add, Nat.div_add by lia.
  rewrite Nat.mod_small, Nat.div_small by lia. done.
Qed.

Lemma unravel_F_bounds d j :
  j < size3 d → let '(x, y, z) := unravel_F d j in
  in_bounds d x y z ∧ ravel_F d x y z = j.
Proof.
  destruct d as [[X Y] Z]. simpl. intros Hj.
  assert (X ≠ 0 ∧ Y ≠ 0 ∧ Z ≠ 0) as (HX & HY & HZ) by (repeat split; intros ->; lia).
  pose proof (Nat.mod_upper_bound j X HX).
  pose proof (Nat.mod_upper_bound (j / X) Y HY).
  pose proof (Nat.div_mod_eq j X).
  pose proof (Nat.div_mod_eq (j / X) Y).
  assert (j / X / Y < Z).
  { apply Nat.Div0.div_lt_upper_bound. apply Nat.Div0.div_lt_upper_bound. lia. }
  repeat split; try done. nia.
Qed.

Lemma unravel_C_bounds d i :
  i < size3 d → let '(x, y, z) := unravel_C d i in
  in_bounds d x y z ∧ ravel_C d x y z = i.
Proof.
  destruct d as [[X Y] Z]. simpl. intros Hi.
  assert (X ≠ 0 ∧ Y ≠ 0 ∧ Z ≠ 0) as (HX & HY & HZ) by (repeat split; intros ->; lia).
  pose proof (Nat.mod_upper_bound i Z HZ).
  pose proof (Nat.mod_upper_bound (i / Z) Y HY).
  pose proof (Nat.div_mod_eq i Z).
  pose proof (Nat.div_mod_eq (i / Z) Y).
  assert (i / Z / Y < X).
  { apply Nat.Div0.div_lt_upper_bound. apply Nat.Div0.div_lt_upper_bound. lia. }
  repeat split; try done. nia.
Qed.

Lemma ravel_C_lt d x y z : in_bounds d x y z → ravel_C d x y z < size3 d.
Proof.
  destruct d as [[X Y] Z]. simpl. intros (Hx & Hy & Hz).
  assert (x * Y + y + 1 ≤ X * Y) by nia.
  assert ((x * Y + y + 1) * Z ≤ X * Y * Z) by (by apply Nat.mul_le_mono_r).
  lia.
Qed.

Lemma ravel_F_lt d x y z : in_bounds d x y z → ravel_F d x y z < size3 d.
Proof.
  destruct d as [[X Y] Z]. simpl. intros (Hx & Hy & Hz).
  assert (y + Y * z + 1 ≤ Y * Z) by nia.
  assert (X * (y + Y * z + 1) ≤ X * (Y * Z)) by (by apply Nat.mul_le_mono_l).
  lia.
Qed.

Lemma getitem3_in_bounds a x y z :
  in_bounds (shape a) x y z →
  getitem3 a x y z = elems a !! ravel_C (shape a) x y z.
Proof.
  unfold getitem3, in_bounds. destruct (shape a) as [[X Y] Z].
  intros H. by rewrite decide_True.
Qed.

Lemma getitem3_is_Some a x y z :
  wf a → in_bounds (shape a) x y z → is_Some (getitem3 a x y z).
Proof.
  intros Hwf Hb. rewrite getitem3_in_bounds by done.
  apply lookup_lt_is_Some. rewrite Hwf. by apply ravel_C_lt.
Qed.

Lemma flatten_F_total a :
  wf a →
  length (flatten_F a) = size3 (shape a) ∧
  ∀ j, j < size3 (shape a) →
    flatten_F a !! j =
      (let '(x, y, z) := unravel_F (shape a) j in getitem3 a x y z).
Proof.
  intros Hwf. unfold flatten_F.
  apply (omap_seq_total
    (λ j, let '(x, y, z) := unravel_F (shape a) j in getitem3 a x y z) 0).
  intros j Hj. simpl.
  pose proof (unravel_F_bounds (shape a) j Hj) as Hb.
  destruct (unravel_F (shape a) j) as [[x y] z].
  apply getitem3_is_Some; [done | apply Hb].
Qed.

Lemma flatten_F_length a : wf a → length (flatten_F a) = size3 (shape a).
Proof. intros. by apply flatten_F_total. Qed.

(** Column-major means: the element at [(x, y, z)] sits at offset
    [x + X * (y + Y * z)] of the flattened array. *)
Lemma flatten_F_lookup a x y z :
  wf a → in_bounds (shape a) x y z →
  flatten_F a !! ravel_F (shape a) x y z = getitem3 a x y z.
Proof.
  intros Hwf Hb. destruct (flatten_F_total a Hwf) as [_ ->].
  - by rewrite unravel_F_ravel_F.
  - by apply ravel_F_lt.
Qed.

Lemma reshape_F_Some flat d a :
  reshape_F flat d = Some a →
  length flat = size3 d ∧ shape a = d ∧ wf a ∧
  ∀ x y z, in_bounds d x y z →
    getitem3 a x y z = flat !! ravel_F d x y z.
Proof.
  unfold reshape_F. case_decide as Hlen; [|done]. intros [= <-]. simpl.
  set (f := λ i, let '(x, y, z) := unravel_C d i in flat !! ravel_F d x y z).
  destruct (omap_seq_total f 0 (size3 d)) as [Hl Hk].
  { intros i Hi. unfold f. simpl.
    pose proof (unravel_C_bounds d i Hi) as Hb.
    destruct (unravel_C d i) as [[x y] z].
    apply lookup_lt_is_Some. rewrite Hlen. apply ravel_F_lt, Hb. }
  repeat split; try done.
  intros x y z Hb. rewrite getitem3_in_bounds by done. simpl.
  rewrite Hk by (by apply ravel_C_lt). simpl. unfold f.
  by rewrite unravel_C_ravel_C.
Qed.

Lemma reshape_F_is_Some flat d :
  length flat = size3 d → is_Some (reshape_F flat d).
Proof. intros H. unfold reshape_F. rewrite decide_True by done. eauto. Qed.

Lemma reshape_F_None flat d :
  length flat ≠ size3 d → reshape_F flat d = None.
Proof. intros H. unfold reshape_F. by rewrite decide_False. Qed.

(** Flattening undoes the reshape: the two use one convention. *)
Lemma flatten_reshape_F flat d a :
  reshape_F flat d = Some a → flatten_F a = flat.
Proof.
  intros H. destruct (reshape_F_Some _ _ _ H) as (Hlen & Hs & Hwf & Hget).
  destruct (flatten_F_total a Hwf) as [Hl Hk]. rewrite Hs in *.
  apply list_eq. intros j.
  destruct (decide (j < size3 d)) as [Hj|Hj].
  - rewrite Hk by done.
    pose proof (unravel_F_bounds d j Hj) as Hb.
    destruct (unravel_F d j) as [[x y] z]. destruct Hb as [Hb Hr].
    by rewrite Hget, Hr.
  - rewrite !lookup_ge_None_2; [done | lia | lia].
Qed.

(** Reshaping undoes the flattening. *)
Lemma reshape_flatten_F a :
  wf a → reshape_F (flatten_F a) (shape a) = Some a.
Proof.
  intros Hwf. pose proof (flatten_F_length a Hwf) as Hlen.
  destruct (reshape_F_is_Some _ _ Hlen) as [b Hb]. rewrite Hb. f_equal.
  destruct (reshape_F_Some _ _ _ Hb) as (_ & Hs & Hwfb & Hget).
  destruct a as [d l], b as [d' l']. simpl in *. subst d'. f_equal.
  apply list_eq. intros i. unfold wf in *. simpl in *.
  destruct (decide (i < size3 d)) as [Hi|Hi].
  - pose proof (unravel_C_bounds d i Hi) as Hu.
    destruct (unravel_C d i) as [[x y] z]. destruct Hu as [Hu Hr].
    specialize (Hget x y z Hu).
    rewrite (flatten_F_lookup (NdArray d l)) in Hget by done.
    rewrite !getitem3_in_bounds in Hget by done. simpl in Hget.
    by rewrite Hr in Hget.
  - rewrite !lookup_ge_None_2; [done | lia | lia].
Qed.

Lemma map_array_wf {B} (f : A → B) a : wf a → wf (map_array f a).
Proof. unfold wf. simpl. by rewrite length_fmap. Qed.

End volume_facts.

(* ===================================================================== *)
(** ** Running statements: inversion and effect footprints *)
(* ===================================================================== *)

Section effects.
Context {Num : Numeric} {U : Utils} {J : Native}.
Implicit Types (P : event → Prop) (w : world).

Lemma bind_Val_inv {A B} (m : M A) (k : A → M B) w v w' :
  bind m k w = (Val v, w') →
  ∃ a w1, m w = (Val a, w1) ∧ k a w1 = (Val v, w').
Proof.
  unfold bind. destruct (m w) as [[a|e] w1]; [eauto | discriminate].
Qed.

Lemma bind_Val {A B} (m : M A) (k : A → M B) w a w1 :
  m w = (Val a, w1) → bind m k w = k a w1.
Proof. unfold bind. by intros ->. Qed.

Lemma bind_Exc {A B} (m : M A) (k : A → M B) w e w1 :
  m w = (Exc e, w1) → bind m k w = (Exc e, w1).
Proof. unfold bind. by intros ->. Qed.

Lemma step_ok_refl P w : step_ok P w w.
Proof. exists []. by rewrite app_nil_r. Qed.

Lemma step_ok_trans P w1 w2 w3 :
  step_ok P w1 w2 → step_ok P w2 w3 → step_ok P w1 w3.
Proof.
  intros (e1 & T1 & F1 & S1) (e2 & T2 & F2 & S2). exists (e1 ++ e2).
  split; [by rewrite T2, T1, app_assoc|].
  split; [by apply Forall_app|].
  intros HP. by rewrite S2, S1.
Qed.

Lemma step_ok_weaken P Q w w' :
  (∀ e, P e → Q e) → (∀ p, ¬ P (EvSave p)) → step_ok P w w' → step_ok Q w w'.
Proof.
  intros HPQ HS (evs & T & F & S). exists evs. split; [done|].
  split; [by eapply Forall_impl|]. intros _. by apply S.
Qed.

Lemma step_ok_same P w hp : step_ok P w (World (fs w) hp (trace w)).
Proof. exists []. simpl. by rewrite app_nil_r. Qed.

Lemma step_ok_event P w hp e :
  P e → step_ok P w (World (fs w) hp (trace w ++ [e])).
Proof. intros He. exists [e]. simpl. repeat split; auto. Qed.

Lemma emits_ret {A} P (a : A) : emits P (ret a).
Proof. intros w. apply step_ok_refl. Qed.

Lemma emits_raise {A} P e : emits P (raise (A:=A) e).
Proof. intros w. apply step_ok_refl. Qed.

Lemma emits_bind {A B} P (m : M A) (k : A → M B) :
  emits P m → (∀ a, emits P (k a)) → emits P (bind m k).
Proof.
  intros Hm Hk w. unfold bind. specialize (Hm w).
  destruct (m w) as [[a|e] w1]; simpl in *; [|done].
  eapply step_ok_trans; [done | apply Hk].
Qed.

Lemma emits_try_except {A} P (m : M A) (h : exn → M A) :
  emits P m → (∀ e, emits P (h e)) → emits P (try_except m h).
Proof.
  intros Hm Hh w. unfold try_except. specialize (Hm w).
  destruct (m w) as [[a|e] w1]; simpl in *; [done|].
  eapply step_ok_trans; [done | apply Hh].
Qed.

Lemma emits_log P e : P e → emits P (log e).
Proof. intros He w. by apply step_ok_event. Qed.

Lemma emits_lift_sum {A} P (r : exn + A) : emits P (lift_sum r).
Proof. destruct r; [apply emits_raise | apply emits_ret]. Qed.

Lemma emits_getitem {A} P (l : list A) i : emits P (getitem l i).
Proof.
  unfold getitem. destruct (l !! i); [apply emits_ret | apply emits_raise].
Qed.

Lemma emits_isfile P p : P (EvIsFile p) → emits P (isfile p).
Proof. intros He w. by apply step_ok_event. Qed.

Lemma emits_load_volume P v :
  (∀ p, v = FromFile p → P (EvLoad p)) → emits P (load_volume v).
Proof.
  intros He. destruct v as [p|img]; [|apply emits_ret].
  intros w. simpl. destruct (fs w !! p); by apply step_ok_event, He.
Qed.

Lemma emits_deref P l : emits P (deref l).
Proof.
  intros w. unfold deref. destruct (heap w !! l); apply step_ok_refl.
Qed.

Lemma emits_save_volume P p img : P (EvSave p) → emits P (save_volume p img).
Proof.
  intros He. apply emits_bind; [apply emits_deref|]. intros h w.
  exists [EvSave p]. simpl. repeat split; auto.
  intros HP. by destruct (HP p).
Qed.

Lemma emits_get_zooms P l : emits P (get_zooms l).
Proof.
  apply emits_bind; [apply emits_deref | intros; apply emits_ret].
Qed.

Lemma emits_set_cal_min P l v : emits P (set_cal_min l v).
Proof.
  apply emits_bind; [apply emits_deref|]. intros h w. apply step_ok_same.
Qed.

Lemma emits_set_cal_max P l v : emits P (set_cal_max l v).
Proof.
  apply emits_bind; [apply emits_deref|]. intros h w. apply step_ok_same.
Qed.

Lemma emits_Nifti1Image P d a l : emits P (Nifti1Image d a l).
Proof.
  apply emits_bind; [apply emits_deref|]. intros h w. apply step_ok_same.
Qed.

Lemma emits_np_nanmin P a : emits P (np_nanmin a).
Proof.
  unfold np_nanmin. destruct (reduce _ _); [apply emits_ret | apply emits_raise].
Qed.

Lemma emits_np_nanmax P a : emits P (np_nanmax a).
Proof.
  unfold np_nanmax. destruct (reduce _ _); [apply emits_ret | apply emits_raise].
Qed.

Lemma emits_np_reshape_F P a d : emits P (np_reshape_F a d).
Proof.
  unfold np_reshape_F.
  destruct (reshape_F _ _); [apply emits_ret | apply emits_raise].
Qed.

Lemma emits_wrap_image P d a l : emits P (wrap_image d a l).
Proof.
  unfold wrap_image.
  repeat first
    [ apply emits_np_nanmin | apply emits_np_nanmax | apply emits_set_cal_min
    | apply emits_set_cal_max | apply emits_Nifti1Image
    | apply emits_bind; [|intros] ].
Qed.

Lemma emits_jexecute P : P EvExecute → emits P jexecute.
Proof.
  intros He w. unfold jexecute.
  destruct (jvm_execute (trace w)); by apply step_ok_event.
Qed.

Lemma emits_jget P r meth args :
  P (EvGet meth args) → emits P (jget r meth args).
Proof.
  intros He. apply emits_bind; [by apply emits_log | intros; apply emits_ret].
Qed.

Lemma emits_global_name P g x : emits P (global_name g x).
Proof.
  unfold global_name. case_bool_decide; [apply emits_ret | apply emits_raise].
Qed.

Lemma emits_execute_guarded P g :
  P EvExecute →
  P (EvPrint (nl +:+ " The underlying Java code did not execute cleanly: ")) →
  (∀ e, P (EvPrint (exc_type e))) →
  emits P (execute_guarded g).
Proof.
  intros He Hp Hq. apply emits_try_except; [by apply emits_jexecute|].
  intros e. unfold print.
  repeat first
    [ apply emits_log; by auto | apply emits_global_name | apply emits_raise
    | apply emits_bind; [|intros] ].
Qed.

Lemma emits_fold_enumerate_from {A B} P i (l : list A) (acc : B) body :
  (∀ i x acc, x ∈ l → emits P (body i x acc)) →
  emits P (fold_enumerate_from i l acc body).
Proof.
  revert i acc. induction l as [|x l IH]; intros i acc Hb; simpl.
  - apply emits_ret.
  - apply emits_bind; [apply Hb; left|].
    intros a. apply IH. intros j y b Hy. apply Hb. by right.
Qed.

Lemma emits_for_enumerate {A} P (l : list A) body :
  (∀ i x, x ∈ l → emits P (body i x)) → emits P (for_enumerate l body).
Proof. intros Hb. apply emits_fold_enumerate_from. auto. Qed.

Lemma emits_and_then P (a b : M bool) :
  emits P a → emits P b → emits P (and_then a b).
Proof.
  intros Ha Hb. apply emits_bind; [done|].
  intros [|]; [done | apply emits_ret].
Qed.

Lemma emits_when_saving_off {F} P files (k : F → M unit) :
  emits P (when_saving false files k).
Proof. apply emits_ret. Qed.

Lemma emits_when_saving {F} P sd files (k : F → M unit) :
  (∀ f, emits P (k f)) → emits P (when_saving sd files k).
Proof.
  intros Hk. unfold when_saving.
  destruct sd, files; auto using emits_ret, emits_raise.
Qed.

Lemma emits_run {A} P (m : M A) w r w' :
  emits P m → m w = (r, w') → step_ok P w w'.
Proof. intros Hm E. specialize (Hm w). by rewrite E in Hm. Qed.

Lemma step_ok_emitted P w w' :
  step_ok P w w' → Forall P (emitted w w').
Proof.
  intros (evs & T & F & _). unfold emitted.
  by rewrite T, drop_app_length.
Qed.

End effects.

(** Footprint goals follow the shape of the statement. *)
Ltac emits_step :=
  first
    [ apply emits_ret | apply emits_raise
    | apply emits_log | apply emits_lift_sum | apply emits_getitem
    | apply emits_isfile | apply emits_load_volume | apply emits_deref
    | apply emits_save_volume | apply emits_get_zooms
    | apply emits_wrap_image | apply emits_np_reshape_F
    | apply emits_execute_guarded | apply emits_jget
    | apply emits_and_then
    | apply emits_for_enumerate; intros
    | apply emits_fold_enumerate_from; intros
    | apply emits_when_saving_off
    | apply emits_when_saving; intros
    | apply emits_bind; [|intros]
    | match goal with
      | |- emits _ (match ?x with _ => _ end) => destruct x
      end
    | progress cbv zeta ].

Ltac emits_auto :=
  unfold print, initVM, jnew, jcall, output_dir_4saving, fname_4saving,
    check_topology_lut_dir, load_optional;
  repeat emits_step; try done; try (intros; done).

(* ===================================================================== *)
(** ** Inversion of successful statements *)
(* ===================================================================== *)

Section inversion.
Context {Num : Numeric} {U : Utils} {J : Native}.
Implicit Types (w : world).

Lemma bind_assoc {A B C} (m : M A) (k1 : A → M B) (k2 : B → M C) w :
  bind (bind m k1) k2 w = bind m (λ a, bind (k1 a) k2) w.
Proof. unfold bind. by destruct (m w) as [[a|e] w1]. Qed.

Lemma ret_inv {A} (a : A) w v w' :
  ret a w = (Val v, w') → v = a ∧ w' = w.
Proof. by intros [= <- <-]. Qed.

Lemma log_inv e w v w' :
  log e w = (Val v, w') → w' = World (fs w) (heap w) (trace w ++ [e]).
Proof. by intros [= <- <-]. Qed.

Lemma getitem_inv {A} (l : list A) i w a w' :
  getitem l i w = (Val a, w') → l !! i = Some a ∧ w' = w.
Proof. unfold getitem. destruct (l !! i); by intros [= <- <-]. Qed.

Lemma lift_sum_inv {A} (r : exn + A) w a w' :
  lift_sum r w = (Val a, w') → r = inr a ∧ w' = w.
Proof. destruct r; by intros [= <- <-]. Qed.

Lemma load_volume_inv v w img w' :
  load_volume v w = (Val img, w') →
  input_data (fs w) v = Some (img_data img) ∧
  input_affine (fs w) v = Some (img_affine img) ∧
  fs w' = fs w ∧ heap w `prefix_of` heap w' ∧
  (∃ evs, trace w' = trace w ++ evs ∧
          Forall (λ e, ∃ p, e = EvLoad p) evs).
Proof.
  destruct v as [p|i]; simpl.
  - destruct (fs w !! p) as [s|]; [|done]. intros [= <- <-]. simpl.
    repeat split; [by apply prefix_app_r|]. exists [EvLoad p]. eauto.
  - intros [= <- <-]. repeat split; [done|]. exists []. by rewrite app_nil_r.
Qed.

Lemma np_reshape_F_inv a d w x w' :
  np_reshape_F a d w = (Val x, w') →
  reshape_F (np_float32 <$> a) d = Some x ∧ w' = w.
Proof.
  unfold np_reshape_F. destruct (reshape_F _ _); by intros [= <- <-].
Qed.

Lemma jget_inv r meth args w a w' :
  jget r meth args w = (Val a, w') →
  a = r meth args ∧
  w' = World (fs w) (heap w) (trace w ++ [EvGet meth args]).
Proof. by intros [= <- <-]. Qed.

Lemma jexecute_inv w r w' :
  jexecute w = (Val r, w') →
  jvm_execute (trace w) = inr r ∧
  w' = World (fs w) (heap w) (trace w ++ [EvExecute]).
Proof.
  unfold jexecute. destruct (jvm_execute (trace w)); by intros [= <- <-].
Qed.

Lemma execute_guarded_inv g w r w' :
  execute_guarded g w = (Val r, w') →
  jvm_execute (trace w) = inr r ∧
  w' = World (fs w) (heap w) (trace w ++ [EvExecute]).
Proof.
  unfold execute_guarded, try_except, jexecute.
  destruct (jvm_execute (trace w)) as [msg|r'].
  - unfold print, global_name. simpl. case_bool_decide; simpl; discriminate.
  - by intros [= <- <-].
Qed.

(** A native failure, seen through the handler. *)
Lemma execute_guarded_fails g w msg :
  jvm_execute (trace w) = inl msg →
  execute_guarded g w =
    if bool_decide ("sys" ∈ g) then
      (Exc (JavaError msg),
       World (fs w) (heap w)
         (trace w ++
          [EvExecute;
           EvPrint (nl +:+ " The underlying Java code did not execute cleanly: ");
           EvPrint "JavaError"]))
    else
      (Exc (NameError "sys"),
       World (fs w) (heap w)
         (trace w ++
          [EvExecute;
           EvPrint (nl +:+ " The underlying Java code did not execute cleanly: ")])).
Proof.
  intros E. unfold execute_guarded, try_except, jexecute. rewrite E.
  unfold print, global_name, bind, log. simpl.
  case_bool_decide; simpl; by rewrite <- !app_assoc.
Qed.

Lemma wrap_image_inv d a hdr w img w' :
  wrap_image d a hdr w = (Val img, w') →
  ∃ h lo hi,
    heap w !! hdr = Some h ∧
    reduce np_fmin (elems d) = Some lo ∧
    reduce np_fmax (elems d) = Some hi ∧
    img = Niimg d a (length (heap w)) ∧
    w' = World (fs w)
           (<[hdr := Header (zooms h) lo hi]> (heap w)
              ++ [Header (zooms h) lo hi])
           (trace w).
Proof.
  unfold wrap_image, np_nanmin, np_nanmax, set_cal_min, set_cal_max,
    Nifti1Image, deref, bind, ret, raise.
  destruct (reduce np_fmin (elems d)) as [lo|]; [|done].
  destruct (heap w !! hdr) as [h|] eqn:Hh; [|done]. simpl.
  destruct (reduce np_fmax (elems d)) as [hi|]; [|done].
  assert (hdr < length (heap w)) as Hlt by (by eapply lookup_lt_Some).
  cbn [heap fs trace].
  rewrite list_lookup_insert_eq by done. cbn [heap fs trace cal_min zooms].
  rewrite list_insert_insert_eq.
  rewrite list_lookup_insert_eq by done. cbn [heap fs trace cal_min zooms].
  intros [= <- <-]. exists h, lo, hi.
  by rewrite length_insert.
Qed.

Lemma save_volume_inv p img w v w' :
  save_volume p img w = (Val v, w') →
  ∃ s, view (heap w) img = Some s ∧
       w' = World (<[p := s]> (fs w)) (heap w) (trace w ++ [EvSave p]).
Proof.
  unfold save_volume, deref, bind, view.
  destruct (heap w !! img_header img) as [h|]; [|done].
  intros [= <- <-]. eauto.
Qed.

Lemma heap_frame_refl hdr hp : heap_frame hdr hp hp.
Proof. by split. Qed.

Lemma heap_frame_trans hdr hp1 hp2 hp3 :
  heap_frame hdr hp1 hp2 → heap_frame hdr hp2 hp3 → heap_frame hdr hp1 hp3.
Proof.
  intros [L1 K1] [L2 K2]. split; [lia|].
  intros l Hl Hlt. rewrite K2 by (done || lia). by apply K1.
Qed.

Lemma heap_frame_wrap hdr hp h :
  hdr < length hp → heap_frame hdr hp (<[hdr := h]> hp ++ [h]).
Proof.
  intros Hlt. split.
  - rewrite length_app, length_insert. lia.
  - intros l Hl Hll.
    rewrite lookup_app_l by (by rewrite length_insert).
    by rewrite list_lookup_insert_ne.
Qed.

Lemma calibrated_frame hdr hp hp' img :
  heap_frame hdr hp hp' → img_header img ≠ hdr →
  img_header img < length hp → calibrated hp img → calibrated hp' img.
Proof.
  intros [_ K] Hne Hlt (h & Hh & Hlo & Hhi). exists h.
  by rewrite K.
Qed.

Lemma fresh_image_frame r dims aff hdr hp hp' img :
  heap_frame hdr hp hp' →
  fresh_image r dims aff hdr hp img → fresh_image r dims aff hdr hp' img.
Proof.
  intros HF (Hn & Ha & Hc & Hlo & Hhi).
  repeat split; try done.
  - eapply calibrated_frame; eauto. lia.
  - destruct HF. lia.
Qed.

(** What one [wrap_image] establishes. *)
Lemma wrap_image_fresh r dims aff hdr w d img w' :
  wrap_image d aff hdr w = (Val img, w') →
  (∃ meth args, reshape_F (np_float32 <$> r meth args) dims = Some d) →
  img_data img = d ∧
  fresh_image r dims aff hdr (heap w') img ∧
  heap_frame hdr (heap w) (heap w') ∧
  fs w' = fs w ∧ trace w' = trace w.
Proof.
  intros E Hd.
  apply wrap_image_inv in E as (h & lo & hi & Hh & Hlo & Hhi & -> & ->).
  assert (hdr < length (heap w)) as Hlt by (by eapply lookup_lt_Some).
  simpl. repeat split; try done.
  - exists (Header (zooms h) lo hi). simpl. repeat split; try done.
    apply list_lookup_middle. by rewrite length_insert.
  - rewrite length_app, length_insert. simpl. lia.
  - by apply heap_frame_wrap.
  - intros l Hl Hll.
    rewrite lookup_app_l by (by rewrite length_insert).
    by rewrite list_lookup_insert_ne.
Qed.

End inversion.

(** Peel one statement off a successful run. *)
Tactic Notation "inv_bind" hyp(H) "as" ident(a) ident(w1) ident(E) :=
  apply bind_Val_inv in H as (a & w1 & E & H).

Ltac Forall_split :=
  repeat first [apply Forall_nil_2 | apply Forall_cons_2].

Ltac elem_solve :=
  solve [repeat first [apply list_elem_of_here | apply list_elem_of_further]].

(* ===================================================================== *)
(** ** Collecting the results *)
(* ===================================================================== *)

Section collect.
Context {Num : Numeric} {U : Utils} {J : Native}.
Implicit Types (w : world) (r : string → list jarg → list jfloat).

Lemma when_saving_inv {F} sd (files : option F) (k : F → M unit) w v w' :
  when_saving sd files k w = (Val v, w') →
  (sd = false ∧ w' = w) ∨
  (sd = true ∧ ∃ f, files = Some f ∧ k f w = (Val v, w')).
Proof.
  unfold when_saving. destruct sd; [|intros [= <- <-]; by left].
  destruct files as [f|]; [|done]. intros E. right. eauto.
Qed.

(** One getter call followed by the reshape. *)
Lemma fetch_inv r meth args dims w (k : ndarray scalar → M (option pydict))
    v w' :
  bind (jget r meth args) (λ a, bind (np_reshape_F a dims) k) w
    = (Val v, w') →
  ∃ d, reshape_F (np_float32 <$> r meth args) dims = Some d ∧
       k d (World (fs w) (heap w) (trace w ++ [EvGet meth args]))
         = (Val v, w').
Proof.
  intros H. inv_bind H as a w1 E. apply jget_inv in E as [-> ->].
  inv_bind H as d w2 E. apply np_reshape_F_inv in E as [Hd ->]. eauto.
Qed.

Lemma emitted_app w w' evs :
  trace w' = trace w ++ evs → emitted w w' = evs.
Proof. intros E. unfold emitted. by rewrite E, drop_app_length. Qed.

Lemma flash_collect_inv r dims aff hdr sd files w out w' :
  flash_collect r dims aff hdr sd files w = (Val (Some out), w') →
  ∃ t2s r2s s0 err,
    out = [("t2s", VImg t2s); ("r2s", VImg r2s); ("s0", VImg s0);
           ("residuals", VImg err)] ∧
    reshape_F (np_float32 <$> r "getT2sImage" []) dims
      = Some (img_data t2s) ∧
    reshape_F (np_float32 <$> r "getR2sImage" []) dims
      = Some (img_data r2s) ∧
    reshape_F (np_float32 <$> r "getS0Image" []) dims
      = Some (img_data s0) ∧
    reshape_F (np_float32 <$> r "getResidualImage" []) dims
      = Some (img_data err) ∧
    Forall (fresh_image r dims aff hdr (heap w')) [t2s; r2s; s0; err] ∧
    (sd = true → ∃ a b c d, files = Some (a, b, c, d) ∧
       Forall (λ p, EvSave p ∈ emitted w w') [a; b; c; d]).
Proof.
  unfold flash_collect. intros H.
  apply fetch_inv in H as (d1 & Hd1 & H).
  apply fetch_inv in H as (d2 & Hd2 & H).
  apply fetch_inv in H as (d3 & Hd3 & H).
  apply fetch_inv in H as (d4 & Hd4 & H). cbn [fs heap trace] in H.
  inv_bind H as t2s w1 E.
  eapply wrap_image_fresh in E as (I1 & F1 & R1 & S1 & T1); [|eauto].
  inv_bind H as r2s w2 E.
  eapply wrap_image_fresh in E as (I2 & F2 & R2 & S2 & T2); [|eauto].
  inv_bind H as s0 w3 E.
  eapply wrap_image_fresh in E as (I3 & F3 & R3 & S3 & T3); [|eauto].
  inv_bind H as err w4 E.
  eapply wrap_image_fresh in E as (I4 & F4 & R4 & S4 & T4); [|eauto].
  inv_bind H as u w5 E. apply ret_inv in H as [[= ->] <-].
  assert (heap w' = heap w4 ∧
          (sd = true → ∃ a b c d, files = Some (a, b, c, d) ∧
             trace w' = trace w4 ++ [EvSave a; EvSave b; EvSave c; EvSave d]))
    as [Hheap Hsave].
  { apply when_saving_inv in E as [[-> ->]|(-> & [[[a b] c] d] & -> & E)];
      [done|].
    inv_bind E as u1 v1 E1. apply save_volume_inv in E1 as (? & _ & ->).
    inv_bind E as u2 v2 E2. apply save_volume_inv in E2 as (? & _ & ->).
    inv_bind E as u3 v3 E3. apply save_volume_inv in E3 as (? & _ & ->).
    apply save_volume_inv in E as (? & _ & ->). simpl.
    split; [done|]. intros _. exists a, b, c, d. split; [done|].
    by rewrite <- !app_assoc. }
  exists t2s, r2s, s0, err. rewrite I1, I2, I3, I4, Hheap.
  repeat split; try done.
  - Forall_split; [| | |done].
    + eapply fresh_image_frame; [|exact F1].
      eapply heap_frame_trans; [exact R2|].
      eapply heap_frame_trans; [exact R3|exact R4].
    + eapply fresh_image_frame; [|exact F2].
      eapply heap_frame_trans; [exact R3|exact R4].
    + eapply fresh_image_frame; [|exact F3]. exact R4.
  - intros Hsd. destruct (Hsave Hsd) as (a & b & c & d & -> & Ht).
    exists a, b, c, d. split; [done|].
    erewrite emitted_app;
      [|rewrite Ht, T4, T3, T2, T1; simpl; rewrite <- !app_assoc; done].
    Forall_split; elem_solve.
Qed.

End collect.

Section collect_more.
Context {Num : Numeric} {U : Utils} {J : Native}.
Implicit Types (w : world).

Lemma mp2rage_collect_inv (r : string → list jarg → list jfloat) dims aff hdr sd files w out w' :
  mp2rage_collect r dims aff hdr sd files w = (Val (Some out), w') →
  ∃ t1 r1 uni,
    out = [("t1", VImg t1); ("r1", VImg r1); ("uni", VImg uni)] ∧
    reshape_F (np_float32 <$> r "getQuantitativeT1mapImage" []) dims
      = Some (img_data t1) ∧
    reshape_F (np_float32 <$> r "getQuantitativeR1mapImage" []) dims
      = Some (img_data r1) ∧
    reshape_F (np_float32 <$> r "getUniformT1weightedImage" []) dims
      = Some (img_data uni) ∧
    Forall (fresh_image r dims aff hdr (heap w')) [t1; r1; uni] ∧
    (sd = true → ∃ a b c, files = Some (a, b, c) ∧
       Forall (λ p, EvSave p ∈ emitted w w') [a; b; c]).
Proof.
  unfold mp2rage_collect. intros H.
  apply fetch_inv in H as (d1 & Hd1 & H).
  apply fetch_inv in H as (d2 & Hd2 & H).
  apply fetch_inv in H as (d3 & Hd3 & H). cbn [fs heap trace] in H.
  inv_bind H as t1 w1 E.
  eapply wrap_image_fresh in E as (I1 & F1 & R1 & S1 & T1); [|eauto].
  inv_bind H as r1 w2 E.
  eapply wrap_image_fresh in E as (I2 & F2 & R2 & S2 & T2); [|eauto].
  inv_bind H as uni w3 E.
  eapply wrap_image_fresh in E as (I3 & F3 & R3 & S3 & T3); [|eauto].
  inv_bind H as u w4 E. apply ret_inv in H as [[= ->] <-].
  assert (heap w' = heap w3 ∧
          (sd = true → ∃ a b c, files = Some (a, b, c) ∧
             trace w' = trace w3 ++ [EvSave a; EvSave b; EvSave c]))
    as [Hheap Hsave].
  { apply when_saving_inv in E as [[-> ->]|(-> & [[a b] c] & -> & E)];
      [done|].
    inv_bind E as u1 v1 E1. apply save_volume_inv in E1 as (? & _ & ->).
    inv_bind E as u2 v2 E2. apply save_volume_inv in E2 as (? & _ & ->).
    apply save_volume_inv in E as (? & _ & ->). simpl.
    split; [done|]. intros _. exists a, b, c. split; [done|].
    by rewrite <- !app_assoc. }
  exists t1, r1, uni. rewrite I1, I2, I3, Hheap.
  repeat split; try done.
  - Forall_split; [| |done].
    + eapply fresh_image_frame; [|exact F1].
      eapply heap_frame_trans; [exact R2|exact R3].
    + eapply fresh_image_frame; [|exact F2]. exact R3.
  - intros Hsd. destruct (Hsave Hsd) as (a & b & c & -> & Ht).
    exists a, b, c. split; [done|].
    erewrite emitted_app;
      [|rewrite Ht, T3, T2, T1; simpl; rewrite <- !app_assoc; done].
    Forall_split; elem_solve.
Qed.

Lemma levelset_collect_inv (r : string → list jarg → list jfloat) dims aff hdr sd files w out w' :
  levelset_collect r dims aff hdr sd files w = (Val (Some out), w') →
  ∃ levelset,
    out = [("result", VImg levelset)] ∧
    reshape_F (np_float32 <$> r "getLevelsetAverage" []) dims
      = Some (img_data levelset) ∧
    Forall (fresh_image r dims aff hdr (heap w')) [levelset] ∧
    (sd = true → ∃ a, files = Some a ∧
       Forall (λ p, EvSave p ∈ emitted w w') [a]).
Proof.
  unfold levelset_collect. intros H.
  apply fetch_inv in H as (d1 & Hd1 & H). cbn [fs heap trace] in H.
  inv_bind H as levelset w1 E.
  eapply wrap_image_fresh in E as (I1 & F1 & R1 & S1 & T1); [|eauto].
  inv_bind H as u w2 E. apply ret_inv in H as [[= ->] <-].
  assert (heap w' = heap w1 ∧
          (sd = true → ∃ a, files = Some a ∧
             trace w' = trace w1 ++ [EvSave a]))
    as [Hheap Hsave].
  { apply when_saving_inv in E as [[-> ->]|(-> & a & -> & E)]; [done|].
    apply save_volume_inv in E as (? & _ & ->). simpl.
    split; [done|]. intros _. by exists a. }
  exists levelset. rewrite I1, Hheap.
  repeat split; try done.
  - by Forall_split.
  - intros Hsd. destruct (Hsave Hsd) as (a & -> & Ht).
    exists a. split; [done|].
    erewrite emitted_app;
      [|rewrite Ht, T1; simpl; rewrite <- !app_assoc; done].
    Forall_split; elem_solve.
Qed.

(** One round of an output loop of [lcpca_denoising]. *)
Lemma denoise_one_inv (r : string → list jarg → list jfloat) getter offset dims aff hdr sd files idx image
    acc w acc' w' :
  denoise_one r getter offset dims aff hdr sd files idx image acc w
    = (Val acc', w') →
  ∃ img evs,
    acc' = acc ++ [img] ∧
    reshape_F (np_float32 <$> r getter [JInt (Z.of_nat idx)]) dims
      = Some (img_data img) ∧
    fresh_image r dims aff hdr (heap w') img ∧
    heap_frame hdr (heap w) (heap w') ∧
    trace w' = trace w ++ evs ∧
    (sd = true → ∃ den dim err p,
       files = Some (den, dim, err) ∧ den !! (idx + offset) = Some p ∧
       EvSave p ∈ evs).
Proof.
  unfold denoise_one. intros H.
  inv_bind H as a w1 E. apply jget_inv in E as [-> ->].
  inv_bind H as d w2 E. apply np_reshape_F_inv in E as [Hd ->].
  inv_bind H as img w3 E.
  eapply wrap_image_fresh in E as (I1 & F1 & R1 & S1 & T1); [|eauto].
  inv_bind H as u w4 E. apply ret_inv in H as [-> <-].
  cbn [fs heap trace] in *.
  apply when_saving_inv in E as [[-> ->]|(-> & [[den dim] err] & -> & E)].
  - exists img, [EvGet getter [JInt (Z.of_nat idx)]].
    rewrite I1. repeat (split; [done|]). done.
  - inv_bind E as p w5 E1. apply getitem_inv in E1 as [Hp ->].
    apply save_volume_inv in E as (? & _ & ->). cbn [fs heap trace].
    exists img, [EvGet getter [JInt (Z.of_nat idx)]; EvSave p].
    rewrite I1, T1. repeat (split; [done|]).
    split; [by rewrite <- app_assoc|].
    intros _. exists den, dim, err, p. repeat (split; [done|]). elem_solve.
Qed.

Lemma denoised_loop_from_inv (r : string → list jarg → list jfloat)
    getter offset dims aff hdr sd files images i0 acc w out w' :
  fold_enumerate_from i0 images acc
    (denoise_one r getter offset dims aff hdr sd files) w = (Val out, w') →
  ∃ imgs evs,
    out = acc ++ imgs ∧ length imgs = length images ∧
    (∀ i img, imgs !! i = Some img →
       reshape_F (np_float32 <$> r getter [JInt (Z.of_nat (i0 + i))]) dims
         = Some (img_data img)) ∧
    Forall (fresh_image r dims aff hdr (heap w')) imgs ∧
    heap_frame hdr (heap w) (heap w') ∧
    trace w' = trace w ++ evs ∧
    (sd = true → ∀ i, i < length images →
       ∃ den dim err p, files = Some (den, dim, err) ∧
         den !! (i0 + i + offset) = Some p ∧ EvSave p ∈ evs).
Proof.
  revert i0 acc w. induction images as [|x images IH]; intros i0 acc w H.
  - apply ret_inv in H as [-> ->]. exists [], [].
    rewrite !app_nil_r.
    refine (conj eq_refl (conj eq_refl (conj _ (conj (Forall_nil_2 _)
      (conj (heap_frame_refl _ _) (conj eq_refl _)))))).
    + by intros i img.
    + simpl. intros; lia.
  - simpl in H. inv_bind H as acc1 w1 E.
    apply denoise_one_inv in E
      as (img & ev1 & -> & Hd & F1 & R1 & T1 & Hs1).
    apply IH in H as (imgs & ev2 & -> & Hlen & Hds & F2 & R2 & T2 & Hs2).
    exists (img :: imgs), (ev1 ++ ev2).
    split; [by rewrite <- app_assoc|].
    split; [simpl; by rewrite Hlen|].
    split.
    { intros [|i] im Him; simpl in Him.
      - injection Him as <-. by rewrite Nat.add_0_r.
      - replace (i0 + S i) with (S i0 + i) by lia. by apply Hds. }
    split; [apply Forall_cons_2; [by eapply fresh_image_frame|done]|].
    split; [by eapply heap_frame_trans|].
    split; [by rewrite T2, T1, app_assoc|].
    intros Hsd [|i] Hi.
    + destruct (Hs1 Hsd) as (den & dim & err & p & Hf & Hp & Hin).
      exists den, dim, err, p. rewrite Nat.add_0_r.
      repeat (split; [done|]). apply elem_of_app. by left.
    + destruct (Hs2 Hsd i) as (den & dim & err & p & Hf & Hp & Hin).
      { simpl in Hi. lia. }
      exists den, dim, err, p.
      replace (i0 + S i) with (S i0 + i) by lia.
      repeat (split; [done|]). apply elem_of_app. by right.
Qed.

End collect_more.

Section collect_lcpca.
Context {Num : Numeric} {U : Utils} {J : Native}.
Implicit Types (w : world).

Lemma denoised_loop_inv (r : string → list jarg → list jfloat)
    getter offset dims aff hdr sd files images acc w out w' :
  denoised_loop r getter images offset dims aff hdr sd files acc w
    = (Val out, w') →
  ∃ imgs evs,
    out = acc ++ imgs ∧ length imgs = length images ∧
    (∀ i img, imgs !! i = Some img →
       reshape_F (np_float32 <$> r getter [JInt (Z.of_nat i)]) dims
         = Some (img_data img)) ∧
    Forall (fresh_image r dims aff hdr (heap w')) imgs ∧
    heap_frame hdr (heap w) (heap w') ∧
    trace w' = trace w ++ evs ∧
    (sd = true → ∀ i, i < length images →
       ∃ den dim err p, files = Some (den, dim, err) ∧
         den !! (i + offset) = Some p ∧ EvSave p ∈ evs).
Proof. apply denoised_loop_from_inv. Qed.

Lemma lcpca_collect_inv (r : string → list jarg → list jfloat)
    il pl dims aff hdr sd files w out w' :
  lcpca_collect r il pl dims aff hdr sd files w = (Val (Some out), w') →
  ∃ mags phases dim err,
    out = [("denoised", VList (mags ++ phases)); ("dimensions", VImg dim);
           ("residuals", VImg err)] ∧
    length mags = length il ∧
    length phases = length (default [] pl) ∧
    (∀ i img, mags !! i = Some img →
       reshape_F (np_float32 <$>
                    r "getDenoisedMagnitudeImageAt" [JInt (Z.of_nat i)]) dims
         = Some (img_data img)) ∧
    (∀ j img, phases !! j = Some img →
       reshape_F (np_float32 <$>
                    r "getDenoisedPhaseImageAt" [JInt (Z.of_nat j)]) dims
         = Some (img_data img)) ∧
    reshape_F (np_float32 <$> r "getLocalDimensionImage" []) dims
      = Some (img_data dim) ∧
    reshape_F (np_float32 <$> r "getNoiseFitImage" []) dims
      = Some (img_data err) ∧
    Forall (fresh_image r dims aff hdr (heap w'))
      (mags ++ phases ++ [dim; err]) ∧
    (sd = true → ∃ den dimf errf,
       files = Some (den, dimf, errf) ∧
       (∀ k, k < length il + length (default [] pl) →
          ∃ p, den !! k = Some p ∧ EvSave p ∈ emitted w w') ∧
       EvSave dimf ∈ emitted w w' ∧ EvSave errf ∈ emitted w w').
Proof.
  unfold lcpca_collect. intros H.
  inv_bind H as dl1 w1 E.
  apply denoised_loop_inv in E
    as (mags & ev1 & -> & Lm & Dm & Fm & Rm & Tm & Sm).
  simpl in H. inv_bind H as dl2 w2 E.
  assert (∃ phases ev2,
    dl2 = mags ++ phases ∧ length phases = length (default [] pl) ∧
    (∀ j img, phases !! j = Some img →
       reshape_F (np_float32 <$>
                    r "getDenoisedPhaseImageAt" [JInt (Z.of_nat j)]) dims
         = Some (img_data img)) ∧
    Forall (fresh_image r dims aff hdr (heap w2)) phases ∧
    heap_frame hdr (heap w1) (heap w2) ∧
    trace w2 = trace w1 ++ ev2 ∧
    (sd = true → ∀ j, j < length (default [] pl) →
       ∃ den dimf errf p, files = Some (den, dimf, errf) ∧
         den !! (j + length il) = Some p ∧ EvSave p ∈ ev2))
    as (phases & ev2 & -> & Lp & Dp & Fp & Rp & Tp & Sp).
  { destruct pl as [pl|]; simpl.
    - apply denoised_loop_inv in E. exact E.
    - apply ret_inv in E as [-> ->]. exists [], [].
      rewrite !app_nil_r.
      refine (conj eq_refl (conj eq_refl (conj _ (conj (Forall_nil_2 _)
        (conj (heap_frame_refl _ _) (conj eq_refl _)))))).
      + by intros j img.
      + simpl. intros; lia. }
  apply fetch_inv in H as (d1 & Hd1 & H).
  apply fetch_inv in H as (d2 & Hd2 & H). cbn [fs heap trace] in H.
  inv_bind H as dim w3 E1.
  eapply wrap_image_fresh in E1 as (I1 & F1 & R1 & S1 & T1); [|eauto].
  inv_bind H as err w4 E2.
  eapply wrap_image_fresh in E2 as (I2 & F2 & R2 & S2 & T2); [|eauto].
  inv_bind H as u w5 E3. apply ret_inv in H as [[= ->] <-].
  cbn [fs heap trace] in *.
  assert (heap w' = heap w4 ∧ ∃ ev3, trace w' = trace w4 ++ ev3 ∧
          (sd = true → ∃ den dimf errf, files = Some (den, dimf, errf) ∧
             EvSave dimf ∈ ev3 ∧ EvSave errf ∈ ev3))
    as (Hheap & ev3 & T3 & Hsave).
  { apply when_saving_inv in E3 as [[-> ->]|(-> & [[den a] b] & -> & E3)].
    - split; [done|]. exists []. by rewrite app_nil_r.
    - inv_bind E3 as u1 v1 E4. apply save_volume_inv in E4 as (? & _ & ->).
      apply save_volume_inv in E3 as (? & _ & ->). simpl.
      split; [done|]. exists [EvSave a; EvSave b].
      split; [by rewrite <- app_assoc|].
      intros _. exists den, a, b. repeat (split; [done|]).
      split; elem_solve. }
  assert (trace w' = trace w ++ ev1 ++ ev2 ++
            [EvGet "getLocalDimensionImage" []; EvGet "getNoiseFitImage" []]
            ++ ev3) as Htr.
  { rewrite T3, T2, T1, Tp, Tm. by rewrite <- !app_assoc. }
  apply emitted_app in Htr.
  exists mags, phases, dim, err. rewrite I1, I2, Hheap.
  repeat (split; [done|]).
  split.
  { rewrite !Forall_app. split; [|split].
    - eapply Forall_impl; [exact Fm|]. intros img.
      apply fresh_image_frame.
      eapply heap_frame_trans; [exact Rp|].
      eapply heap_frame_trans; [exact R1|exact R2].
    - eapply Forall_impl; [exact Fp|]. intros img.
      apply fresh_image_frame.
      eapply heap_frame_trans; [exact R1|exact R2].
    - Forall_split; [|done]. by eapply fresh_image_frame. }
  intros Hsd. destruct (Hsave Hsd) as (den & dimf & errf & Hf & Hdim & Herr).
  exists den, dimf, errf. split; [done|]. rewrite Htr. split; [|split].
  - intros k Hk. destruct (decide (k < length il)) as [Hlt|Hge].
    + destruct (Sm Hsd k Hlt) as (den' & ? & ? & p & Hf' & Hp & Hin).
      rewrite Hf in Hf'. injection Hf' as <- <- <-.
      rewrite Nat.add_0_r in Hp. exists p. split; [done|].
      apply elem_of_app. by left.
    + destruct (Sp Hsd (k - length il)) as (den' & ? & ? & p & Hf' & Hp & Hin);
        [lia|].
      rewrite Hf in Hf'. injection Hf' as <- <- <-.
      replace (k - length il + length il) with k in Hp by lia.
      exists p. split; [done|].
      apply elem_of_app. right. apply elem_of_app. by left.
  - rewrite !elem_of_app. right. right. by right.
  - rewrite !elem_of_app. right. right. by right.
Qed.

End collect_lcpca.

(* ===================================================================== *)
(** ** Configuring the native object *)
(* ===================================================================== *)

(** Walk a successful run to its end, keeping every step's equation. *)
Ltac inv_binds H :=
  repeat first
    [ let a := fresh "a" in let w := fresh "w" in let E := fresh "E" in
      apply bind_Val_inv in H as (a & w & E & H)
    | lazymatch type of H with
      | (match ?x with _ => _ end) _ = _ =>
          let D := fresh "D" in destruct x eqn:D
      end ].

(** Turn the equations of the elementary steps into facts. *)
Ltac inv_prims :=
  repeat match goal with
  | E : initVM _ = (Val _, _) |- _ => apply log_inv in E; subst
  | E : jnew _ _ = (Val _, _) |- _ => apply log_inv in E; subst
  | E : jcall _ _ _ = (Val _, _) |- _ => apply log_inv in E; subst
  | E : print _ _ = (Val _, _) |- _ => apply log_inv in E; subst
  | E : log _ _ = (Val _, _) |- _ => apply log_inv in E; subst
  | E : getitem _ _ _ = (Val _, _) |- _ =>
      let Hl := fresh "Hl" in apply getitem_inv in E as [Hl ->]
  | E : ret _ _ = (Val _, _) |- _ => apply ret_inv in E as [-> ->]
  end;
  cbn [fs heap trace] in *.

Section configure.
Context {Num : Numeric} {U : Utils} {J : Native}.
Implicit Types (w : world).

Lemma describes_intro files w inp img w' d0 d1 d2 (first : option input) :
  first = Some inp →
  load_volume inp w = (Val img, w') →
  fs w = files →
  shape (img_data img) = (d0, d1, d2) →
  describes files first (d0, d1, d2, img_affine img, img_header img).
Proof.
  intros Hf E <- D. apply load_volume_inv in E as (Hd & Ha & _).
  exists inp, (img_data img). by repeat split.
Qed.

Lemma flash_configure_inv il te w cfg w' :
  flash_configure il te w = (Val cfg, w') →
  describes (fs w) (il !! 0) cfg.
Proof.
  unfold flash_configure. intros H. inv_binds H. inv_prims.
  by eapply describes_intro.
Qed.

Lemma lcpca_configure_inv il pl ngb cut dmin dmax w cfg w' :
  lcpca_configure il pl ngb cut dmin dmax w = (Val cfg, w') →
  describes (fs w) (il !! 0) cfg.
Proof.
  unfold lcpca_configure. intros H. inv_binds H. inv_prims.
  by eapply describes_intro.
Qed.

Lemma mp2rage_configure_inv fi si it fa itr etr n eff b1 b1map w cfg w' :
  mp2rage_configure fi si it fa itr etr n eff b1 b1map w = (Val cfg, w') →
  describes (fs w) (fi !! 0) cfg.
Proof.
  unfold mp2rage_configure. intros H. inv_binds H. inv_prims.
  by eapply describes_intro.
Qed.

Lemma levelset_configure_inv imgs topo lut w cfg w' :
  levelset_configure imgs topo lut w = (Val cfg, w') →
  describes (fs w) (imgs !! 0) cfg.
Proof.
  unfold levelset_configure. intros H. inv_binds H. inv_prims.
  by eapply describes_intro.
Qed.

End configure.

(* ===================================================================== *)
(** ** Footprints of whole calls *)
(* ===================================================================== *)

Section footprints.
Context {Num : Numeric} {U : Utils} {J : Native}.

Ltac unfold_api :=
  unfold invoke, flash_t2s_fitting, flash_gate, lcpca_gate, mp2rage_gate,
    levelset_gate, flash_compute, flash_configure,
    flash_collect, lcpca_denoising, lcpca_compute, lcpca_run,
    lcpca_configure, lcpca_collect, denoised_loop, denoise_one,
    mp2rage_t1_mapping,
    mp2rage_compute, mp2rage_configure, mp2rage_collect, levelset_fusion,
    levelset_compute, levelset_configure, levelset_collect.

Ltac side_cond :=
  intros; simpl;
  try match goal with e : exn |- _ => destruct e end;
  try done.

Lemma invoke_no_write (c : api_call) :
  save_data (options c) = false →
  emits (λ e, is_write e = false) (invoke c).
Proof.
  destruct c as [il te o|il pl ngb cut dmin dmax o
                |fi si it fa itr etr n eff b1 b1map o|imgs topo lut o];
    destruct o as [sd ov od fn]; simpl; intros ->; unfold_api;
    emits_auto; side_cond.
Qed.

Lemma invoke_no_cache_event (c : api_call) :
  save_data (options c) = false →
  emits (λ e, is_cache_event e = false) (invoke c).
Proof.
  destruct c as [il te o|il pl ngb cut dmin dmax o
                |fi si it fa itr etr n eff b1 b1map o|imgs topo lut o];
    destruct o as [sd ov od fn]; simpl; intros ->; unfold_api;
    emits_auto; side_cond.
Qed.

End footprints.

(* ===================================================================== *)
(** ** The cache gate *)
(* ===================================================================== *)

Section gate.
Context {Num : Numeric} {U : Utils} {J : Native}.
Implicit Types (w : world) (P : event → Prop).

Lemma emits_any_missing P den m :
  (∀ p, P (EvIsFile p)) → emits P (any_missing den m).
Proof.
  intros HP. revert m. induction den as [|p den IH]; intros m; simpl.
  - apply emits_ret.
  - apply emits_bind; [by apply emits_isfile|]. intros b. apply IH.
Qed.

Lemma emits_load_all P den acc :
  (∀ p, P (EvLoad p)) → emits P (load_all den acc).
Proof.
  intros HP. revert acc.
  induction den as [|p den IH]; intros acc; cbn [load_all].
  - apply emits_ret.
  - apply emits_bind; [apply emits_load_volume; auto|]. intros b. apply IH.
Qed.

Ltac gate_auto :=
  unfold flash_gate, flash_files, flash_cached, lcpca_gate, lcpca_files,
    den_names, lcpca_cached, mp2rage_gate, mp2rage_files, mp2rage_cached,
    levelset_gate, levelset_files, levelset_cached;
  unfold print, initVM, jnew, jcall, output_dir_4saving, fname_4saving,
    check_topology_lut_dir;
  repeat first
    [ apply emits_any_missing; intros
    | apply emits_load_all; intros
    | emits_step ];
  try done.

Lemma flash_gate_quiet il sd ov od fn :
  emits (λ e, is_gate_event e = true) (flash_gate il sd ov od fn).
Proof. gate_auto. Qed.

Lemma lcpca_gate_quiet il pl sd ov od fn :
  emits (λ e, is_gate_event e = true) (lcpca_gate il pl sd ov od fn).
Proof. gate_auto. Qed.

Lemma mp2rage_gate_quiet fi sd ov od fn :
  emits (λ e, is_gate_event e = true) (mp2rage_gate fi sd ov od fn).
Proof. gate_auto. Qed.

Lemma levelset_gate_quiet imgs sd ov od fn :
  emits (λ e, is_gate_event e = true) (levelset_gate imgs sd ov od fn).
Proof. gate_auto. Qed.

Lemma flash_cached_quiet ov files :
  emits (λ e, is_gate_event e = true) (flash_cached ov files).
Proof. gate_auto. Qed.

Lemma lcpca_cached_quiet ov files :
  emits (λ e, is_gate_event e = true) (lcpca_cached ov files).
Proof. gate_auto. Qed.

Lemma mp2rage_cached_quiet ov files :
  emits (λ e, is_gate_event e = true) (mp2rage_cached ov files).
Proof. gate_auto. Qed.

Lemma levelset_cached_quiet ov files :
  emits (λ e, is_gate_event e = true) (levelset_cached ov files).
Proof. gate_auto. Qed.

Lemma gate_event_not_native (e : event) :
  is_gate_event e = true → is_native e = false.
Proof. by destruct e. Qed.

Lemma gate_event_not_save (p : string) : ¬ is_gate_event (EvSave p) = true.
Proof. done. Qed.

(** A gate step leaves the files alone and stays off the bridge. *)
Lemma gate_step w w' :
  step_ok (λ e, is_gate_event e = true) w w' →
  fs w' = fs w ∧ ∃ evs, trace w' = trace w ++ evs ∧
    Forall (λ e, is_native e = false) evs.
Proof.
  intros (evs & T & F & S). split; [apply S, gate_event_not_save|].
  exists evs. split; [done|].
  eapply Forall_impl; [exact F|]. apply gate_event_not_native.
Qed.

End gate.

(* ===================================================================== *)
(** ** Successful computed runs *)
(* ===================================================================== *)

Ltac trace_auto :=
  unfold flash_configure, lcpca_configure, mp2rage_configure,
    levelset_configure, flash_collect, lcpca_collect, mp2rage_collect,
    levelset_collect, denoised_loop, denoise_one, lcpca_run;
  emits_auto;
  try solve [intros; simpl; try match goal with e : exn |- _ => destruct e end;
             done].

Section runs.
Context {Num : Numeric} {U : Utils} {J : Native}.
Implicit Types (w : world).

(** A call that ended in the cache never touched the bridge. *)
Lemma hit_not_executed w w0 w1 :
  (∃ evs, trace w0 = trace w ++ evs ∧ Forall (λ e, is_native e = false) evs) →
  step_ok (λ e, is_gate_event e = true) w0 w1 →
  (∃ e, is_native e = true ∧ e ∈ emitted w w1) → False.
Proof.
  intros (ev0 & T0 & F0) Hg (e & He & Hex).
  apply gate_step in Hg as (_ & ev1 & T1 & F1).
  rewrite (emitted_app w w1 (ev0 ++ ev1)) in Hex
    by (by rewrite T1, T0, app_assoc).
  apply elem_of_app in Hex as [Hex|Hex].
  - rewrite Forall_forall in F0. specialize (F0 _ Hex). congruence.
  - rewrite Forall_forall in F1. specialize (F1 _ Hex). congruence.
Qed.

Lemma step_ok_trace P w w' :
  step_ok P w w' → ∃ evs, trace w' = trace w ++ evs.
Proof. intros (evs & T & _). eauto. Qed.

Lemma emitted_suffix w w2 w' pre (e : event) :
  trace w2 = trace w ++ pre → e ∈ emitted w2 w' →
  (∃ evs, trace w' = trace w2 ++ evs) → e ∈ emitted w w'.
Proof.
  intros T He (evs & T').
  rewrite (emitted_app w2 w' evs) in He by done.
  rewrite (emitted_app w w' (pre ++ evs)) by (by rewrite T', T, app_assoc).
  apply elem_of_app. by right.
Qed.


Lemma flash_configure_trace il te :
  emits (λ _, True) (flash_configure il te).
Proof. trace_auto. Qed.

Lemma lcpca_configure_trace il pl ngb cut dmin dmax :
  emits (λ _, True) (lcpca_configure il pl ngb cut dmin dmax).
Proof. trace_auto. Qed.

Lemma mp2rage_configure_trace fi si it fa itr etr n eff b1 b1map :
  emits (λ _, True) (mp2rage_configure fi si it fa itr etr n eff b1 b1map).
Proof. trace_auto. Qed.

Lemma levelset_configure_trace imgs topo lut :
  emits (λ _, True) (levelset_configure imgs topo lut).
Proof. trace_auto. Qed.

Lemma flash_collect_trace (r : string → list jarg → list jfloat)
    dims aff hdr sd files :
  emits (λ _, True) (flash_collect r dims aff hdr sd files).
Proof. trace_auto. Qed.

Lemma lcpca_collect_trace (r : string → list jarg → list jfloat)
    il pl dims aff hdr sd files :
  emits (λ _, True) (lcpca_collect r il pl dims aff hdr sd files).
Proof. trace_auto. Qed.

Lemma mp2rage_collect_trace (r : string → list jarg → list jfloat)
    dims aff hdr sd files :
  emits (λ _, True) (mp2rage_collect r dims aff hdr sd files).
Proof. trace_auto. Qed.

Lemma levelset_collect_trace (r : string → list jarg → list jfloat)
    dims aff hdr sd files :
  emits (λ _, True) (levelset_collect r dims aff hdr sd files).
Proof. trace_auto. Qed.

Lemma flash_cached_miss ov files w fo w' :
  flash_cached ov files w = (Val (Miss fo), w') → fo = Some files.
Proof.
  destruct files as [[[a b] c] d]. unfold flash_cached. intros H.
  inv_bind H as hit w1 E. destruct hit.
  - inv_binds H. by apply ret_inv in H as [? _].
  - by apply ret_inv in H as [[= <-] _].
Qed.

Lemma mp2rage_cached_miss ov files w fo w' :
  mp2rage_cached ov files w = (Val (Miss fo), w') → fo = Some files.
Proof.
  destruct files as [[a b] c]. unfold mp2rage_cached. intros H.
  inv_bind H as hit w1 E. destruct hit.
  - inv_binds H. by apply ret_inv in H as [? _].
  - by apply ret_inv in H as [[= <-] _].
Qed.

Lemma levelset_cached_miss ov files w fo w' :
  levelset_cached ov files w = (Val (Miss fo), w') → fo = Some files.
Proof.
  unfold levelset_cached. intros H.
  inv_bind H as hit w1 E. destruct hit.
  - inv_binds H. by apply ret_inv in H as [? _].
  - by apply ret_inv in H as [[= <-] _].
Qed.

Lemma lcpca_cached_miss ov files w fo w' :
  lcpca_cached ov files w = (Val (Miss fo), w') → fo = Some files.
Proof.
  destruct files as [[den a] b]. unfold lcpca_cached. intros H.
  inv_bind H as hit w1 E. destruct hit.
  - inv_bind H as missing w2 E2. destruct missing; simpl in H.
    + by apply ret_inv in H as [[= <-] _].
    + inv_binds H. by apply ret_inv in H as [? _].
  - by apply ret_inv in H as [[= <-] _].
Qed.

Lemma extends_refl w : extends w w.
Proof. exists []. by rewrite app_nil_r. Qed.

Lemma extends_trans w1 w2 w3 : extends w1 w2 → extends w2 w3 → extends w1 w3.
Proof.
  intros [e1 T1] [e2 T2]. exists (e1 ++ e2). by rewrite T2, T1, app_assoc.
Qed.

Lemma emits_extends {A} P (m : M A) w r w' :
  emits P m → m w = (r, w') → extends w w'.
Proof. intros Hm E. by eapply step_ok_trace, emits_run. Qed.

Lemma extends_log w e : extends w (World (fs w) (heap w) (trace w ++ [e])).
Proof. by exists [e]. Qed.

Lemma emitted_extends w w2 w' (e : event) :
  extends w w2 → extends w2 w' → e ∈ emitted w2 w' → e ∈ emitted w w'.
Proof. intros [pre T] Hx He. by eapply emitted_suffix. Qed.

Lemma flash_decompose il te sd ov od fn w out w' :
  flash_t2s_fitting il te sd ov od fn w = (Val (Some out), w') →
  (∃ e, is_native e = true ∧ e ∈ emitted w w') →
  computed w (il !! 0) out w' ∧
  (sd = true → ∀ files wf,
     flash_files il od fn
       (World (fs w) (heap w) (trace w ++ [EvPrint (nl +:+ "T2* Fitting")]))
       = (Val files, wf) →
     Forall (λ p, EvSave p ∈ emitted w w') (flash_file_list files)).
Proof.
  unfold flash_t2s_fitting. intros H Hex.
  inv_bind H as u w0 E0. apply log_inv in E0. subst w0.
  inv_bind H as g w1 Eg.
  pose proof (emits_run _ _ _ _ _ (flash_gate_quiet il sd ov od fn) Eg) as Hg.
  destruct g as [o|fo].
  { apply ret_inv in H as [[= ->] ->]. exfalso.
    eapply hit_not_executed; [|exact Hg|exact Hex]. simpl. eauto. }
  pose proof (step_ok_trace _ _ _ Hg) as X1.
  apply gate_step in Hg as [Hfs _]. simpl in Hfs.
  unfold flash_compute in H.
  inv_bind H as cfg w2 Ec. destruct cfg as [[dims aff] hdr].
  inv_bind H as r w3 Ex.
  pose proof (emits_extends _ _ _ _ _ (flash_configure_trace il te) Ec) as X2.
  pose proof (emits_extends _ _ _ _ _
                (flash_collect_trace r dims aff hdr sd fo) H) as X4.
  apply flash_configure_inv in Ec. rewrite Hfs in Ec.
  apply execute_guarded_inv in Ex as [Hr ->].
  apply flash_collect_inv in H
    as (t2s & r2s & s0 & err & -> & _ & _ & _ & _ & HF & HS).
  split.
  { exists (dims, aff, hdr), r. eauto. }
  intros -> files wf Ef. unfold flash_gate in Eg.
  inv_bind Eg as files' wf' Ef'. rewrite Ef in Ef'. injection Ef' as <- <-.
  apply flash_cached_miss in Eg as ->.
  destruct HS as (a & b & c & d & [= ->] & HS); [done|].
  eapply Forall_impl; [exact HS|]. intros p. simpl.
  apply emitted_extends; [|done].
  eapply extends_trans; [apply extends_log|].
  eapply extends_trans; [exact X1|].
  eapply extends_trans; [exact X2|]. apply extends_log.
Qed.

Lemma mp2rage_decompose fi si it fa itr etr n eff b1 b1map sd ov od fn
    w out w' :
  mp2rage_t1_mapping fi si it fa itr etr n eff b1 b1map sd ov od fn w
    = (Val (Some out), w') →
  (∃ e, is_native e = true ∧ e ∈ emitted w w') →
  computed w (fi !! 0) out w' ∧
  (sd = true → ∀ files wf,
     mp2rage_files fi od fn
       (World (fs w) (heap w) (trace w ++ [EvPrint (nl +:+ "T1 Mapping")]))
       = (Val files, wf) →
     Forall (λ p, EvSave p ∈ emitted w w') (mp2rage_file_list files)).
Proof.
  unfold mp2rage_t1_mapping. intros H Hex.
  inv_bind H as u w0 E0. apply log_inv in E0. subst w0.
  inv_bind H as g w1 Eg.
  pose proof (emits_run _ _ _ _ _ (mp2rage_gate_quiet fi sd ov od fn) Eg)
    as Hg.
  destruct g as [o|fo].
  { apply ret_inv in H as [[= ->] ->]. exfalso.
    eapply hit_not_executed; [|exact Hg|exact Hex]. simpl. eauto. }
  pose proof (step_ok_trace _ _ _ Hg) as X1.
  apply gate_step in Hg as [Hfs _]. simpl in Hfs.
  unfold mp2rage_compute in H.
  inv_bind H as cfg w2 Ec. destruct cfg as [[dims aff] hdr].
  inv_bind H as r w3 Ex.
  pose proof (emits_extends _ _ _ _ _
    (mp2rage_configure_trace fi si it fa itr etr n eff b1 b1map) Ec) as X2.
  pose proof (emits_extends _ _ _ _ _
                (mp2rage_collect_trace r dims aff hdr sd fo) H) as X4.
  apply mp2rage_configure_inv in Ec. rewrite Hfs in Ec.
  apply execute_guarded_inv in Ex as [Hr ->].
  apply mp2rage_collect_inv in H
    as (t1 & r1 & uni & -> & _ & _ & _ & HF & HS).
  split.
  { exists (dims, aff, hdr), r. eauto. }
  intros -> files wf Ef. unfold mp2rage_gate in Eg.
  inv_bind Eg as files' wf' Ef'. rewrite Ef in Ef'. injection Ef' as <- <-.
  apply mp2rage_cached_miss in Eg as ->.
  destruct HS as (a & b & c & [= ->] & HS); [done|].
  eapply Forall_impl; [exact HS|]. intros p. simpl.
  apply emitted_extends; [|done].
  eapply extends_trans; [apply extends_log|].
  eapply extends_trans; [exact X1|].
  eapply extends_trans; [exact X2|]. apply extends_log.
Qed.

Lemma levelset_decompose imgs topo lut sd ov od fn w out w' :
  levelset_fusion imgs topo lut sd ov od fn w = (Val (Some out), w') →
  (∃ e, is_native e = true ∧ e ∈ emitted w w') →
  computed w (imgs !! 0) out w' ∧
  (sd = true → ∀ f wf,
     levelset_files imgs od fn
       (World (fs w) (heap w)
          (trace w ++ [EvPrint (nl +:+ "Levelset Shape Fusion")]))
       = (Val f, wf) →
     Forall (λ p, EvSave p ∈ emitted w w') [f]).
Proof.
  unfold levelset_fusion. intros H Hex.
  inv_bind H as u w0 E0. apply log_inv in E0. subst w0.
  inv_bind H as dir w0 Ed. apply lift_sum_inv in Ed as [Hdir ->].
  inv_bind H as g w1 Eg.
  pose proof (emits_run _ _ _ _ _ (levelset_gate_quiet imgs sd ov od fn) Eg)
    as Hg.
  destruct g as [o|fo].
  { apply ret_inv in H as [[= ->] ->]. exfalso.
    eapply hit_not_executed; [|exact Hg|exact Hex]. simpl. eauto. }
  pose proof (step_ok_trace _ _ _ Hg) as X1.
  apply gate_step in Hg as [Hfs _]. simpl in Hfs.
  unfold levelset_compute in H.
  inv_bind H as cfg w2 Ec. destruct cfg as [[dims aff] hdr].
  inv_bind H as r w3 Ex.
  pose proof (emits_extends _ _ _ _ _
    (levelset_configure_trace imgs topo dir) Ec) as X2.
  pose proof (emits_extends _ _ _ _ _
                (levelset_collect_trace r dims aff hdr sd fo) H) as X4.
  apply levelset_configure_inv in Ec. rewrite Hfs in Ec.
  apply execute_guarded_inv in Ex as [Hr ->].
  apply levelset_collect_inv in H as (levelset & -> & _ & HF & HS).
  split.
  { exists (dims, aff, hdr), r. eauto. }
  intros -> f wf Ef. unfold levelset_gate in Eg.
  inv_bind Eg as files' wf' Ef'. rewrite Ef in Ef'. injection Ef' as <- <-.
  apply levelset_cached_miss in Eg as ->.
  destruct HS as (a & [= ->] & HS); [done|].
  eapply Forall_impl; [exact HS|]. intros p. simpl.
  apply emitted_extends; [|done].
  eapply extends_trans; [apply extends_log|].
  eapply extends_trans; [exact X1|].
  eapply extends_trans; [exact X2|]. apply extends_log.
Qed.

Lemma den_names_from_length od fn images i acc w out w' :
  fold_enumerate_from i images acc
    (λ idx image den_files,
       bind (fname_4saving fn image "lcpca-den")
         (λ n, ret (den_files ++ [os_path_join od n]))) w = (Val out, w') →
  length out = length acc + length images.
Proof.
  revert i acc w. induction images as [|x images IH]; intros i acc w H.
  - apply ret_inv in H as [-> _]. simpl. lia.
  - simpl in H. inv_bind H as acc1 w1 E.
    inv_bind E as n w2 E1. apply ret_inv in E as [-> _].
    apply IH in H. rewrite length_app in H. simpl in *. lia.
Qed.

Lemma lcpca_files_length il pl od fn w den a b w' :
  lcpca_files il pl od fn w = (Val (den, a, b), w') →
  length den = length il + length (default [] pl).
Proof.
  unfold lcpca_files, den_names, fold_enumerate. intros H.
  inv_bind H as root w1 E1. inv_bind H as dir w2 E2.
  inv_bind H as den1 w3 E3. apply den_names_from_length in E3.
  inv_bind H as den2 w4 E4.
  assert (length den2 = length den1 + length (default [] pl)) as Hl.
  { destruct pl as [pl|]; simpl.
    - by apply den_names_from_length in E4.
    - apply ret_inv in E4 as [-> _]. lia. }
  inv_binds H. apply ret_inv in H as [[= <- _ _] _].
  simpl in E3. lia.
Qed.

Lemma lcpca_decompose il pl ngb cut dmin dmax sd ov od fn w out w' :
  lcpca_denoising il pl ngb cut dmin dmax sd ov od fn w
    = (Val (Some out), w') →
  (∃ e, is_native e = true ∧ e ∈ emitted w w') →
  ∃ dims aff hdr (r : string → list jarg → list jfloat) mags phases dim err,
    describes (fs w) (il !! 0) (dims, aff, hdr) ∧
    (∃ tr, jvm_execute tr = inr r) ∧
    out = [("denoised", VList (mags ++ phases)); ("dimensions", VImg dim);
           ("residuals", VImg err)] ∧
    length mags = length il ∧
    length phases = length (default [] pl) ∧
    (∀ l, pl = Some l → length l = length il) ∧
    (∀ i img, mags !! i = Some img →
       reshape_F (np_float32 <$>
                    r "getDenoisedMagnitudeImageAt" [JInt (Z.of_nat i)]) dims
         = Some (img_data img)) ∧
    (∀ j img, phases !! j = Some img →
       reshape_F (np_float32 <$>
                    r "getDenoisedPhaseImageAt" [JInt (Z.of_nat j)]) dims
         = Some (img_data img)) ∧
    Forall (fresh_image r dims aff hdr (heap w'))
      (mags ++ phases ++ [dim; err]) ∧
    (sd = true → ∀ files wf,
       lcpca_files il pl od fn
         (World (fs w) (heap w)
            (trace w ++ [EvPrint (nl +:+ "LCPCA denoising")]))
         = (Val files, wf) →
       Forall (λ p, EvSave p ∈ emitted w w') (lcpca_file_list files)).
Proof.
  unfold lcpca_denoising. intros H Hex.
  inv_bind H as u w0 E0. apply log_inv in E0. subst w0.
  inv_bind H as g w1 Eg.
  pose proof (emits_run _ _ _ _ _ (lcpca_gate_quiet il pl sd ov od fn) Eg)
    as Hg.
  destruct g as [o|fo].
  { apply ret_inv in H as [[= ->] ->]. exfalso.
    eapply hit_not_executed; [|exact Hg|exact Hex]. simpl. eauto. }
  pose proof (step_ok_trace _ _ _ Hg) as X1.
  apply gate_step in Hg as [Hfs _]. simpl in Hfs.
  unfold lcpca_compute in H.
  inv_bind H as u1 v1 E1. apply log_inv in E1. subst v1.
  inv_bind H as u2 v2 E2. apply log_inv in E2. subst v2.
  inv_bind H as u3 v3 E3. apply log_inv in E3. subst v3.
  cbn [fs heap trace] in H.
  assert (lcpca_run il pl ngb cut dmin dmax sd fo
            (World (fs w1) (heap w1)
               (((trace w1 ++ [EvInitVM]) ++
                 [EvNew "IntensityComplexPCADenoising"]) ++
                [EvCall "setImageNumber" [JInt (Z.of_nat (length il))]]))
          = (Val (Some out), w') ∧
          ∀ l, pl = Some l → length l = length il) as [Hrun Hlen].
  { destruct pl as [l|]; [|by split].
    case_bool_decide as Hne.
    - inv_bind H as u4 v4 E4. by apply ret_inv in H as [? _].
    - split; [done|]. intros ? [= <-].
      destruct (decide (length l = length il)); [done|]. by destruct Hne. }
  clear H. unfold lcpca_run in Hrun.
  inv_bind Hrun as cfg w2 Ec. destruct cfg as [[dims aff] hdr].
  inv_bind Hrun as r w3 Ex.
  pose proof (emits_extends _ _ _ _ _
    (lcpca_configure_trace il pl ngb cut dmin dmax) Ec) as X2.
  pose proof (emits_extends _ _ _ _ _
    (lcpca_collect_trace r il pl dims aff hdr sd fo) Hrun) as X4.
  apply lcpca_configure_inv in Ec. cbn [fs] in Ec. rewrite Hfs in Ec.
  apply execute_guarded_inv in Ex as [Hr ->].
  apply lcpca_collect_inv in Hrun
    as (mags & phases & dim & err & -> & Lm & Lp & Dm & Dp & _ & _ & HF & HS).
  exists dims, aff, hdr, r, mags, phases, dim, err.
  split; [done|]. split; [eauto|]. repeat (split; [done|]).
  intros -> [[den dimf] errf] wf Ef. unfold lcpca_gate in Eg.
  inv_bind Eg as files' wf' Ef'. rewrite Ef in Ef'. injection Ef' as <- <-.
  apply lcpca_cached_miss in Eg as ->.
  apply lcpca_files_length in Ef.
  destruct HS as (den' & a & b & [= <- <- <-] & Hden & Hdim & Herr); [done|].
  assert (∀ e, e ∈ emitted
                 (World (fs w2) (heap w2) (trace w2 ++ [EvExecute])) w' →
               e ∈ emitted w w')
    as Hup; [|clear X4].
  { intros e. apply emitted_extends; [|done].
    eapply extends_trans; [apply extends_log|].
    eapply extends_trans; [exact X1|].
    eapply extends_trans; [|apply extends_log].
    eapply extends_trans; [|exact X2].
    exists [EvInitVM; EvNew "IntensityComplexPCADenoising";
            EvCall "setImageNumber" [JInt (Z.of_nat (length il))]].
    simpl. by rewrite <- !app_assoc. }
  unfold lcpca_file_list. apply Forall_app. split.
  - apply Forall_forall. intros p Hp.
    apply list_elem_of_lookup_1 in Hp as [k Hk].
    destruct (Hden k) as (p' & Hk' & Hin).
    { apply lookup_lt_Some in Hk. lia. }
    rewrite Hk in Hk'. injection Hk' as <-. by apply Hup.
  - Forall_split; by apply Hup.
Qed.

End runs.

(* ===================================================================== *)
(** ** Results of a computed call *)
(* ===================================================================== *)

Section results.
Context {Num : Numeric} {U : Utils} {J : Native}.
Implicit Types (w : world).

Lemma invoke_computed (c : api_call) w out w' :
  invoke c w = (Val (Some out), w') →
  (∃ e, is_native e = true ∧ e ∈ emitted w w') →
  computed w (first_input c) out w' ∧
  (save_data (options c) = true → ∀ ps w1,
     bind (banner c) (λ _, output_files c) w = (Val ps, w1) →
     Forall (λ p, EvSave p ∈ emitted w w') ps).
Proof.
  destruct c as [il te o|il pl ngb cut dmin dmax o
                |fi si it fa itr etr n eff b1 b1map o|imgs topo lut o];
    destruct o as [sd ov od fn]; simpl; intros H Hex.
  - destruct (flash_decompose _ _ _ _ _ _ _ _ _ H Hex) as [HC HS].
    split; [done|]. intros Hsd ps w1 Hps.
    inv_bind Hps as u w0 E0. apply log_inv in E0. subst w0.
    inv_bind Hps as files wf Ef. apply ret_inv in Hps as [-> _]. eauto.
  - destruct (lcpca_decompose _ _ _ _ _ _ _ _ _ _ _ _ _ H Hex)
      as (dims & aff & hdr & r & mags & phases & dim & err & HD & Hr & ->
          & _ & _ & _ & _ & _ & HF & HS).
    split.
    + exists (dims, aff, hdr), r. repeat (split; [done|]).
      unfold images_of. simpl. by rewrite <- app_assoc.
    + intros Hsd ps w1 Hps.
      inv_bind Hps as u w0 E0. apply log_inv in E0. subst w0.
      inv_bind Hps as files wf Ef. apply ret_inv in Hps as [-> _]. eauto.
  - destruct (mp2rage_decompose _ _ _ _ _ _ _ _ _ _ _ _ _ _ _ _ _ H Hex)
      as [HC HS].
    split; [done|]. intros Hsd ps w1 Hps.
    inv_bind Hps as u w0 E0. apply log_inv in E0. subst w0.
    inv_bind Hps as files wf Ef. apply ret_inv in Hps as [-> _]. eauto.
  - destruct (levelset_decompose _ _ _ _ _ _ _ _ _ _ H Hex) as [HC HS].
    split; [done|]. intros Hsd ps w1 Hps.
    inv_bind Hps as u w0 E0. inv_bind E0 as u1 v1 E1.
    apply log_inv in E1. subst v1.
    inv_bind E0 as d v2 E2. apply lift_sum_inv in E2 as [_ ->].
    apply ret_inv in E0 as [_ ->].
    inv_bind Hps as files wf Ef. apply ret_inv in Hps as [-> _]. eauto.
Qed.

(** C5. After a computed (non-cached) call that succeeded, every array in
    the result has exactly the dimensions (X, Y, Z) of the first input
    volume and is the native result reshaped in column-major order:
    element (x, y, z) is entry x + X * (y + Y * z) of the flat native
    array, the convention [flatten('F')] used for the inputs, so that
    flattening the output again gives the native array back. *)
Theorem outputs_reshaped_column_major (c : api_call) w out w' :
  invoke c w = (Val (Some out), w') →
  EvExecute ∈ emitted w w' →
  ∃ inp d X Y Z (r : string → list jarg → list jfloat),
    first_input c = Some inp ∧
    input_data (fs w) inp = Some d ∧
    shape d = (X, Y, Z) ∧
    (∃ tr, jvm_execute tr = inr r) ∧
    Forall (λ img,
      shape (img_data img) = (X, Y, Z) ∧
      ∃ meth args,
        reshape_F (np_float32 <$> r meth args) (X, Y, Z)
          = Some (img_data img) ∧
        flatten_F (img_data img) = np_float32 <$> r meth args ∧
        ∀ x y z, x < X → y < Y → z < Z →
          getitem3 (img_data img) x y z
            = (np_float32 <$> r meth args) !! (x + X * (y + Y * z)))
      (images_of out).
Proof.
  intros H Hex.
  destruct (invoke_computed c w out w' H) as [HC _]; [by exists EvExecute|].
  destruct HC as ([[[[X Y] Z] aff] hdr] & r & HD & Hr & HF).
  destruct HD as (inp & d & Hfirst & Hd & Hs & Ha). simpl in *.
  exists inp, d, X, Y, Z, r. repeat (split; [done|]).
  eapply Forall_impl; [exact HF|]. intros img ((meth & args & Hre) & _).
  destruct (reshape_F_Some _ _ _ Hre) as (_ & Hshape & _ & Hget).
  split; [done|]. exists meth, args. split; [done|].
  split; [by eapply flatten_reshape_F|].
  intros x y z Hx Hy Hz. by rewrite Hget.
Qed.

(** C6. After a computed (non-cached) call that succeeded, every image in
    the result carries the affine of the first input image, and its own
    header object holds as cal_min / cal_max the nanmin / nanmax of that
    image's own array. *)
Theorem outputs_carry_affine_and_own_range (c : api_call) w out w' :
  invoke c w = (Val (Some out), w') →
  EvExecute ∈ emitted w w' →
  ∃ inp aff,
    first_input c = Some inp ∧
    input_affine (fs w) inp = Some aff ∧
    Forall (λ img,
      img_affine img = aff ∧
      ∃ h, heap w' !! img_header img = Some h ∧
           reduce np_fmin (elems (img_data img)) = Some (cal_min h) ∧
           reduce np_fmax (elems (img_data img)) = Some (cal_max h))
      (images_of out).
Proof.
  intros H Hex.
  destruct (invoke_computed c w out w' H) as [HC _]; [by exists EvExecute|].
  destruct HC as ([[dims aff] hdr] & r & HD & Hr & HF).
  destruct HD as (inp & d & Hfirst & Hd & Hs & Ha). simpl in *.
  exists inp, aff. repeat (split; [done|]).
  eapply Forall_impl; [exact HF|]. by intros img (_ & Haff & Hcal & _).
Qed.

(** C10. After a computed call of [lcpca_denoising] with a phase list
    that succeeded, the value under 'denoised' is a list of
    len(image_list) + len(phase_list) images: first the denoised
    magnitude images in the order of image_list, then the denoised phase
    images in the order of phase_list. *)
Theorem lcpca_denoised_magnitudes_then_phases
    il pl ngb cut dmin dmax sd ov od fn w out w' :
  lcpca_denoising il (Some pl) ngb cut dmin dmax sd ov od fn w
    = (Val (Some out), w') →
  EvExecute ∈ emitted w w' →
  ∃ dims (r : string → list jarg → list jfloat) denoised dim err,
    (∃ tr, jvm_execute tr = inr r) ∧
    out = [("denoised", VList denoised); ("dimensions", VImg dim);
           ("residuals", VImg err)] ∧
    length pl = length il ∧
    length denoised = length il + length pl ∧
    (∀ i, i < length il → ∃ img,
       denoised !! i = Some img ∧
       reshape_F (np_float32 <$>
                    r "getDenoisedMagnitudeImageAt" [JInt (Z.of_nat i)]) dims
         = Some (img_data img)) ∧
    (∀ j, j < length pl → ∃ img,
       denoised !! (length il + j) = Some img ∧
       reshape_F (np_float32 <$>
                    r "getDenoisedPhaseImageAt" [JInt (Z.of_nat j)]) dims
         = Some (img_data img)).
Proof.
  intros H Hex.
  destruct (lcpca_decompose _ _ _ _ _ _ _ _ _ _ _ _ _ H)
    as (dims & aff & hdr & r & mags & phases & dim & err & HD & Hr & ->
        & Lm & Lp & Hlen & Dm & Dp & HF & HS); [by exists EvExecute|].
  simpl in Lp. specialize (Hlen pl eq_refl).
  exists dims, r, (mags ++ phases), dim, err.
  repeat (split; [done|]).
  split; [rewrite length_app; lia|]. split.
  - intros i Hi. destruct (lookup_lt_is_Some_2 mags i) as [img Him]; [lia|].
    exists img. split; [|by apply Dm].
    by rewrite lookup_app_l by lia.
  - intros j Hj. destruct (lookup_lt_is_Some_2 phases j) as [img Him]; [lia|].
    exists img. split; [|by apply Dp].
    rewrite lookup_app_r by lia. rewrite <- Him. f_equal. lia.
Qed.

End results.

(* ===================================================================== *)
(** ** Hitting and missing the cache *)
(* ===================================================================== *)

Section cache.
Context {Num : Numeric} {U : Utils} {J : Native}.
Implicit Types (w : world).

Lemma bind_log {A} e (k : unit → M A) w :
  bind (log e) k w = k () (World (fs w) (heap w) (trace w ++ [e])).
Proof. reflexivity. Qed.

Lemma lookup_app_plus {A} (l1 l2 : list A) k :
  (l1 ++ l2) !! (length l1 + k) = l2 !! k.
Proof. rewrite lookup_app_r by lia. f_equal. lia. Qed.

Lemma view_at hp img s :
  hp !! img_header img = Some (st_header s) →
  img_data img = st_data s → img_affine img = st_affine s →
  view hp img = Some s.
Proof. unfold view. intros -> -> ->. by destruct s. Qed.

Lemma view_prefix hp hp' img s :
  hp `prefix_of` hp' → view hp img = Some s → view hp' img = Some s.
Proof.
  intros [ext ->]. unfold view.
  destruct (hp !! img_header img) as [h|] eqn:Hh; [|done].
  by rewrite (lookup_app_l_Some _ _ _ _ Hh).
Qed.

Lemma load_file_hit p s w :
  fs w !! p = Some s →
  load_volume (FromFile p) w =
    (Val (Niimg (st_data s) (st_affine s) (length (heap w))),
     World (fs w) (heap w ++ [st_header s]) (trace w ++ [EvLoad p])).
Proof. intros E. simpl. by rewrite E. Qed.

Lemma isfile_true p w :
  is_Some (fs w !! p) →
  isfile p w = (Val true, World (fs w) (heap w) (trace w ++ [EvIsFile p])).
Proof. intros E. unfold isfile. by rewrite bool_decide_eq_true_2. Qed.

Lemma isfile_false p w :
  fs w !! p = None →
  isfile p w = (Val false, World (fs w) (heap w) (trace w ++ [EvIsFile p])).
Proof.
  intros E. unfold isfile. rewrite bool_decide_eq_false_2; [done|].
  rewrite E. by intros [? ?].
Qed.

End cache.

(** Header lookups in a heap written as [hp ++ [h1; ...; hn]]. *)
Ltac solve_view :=
  apply view_at; [|done|done];
  cbn [img_header]; rewrite <- ?app_assoc; cbn [app];
  rewrite ?length_app; cbn [length];
  first [ rewrite <- (Nat.add_0_r (length _)) at 1; rewrite lookup_app_plus
        | rewrite <- ?Nat.add_assoc; cbn [Nat.add]; rewrite lookup_app_plus ];
  reflexivity.

Section cache_hits.
Context {Num : Numeric} {U : Utils} {J : Native}.
Implicit Types (w : world).

Lemma flash_cached_hit files w :
  Forall (λ p, is_Some (fs w !! p)) (flash_file_list files) →
  ∃ out w',
    flash_cached false files w = (Val (Hit out), w') ∧
    Forall2 (λ img p, view (heap w') img = fs w !! p)
      (images_of out) (flash_file_list files).
Proof.
  destruct files as [[[a b] c] d]. simpl. intros HF.
  apply Forall_cons in HF as [[sa Ha] HF].
  apply Forall_cons in HF as [[sb Hb] HF].
  apply Forall_cons in HF as [[sc Hc] HF].
  apply Forall_cons in HF as [[sd Hd] _].
  unfold flash_cached, and_then, isfile, bind, ret, print, log. simpl.
  rewrite Ha; simpl. rewrite Hb; simpl. rewrite Hc; simpl. rewrite Hd; simpl.
  rewrite Ha; simpl. rewrite Hb; simpl. rewrite Hc; simpl. rewrite Hd; simpl.
  eexists _, _. split; [reflexivity|]. unfold images_of. simpl.
  repeat (apply Forall2_cons_2;
            [cbv beta; rewrite ?Ha, ?Hb, ?Hc, ?Hd; solve_view|]).
  apply Forall2_nil_2.
Qed.

End cache_hits.

Ltac files_auto :=
  unfold flash_files, lcpca_files, den_names, mp2rage_files, levelset_files;
  emits_auto.

Section cache_more.
Context {Num : Numeric} {U : Utils} {J : Native}.
Implicit Types (w : world).

Lemma mp2rage_cached_hit files w :
  Forall (λ p, is_Some (fs w !! p)) (mp2rage_file_list files) →
  ∃ out w',
    mp2rage_cached false files w = (Val (Hit out), w') ∧
    Forall2 (λ img p, view (heap w') img = fs w !! p)
      (images_of out) (mp2rage_file_list files).
Proof.
  destruct files as [[a b] c]. simpl. intros HF.
  apply Forall_cons in HF as [[sa Ha] HF].
  apply Forall_cons in HF as [[sb Hb] HF].
  apply Forall_cons in HF as [[sc Hc] _].
  unfold mp2rage_cached, and_then, isfile, bind, ret, print, log. simpl.
  rewrite Ha; simpl. rewrite Hb; simpl. rewrite Hc; simpl.
  rewrite Ha; simpl. rewrite Hb; simpl. rewrite Hc; simpl.
  eexists _, _. split; [reflexivity|]. unfold images_of. simpl.
  repeat (apply Forall2_cons_2;
            [cbv beta; rewrite ?Ha, ?Hb, ?Hc; solve_view|]).
  apply Forall2_nil_2.
Qed.

Lemma levelset_cached_hit f w :
  Forall (λ p, is_Some (fs w !! p)) [f] →
  ∃ out w',
    levelset_cached false f w = (Val (Hit out), w') ∧
    Forall2 (λ img p, view (heap w') img = fs w !! p) (images_of out) [f].
Proof.
  intros HF. apply Forall_cons in HF as [[sa Ha] _].
  unfold levelset_cached, and_then, isfile, bind, ret, print, log. simpl.
  rewrite Ha; simpl. rewrite Ha; simpl.
  eexists _, _. split; [reflexivity|]. unfold images_of. simpl.
  repeat (apply Forall2_cons_2; [cbv beta; rewrite ?Ha; solve_view|]).
  apply Forall2_nil_2.
Qed.

(** The loop that looks for a missing denoised file tests every one. *)
Lemma any_missing_run den m w :
  any_missing den m w =
    (Val (m || negb (forallb (λ p, bool_decide (is_Some (fs w !! p))) den)),
     World (fs w) (heap w) (trace w ++ (EvIsFile <$> den))).
Proof.
  revert m w. induction den as [|p den IH]; intros m w.
  - simpl. rewrite orb_false_r, app_nil_r. by destruct w.
  - cbn [any_missing]. unfold bind, isfile. rewrite IH. cbn [fs heap trace].
    f_equal; [|by rewrite <- app_assoc].
    f_equal. simpl. destruct (bool_decide (is_Some (fs w !! p))); simpl.
    + done.
    + by rewrite orb_true_r.
Qed.

Lemma load_all_hit den acc w :
  Forall (λ p, is_Some (fs w !! p)) den →
  ∃ imgs w',
    load_all den acc w = (Val (acc ++ imgs), w') ∧
    fs w' = fs w ∧ heap w `prefix_of` heap w' ∧
    trace w' = trace w ++ (EvLoad <$> den) ∧
    Forall2 (λ img p, ∃ s, fs w !! p = Some s ∧ view (heap w') img = Some s)
      imgs den.
Proof.
  revert acc w. induction den as [|p den IH]; intros acc w HF.
  - exists [], w. rewrite !app_nil_r. repeat (split; [done|]).
    apply Forall2_nil_2.
  - apply Forall_cons in HF as [[s Hs] HF]. cbn [load_all].
    rewrite (bind_Val _ _ _ _ _ (load_file_hit p s w Hs)).
    destruct (IH (acc ++ [Niimg (st_data s) (st_affine s) (length (heap w))])
                (World (fs w) (heap w ++ [st_header s])
                   (trace w ++ [EvLoad p])) HF)
      as (imgs & w' & E & Hfs & Hpre & Htr & HV).
    cbn [fs heap trace] in *.
    exists (Niimg (st_data s) (st_affine s) (length (heap w)) :: imgs), w'.
    split; [by rewrite E, <- app_assoc|]. split; [done|].
    split; [etrans; [apply prefix_app_r|exact Hpre]; done|].
    split; [by rewrite Htr, <- app_assoc|].
    apply Forall2_cons_2; [|done]. exists s. split; [done|].
    eapply view_prefix; [exact Hpre|].
    apply view_at; [|done|done]. simpl.
    by apply list_lookup_middle.
Qed.

Lemma forallb_exists_true (files : gmap string stored) den :
  Forall (λ p, is_Some (files !! p)) den →
  forallb (λ p, bool_decide (is_Some (files !! p))) den = true.
Proof.
  intros HF. apply forallb_forall. intros p Hp.
  apply bool_decide_eq_true_2.
  rewrite Forall_forall in HF. apply HF. by apply list_elem_of_In.
Qed.

Lemma lcpca_cached_hit files w :
  Forall (λ p, is_Some (fs w !! p)) (lcpca_file_list files) →
  ∃ out w',
    lcpca_cached false files w = (Val (Hit out), w') ∧
    Forall2 (λ img p, view (heap w') img = fs w !! p)
      (images_of out) (lcpca_file_list files).
Proof.
  destruct files as [[den dim] err]. unfold lcpca_file_list. intros HF.
  apply Forall_app in HF as [Hden HF].
  apply Forall_cons in HF as [[sd Hd] HF].
  apply Forall_cons in HF as [[se He] _].
  unfold lcpca_cached.
  assert (and_then (ret (negb false)) (and_then (isfile dim) (isfile err)) w
          = (Val true, World (fs w) (heap w)
                         ((trace w ++ [EvIsFile dim]) ++ [EvIsFile err])))
    as E1.
  { unfold and_then, isfile, bind, ret. simpl.
    rewrite Hd; simpl. by rewrite He. }
  rewrite (bind_Val _ _ _ _ _ E1).
  rewrite (bind_Val _ _ _ _ _ (any_missing_run den false _)).
  cbn [fs heap trace]. rewrite (forallb_exists_true _ _ Hden). cbn [negb orb].
  unfold print. rewrite bind_log. cbn [fs heap trace].
  edestruct (load_all_hit den []) as (imgs & w2 & E2 & Hfs & Hpre & Htr & HV);
    [|rewrite (bind_Val _ _ _ _ _ E2)]; [exact Hden|].
  cbn [fs] in Hfs.
  rewrite (bind_Val _ _ _ _ _ (load_file_hit dim sd w2 ltac:(by rewrite Hfs))).
  rewrite (bind_Val _ _ _ _ _
             (load_file_hit err se
                (World (fs w2) (heap w2 ++ [st_header sd])
                   (trace w2 ++ [EvLoad dim]))
                ltac:(by cbn [fs]; rewrite Hfs))).
  eexists _, _. split; [reflexivity|]. unfold images_of. cbn [flat_map].
  cbn [images_of_value snd heap app].
  apply Forall2_app.
  - eapply Forall2_impl; [exact HV|]. intros img p (s & Hp & Hv).
    cbn [fs] in Hp. rewrite Hp.
    eapply view_prefix; [|exact Hv].
    etrans; [apply prefix_app_r|apply prefix_app_r]; done.
  - repeat (apply Forall2_cons_2; [cbv beta; rewrite ?Hd, ?He; solve_view|]).
    apply Forall2_nil_2.
Qed.

Ltac miss_case :=
  eexists; split;
    [rewrite <- ?app_assoc; reflexivity | Forall_split; reflexivity].

Lemma flash_cached_partial files w :
  (∃ p, p ∈ flash_file_list files ∧ fs w !! p = None) →
  ∃ checks,
    flash_cached false files w =
      (Val (Miss (Some files)),
       World (fs w) (heap w) (trace w ++ checks)) ∧
    Forall (λ e, is_isfile e = true) checks.
Proof.
  destruct files as [[[a b] c] d]. simpl. intros (p & Hp & Hn).
  unfold flash_cached, and_then, isfile, bind, ret, print, log. simpl.
  destruct (fs w !! a) eqn:Ha; simpl; [|miss_case].
  destruct (fs w !! b) eqn:Hb; simpl; [|miss_case].
  destruct (fs w !! c) eqn:Hc; simpl; [|miss_case].
  destruct (fs w !! d) eqn:Hd; simpl; [|miss_case].
  rewrite !elem_of_cons in Hp. rewrite elem_of_nil in Hp.
  destruct Hp as [->|[->|[->|[->|[]]]]]; congruence.
Qed.

Lemma mp2rage_cached_partial files w :
  (∃ p, p ∈ mp2rage_file_list files ∧ fs w !! p = None) →
  ∃ checks,
    mp2rage_cached false files w =
      (Val (Miss (Some files)),
       World (fs w) (heap w) (trace w ++ checks)) ∧
    Forall (λ e, is_isfile e = true) checks.
Proof.
  destruct files as [[a b] c]. simpl. intros (p & Hp & Hn).
  unfold mp2rage_cached, and_then, isfile, bind, ret, print, log. simpl.
  destruct (fs w !! a) eqn:Ha; simpl; [|miss_case].
  destruct (fs w !! b) eqn:Hb; simpl; [|miss_case].
  destruct (fs w !! c) eqn:Hc; simpl; [|miss_case].
  rewrite !elem_of_cons in Hp. rewrite elem_of_nil in Hp.
  destruct Hp as [->|[->|[->|[]]]]; congruence.
Qed.

Lemma levelset_cached_partial f w :
  (∃ p, p ∈ [f] ∧ fs w !! p = None) →
  ∃ checks,
    levelset_cached false f w =
      (Val (Miss (Some f)), World (fs w) (heap w) (trace w ++ checks)) ∧
    Forall (λ e, is_isfile e = true) checks.
Proof.
  intros (p & Hp & Hn).
  unfold levelset_cached, and_then, isfile, bind, ret, print, log. simpl.
  destruct (fs w !! f) eqn:Ha; simpl; [|miss_case].
  rewrite !elem_of_cons in Hp. rewrite elem_of_nil in Hp.
  destruct Hp as [->|[]]; congruence.
Qed.

Lemma forallb_exists_false (files : gmap string stored) den p :
  p ∈ den → files !! p = None →
  forallb (λ p, bool_decide (is_Some (files !! p))) den = false.
Proof.
  intros Hin Hn. apply not_true_is_false. intros HT.
  rewrite forallb_forall in HT. specialize (HT p).
  rewrite bool_decide_eq_true in HT. rewrite Hn in HT.
  destruct HT as [? ?]; [by apply list_elem_of_In|done].
Qed.

Lemma Forall_isfile_fmap den :
  Forall (λ e : event, is_isfile e = true) (EvIsFile <$> den).
Proof. apply Forall_fmap, Forall_true. done. Qed.

Lemma lcpca_cached_partial files w :
  (∃ p, p ∈ lcpca_file_list files ∧ fs w !! p = None) →
  ∃ checks,
    lcpca_cached false files w =
      (Val (Miss (Some files)),
       World (fs w) (heap w) (trace w ++ checks)) ∧
    Forall (λ e, is_isfile e = true) checks.
Proof.
  destruct files as [[den dim] err]. unfold lcpca_file_list.
  intros (p & Hp & Hn). unfold lcpca_cached.
  destruct (fs w !! dim) as [sd|] eqn:Hd.
  2:{ unfold and_then, isfile, bind, ret. simpl. rewrite Hd. simpl.
      miss_case. }
  destruct (fs w !! err) as [se|] eqn:He.
  2:{ unfold and_then, isfile, bind, ret. simpl. rewrite Hd. simpl.
      rewrite He. simpl. miss_case. }
  assert (and_then (ret (negb false)) (and_then (isfile dim) (isfile err)) w
          = (Val true, World (fs w) (heap w)
                         ((trace w ++ [EvIsFile dim]) ++ [EvIsFile err])))
    as E1.
  { unfold and_then, isfile, bind, ret. simpl.
    rewrite Hd; simpl. by rewrite He. }
  rewrite (bind_Val _ _ _ _ _ E1).
  rewrite (bind_Val _ _ _ _ _ (any_missing_run den false _)).
  cbn [fs heap trace].
  assert (p ∈ den) as Hin.
  { apply elem_of_app in Hp as [Hp|Hp]; [done|].
    rewrite !elem_of_cons in Hp. rewrite elem_of_nil in Hp.
    destruct Hp as [->|[->|[]]]; congruence. }
  rewrite (forallb_exists_false _ _ _ Hin Hn). cbn [negb orb].
  exists ([EvIsFile dim; EvIsFile err] ++ (EvIsFile <$> den)).
  split; [unfold ret; by rewrite <- !app_assoc|].
  apply Forall_app. split; [by Forall_split|apply Forall_isfile_fmap].
Qed.





Lemma flash_files_quiet il od fn :
  emits (λ e, is_gate_event e = true) (flash_files il od fn).
Proof. files_auto. Qed.

Lemma lcpca_files_quiet il pl od fn :
  emits (λ e, is_gate_event e = true) (lcpca_files il pl od fn).
Proof. files_auto. Qed.

Lemma mp2rage_files_quiet fi od fn :
  emits (λ e, is_gate_event e = true) (mp2rage_files fi od fn).
Proof. files_auto. Qed.

Lemma levelset_files_quiet imgs od fn :
  emits (λ e, is_gate_event e = true) (levelset_files imgs od fn).
Proof. files_auto. Qed.

(** Once past the gate, the first thing a wrapper does is start the JVM
    and instantiate its Java class. *)
Lemma enters_configured {A B} cls (k1 : M A) (k2 : A → M B) w :
  emits (λ _, True) k1 → (∀ a, emits (λ _, True) (k2 a)) →
  ∃ post,
    trace (bind (bind initVM (λ _, bind (jnew cls) (λ _, k1))) k2 w).2
      = trace w ++ EvInitVM :: EvNew cls :: post.
Proof.
  intros H1 H2. unfold bind at 1 2 3. unfold initVM, jnew, log.
  set (w2 := World _ _ _).
  pose proof (H1 w2) as (e1 & T1 & _).
  destruct (k1 w2) as [[a|e] w3]; simpl in T1.
  - pose proof (H2 a w3) as (e2 & T2 & _). exists (e1 ++ e2).
    rewrite T2, T1. unfold w2. simpl. by rewrite <- !app_assoc.
  - exists e1. simpl. rewrite T1. unfold w2. simpl. by rewrite <- !app_assoc.
Qed.

Lemma enters_plain {A} cls (k : M A) w :
  emits (λ _, True) k →
  ∃ post,
    trace (bind initVM (λ _, bind (jnew cls) (λ _, k)) w).2
      = trace w ++ EvInitVM :: EvNew cls :: post.
Proof.
  intros H1. unfold bind at 1 2. unfold initVM, jnew, log.
  set (w2 := World _ _ _).
  pose proof (H1 w2) as (e1 & T1 & _). exists e1.
  rewrite T1. unfold w2. simpl. by rewrite <- !app_assoc.
Qed.

End cache_more.

(* ===================================================================== *)
(** ** Entering the computation *)
(* ===================================================================== *)

Section entering.
Context {Num : Numeric} {U : Utils} {J : Native}.
Implicit Types (w : world).

Lemma flash_compute_enters il te sd files w :
  ∃ post, trace (flash_compute il te sd files w).2
          = trace w ++ EvInitVM :: EvNew "IntensityFlashT2sFitting" :: post.
Proof.
  unfold flash_compute, flash_configure. apply enters_configured.
  - trace_auto.
  - intros [[dims aff] hdr]. trace_auto.
Qed.

Lemma mp2rage_compute_enters fi si it fa itr etr n eff b1 b1map sd files w :
  ∃ post,
    trace (mp2rage_compute fi si it fa itr etr n eff b1 b1map sd files w).2
      = trace w ++ EvInitVM :: EvNew "IntensityMp2rageT1Fitting" :: post.
Proof.
  unfold mp2rage_compute, mp2rage_configure. apply enters_configured.
  - trace_auto.
  - intros [[dims aff] hdr]. trace_auto.
Qed.

Lemma levelset_compute_enters imgs topo lut sd files w :
  ∃ post, trace (levelset_compute imgs topo lut sd files w).2
          = trace w ++ EvInitVM :: EvNew "ShapeLevelsetFusion" :: post.
Proof.
  unfold levelset_compute, levelset_configure. apply enters_configured.
  - trace_auto.
  - intros [[dims aff] hdr]. trace_auto.
Qed.

Lemma lcpca_compute_enters il pl ngb cut dmin dmax sd files w :
  ∃ post, trace (lcpca_compute il pl ngb cut dmin dmax sd files w).2
          = trace w ++ EvInitVM :: EvNew "IntensityComplexPCADenoising"
              :: post.
Proof.
  unfold lcpca_compute. apply enters_plain. trace_auto.
Qed.

End entering.

(* ===================================================================== *)
(** ** The cache policy *)
(* ===================================================================== *)

Section policy.
Context {Num : Numeric} {U : Utils} {J : Native}.
Implicit Types (w : world).

Lemma step_ok_print P w s :
  P (EvPrint s) →
  step_ok P w (World (fs w) (heap w) (trace w ++ [EvPrint s])).
Proof. apply step_ok_event. Qed.

(** From the hit of the typed cache block to the statement on the call. *)
Lemma hit_result w w0 w1 w' (out : pydict) ps :
  step_ok (λ e, is_gate_event e = true) w w0 →
  step_ok (λ e, is_gate_event e = true) w0 w1 →
  step_ok (λ e, is_gate_event e = true) w1 w' →
  Forall2 (λ img p, view (heap w') img = fs w1 !! p) (images_of out) ps →
  fs w' = fs w ∧
  Forall (λ e, is_native e = false) (emitted w w') ∧
  Forall2 (λ img p, view (heap w') img = fs w !! p) (images_of out) ps.
Proof.
  intros S0 S1 S2 HV.
  pose proof (step_ok_trans _ _ _ _ S0 S1) as S01.
  pose proof (step_ok_trans _ _ _ _ S01 S2) as S.
  destruct (gate_step _ _ S01) as [Hfs1 _].
  destruct (gate_step _ _ S) as [Hfs (evs & T & F)].
  split; [done|]. split.
  - by rewrite (emitted_app _ _ _ T).
  - by rewrite <- Hfs1.
Qed.

Lemma exists_transport (f1 f2 : gmap string stored) ps :
  f1 = f2 → Forall (λ p, is_Some (f2 !! p)) ps →
  Forall (λ p, is_Some (f1 !! p)) ps.
Proof. by intros ->. Qed.


Lemma prologue_extends (c : api_call) w ps w1 :
  bind (banner c) (λ _, output_files c) w = (Val ps, w1) → extends w w1.
Proof.
  apply (emits_extends (λ _, True)).
  destruct c; unfold banner, output_files; files_auto.
Qed.

Lemma partial_enters (c : api_call) w ps w1 :
  save_data (options c) = true →
  overwrite (options c) = false →
  bind (banner c) (λ _, output_files c) w = (Val ps, w1) →
  (∃ p, p ∈ ps ∧ fs w !! p = None) →
  ∃ checks post,
    trace (invoke c w).2
      = trace w1 ++ checks ++ EvInitVM :: EvNew (java_class c) :: post ∧
    Forall (λ e, is_isfile e = true) checks.
Proof.
  destruct c as [il te o|il pl ngb cut dmin dmax o
                |fi si it fa itr etr n eff b1 b1map o|imgs topo lut o];
    destruct o as [sd ov od fn]; simpl; intros -> -> Hps (p & Hp & Hn).
  - inv_bind Hps as u w0 E0. apply log_inv in E0. subst w0.
    inv_bind Hps as files wf Ef. apply ret_inv in Hps as [-> <-].
    pose proof (emits_run _ _ _ _ _ (flash_files_quiet il od fn) Ef) as S1.
    pose proof (step_ok_print (λ e, is_gate_event e = true) w
                  (nl +:+ "T2* Fitting") eq_refl) as S0.
    destruct (gate_step _ _ (step_ok_trans _ _ _ _ S0 S1)) as [Hfs _].
    unfold flash_t2s_fitting, print. rewrite bind_log.
    unfold flash_gate. rewrite bind_assoc, (bind_Val _ _ _ _ _ Ef).
    destruct (flash_cached_partial files w1) as (checks & Ec & HI).
    { exists p. by rewrite Hfs. }
    rewrite (bind_Val _ _ _ _ _ Ec).
    destruct (flash_compute_enters il te true (Some files)
                (World (fs w1) (heap w1) (trace w1 ++ checks)))
      as [post Hpost].
    exists checks, post. split; [|done].
    rewrite Hpost. simpl. by rewrite <- app_assoc.
  - inv_bind Hps as u w0 E0. apply log_inv in E0. subst w0.
    inv_bind Hps as files wf Ef. apply ret_inv in Hps as [-> <-].
    pose proof (emits_run _ _ _ _ _ (lcpca_files_quiet il pl od fn) Ef) as S1.
    pose proof (step_ok_print (λ e, is_gate_event e = true) w
                  (nl +:+ "LCPCA denoising") eq_refl) as S0.
    destruct (gate_step _ _ (step_ok_trans _ _ _ _ S0 S1)) as [Hfs _].
    unfold lcpca_denoising, print. rewrite bind_log.
    unfold lcpca_gate. rewrite bind_assoc, (bind_Val _ _ _ _ _ Ef).
    destruct (lcpca_cached_partial files w1) as (checks & Ec & HI).
    { exists p. by rewrite Hfs. }
    rewrite (bind_Val _ _ _ _ _ Ec).
    destruct (lcpca_compute_enters il pl ngb cut dmin dmax true (Some files)
                (World (fs w1) (heap w1) (trace w1 ++ checks)))
      as [post Hpost].
    exists checks, post. split; [|done].
    rewrite Hpost. simpl. by rewrite <- app_assoc.
  - inv_bind Hps as u w0 E0. apply log_inv in E0. subst w0.
    inv_bind Hps as files wf Ef. apply ret_inv in Hps as [-> <-].
    pose proof (emits_run _ _ _ _ _ (mp2rage_files_quiet fi od fn) Ef) as S1.
    pose proof (step_ok_print (λ e, is_gate_event e = true) w
                  (nl +:+ "T1 Mapping") eq_refl) as S0.
    destruct (gate_step _ _ (step_ok_trans _ _ _ _ S0 S1)) as [Hfs _].
    unfold mp2rage_t1_mapping, print. rewrite bind_log.
    unfold mp2rage_gate. rewrite bind_assoc, (bind_Val _ _ _ _ _ Ef).
    destruct (mp2rage_cached_partial files w1) as (checks & Ec & HI).
    { exists p. by rewrite Hfs. }
    rewrite (bind_Val _ _ _ _ _ Ec).
    destruct (mp2rage_compute_enters fi si it fa itr etr n eff b1 b1map
                true (Some files)
                (World (fs w1) (heap w1) (trace w1 ++ checks)))
      as [post Hpost].
    exists checks, post. split; [|done].
    rewrite Hpost. simpl. by rewrite <- app_assoc.
  - inv_bind Hps as u w0 E0. inv_bind E0 as u1 v1 E1.
    apply log_inv in E1. subst v1.
    inv_bind E0 as dir v2 E2. pose proof E2 as E2'.
    apply lift_sum_inv in E2' as [_ ->].
    apply ret_inv in E0 as [_ ->].
    inv_bind Hps as f wf Ef. apply ret_inv in Hps as [-> <-].
    pose proof (emits_run _ _ _ _ _ (levelset_files_quiet imgs od fn) Ef)
      as S1.
    pose proof (step_ok_print (λ e, is_gate_event e = true) w
                  (nl +:+ "Levelset Shape Fusion") eq_refl) as S0.
    destruct (gate_step _ _ (step_ok_trans _ _ _ _ S0 S1)) as [Hfs _].
    unfold levelset_fusion, print. rewrite bind_log.
    rewrite (bind_Val _ _ _ _ _ E2).
    unfold levelset_gate. rewrite bind_assoc, (bind_Val _ _ _ _ _ Ef).
    destruct (levelset_cached_partial f w1) as (checks & Ec & HI).
    { exists p. by rewrite Hfs. }
    rewrite (bind_Val _ _ _ _ _ Ec).
    destruct (levelset_compute_enters imgs topo dir true (Some f)
                (World (fs w1) (heap w1) (trace w1 ++ checks)))
      as [post Hpost].
    exists checks, post. split; [|done].
    rewrite Hpost. simpl. by rewrite <- app_assoc.
Qed.

(** C4. With save_data=True and overwrite=False, if any expected output
    file is missing (in particular when some exist and some do not),
    the call only tests for files and then enters the computation: it
    starts the JVM and instantiates the algorithm object, loads none of
    the files that do exist, and, when it succeeds, every image it
    returns is built from this run's native results and every expected
    output file is written again. *)
Theorem partial_cache_recomputes_everything (c : api_call) w ps w1 :
  save_data (options c) = true →
  overwrite (options c) = false →
  bind (banner c) (λ _, output_files c) w = (Val ps, w1) →
  (∃ p, p ∈ ps ∧ fs w !! p = None) →
  (∃ checks post,
     trace (invoke c w).2
       = trace w1 ++ checks ++ EvInitVM :: EvNew (java_class c) :: post ∧
     Forall (λ e, is_isfile e = true) checks) ∧
  (∀ out w', invoke c w = (Val (Some out), w') →
     (∃ (r : string → list jarg → list jfloat) dims,
        (∃ tr, jvm_execute tr = inr r) ∧
        Forall (from_native r dims) (images_of out)) ∧
     Forall (λ p, EvSave p ∈ emitted w w') ps).
Proof.
  intros Hsd Hov Hps Hmiss.
  destruct (partial_enters c w ps w1 Hsd Hov Hps Hmiss)
    as (checks & post & Htr & HI).
  split; [by exists checks, post|].
  intros out w' Hrun. rewrite Hrun in Htr. simpl in Htr.
  destruct (prologue_extends c w ps w1 Hps) as [pre Hpre].
  destruct (invoke_computed c w out w' Hrun) as [HC HS].
  { exists EvInitVM. split; [done|].
    rewrite (emitted_app w w'
               (pre ++ checks ++ EvInitVM :: EvNew (java_class c) :: post))
      by (by rewrite Htr, Hpre, <- !app_assoc).
    rewrite !elem_of_app. right. right. apply list_elem_of_here. }
  split; [|by eapply HS].
  destruct HC as (cfg & r & _ & Hr & HF).
  exists r, cfg.1.1. split; [done|].
  eapply Forall_impl; [exact HF|]. by intros img (Hn & _).
Qed.

(** C9. With save_data=False the flags overwrite, output_dir and
    file_name play no part; the call tests for no file and never prints
    the skip message, whatever the disk holds; and as soon as the banner
    is out it starts the JVM and instantiates the algorithm object. *)
Theorem no_save_never_consults_cache (c : api_call) w :
  save_data (options c) = false →
  (∀ o, save_data o = false → invoke (with_options c o) w = invoke c w) ∧
  Forall (λ e, is_cache_event e = false) (emitted w (invoke c w).2) ∧
  match banner c w with
  | (Val _, w0) =>
      ∃ post,
        trace (invoke c w).2
          = trace w0 ++ EvInitVM :: EvNew (java_class c) :: post
  | (Exc e, w0) => invoke c w = (Exc e, w0)
  end.
Proof.
  intros Hsd. split; [|split].
  - intros o Ho. destruct o as [sd' ov' od' fn']. simpl in Ho. subst sd'.
    destruct c as [il te o|il pl ngb cut dmin dmax o
                  |fi si it fa itr etr n eff b1 b1map o|imgs topo lut o];
      destruct o as [sd ov od fn]; simpl in *; by subst sd.
  - apply step_ok_emitted with (P := λ e, is_cache_event e = false).
    apply invoke_no_cache_event, Hsd.
  - destruct c as [il te o|il pl ngb cut dmin dmax o
                  |fi si it fa itr etr n eff b1 b1map o|imgs topo lut o];
      destruct o as [sd ov od fn]; simpl in *; subst sd.
    + apply flash_compute_enters.
    + apply lcpca_compute_enters.
    + apply mp2rage_compute_enters.
    + unfold levelset_fusion, check_topology_lut_dir, print.
      rewrite !bind_log.
      destruct (_check_topology_lut_dir lut) as [e|dir]; simpl; [done|].
      apply levelset_compute_enters.
Qed.

End policy.

(* ===================================================================== *)
(** ** Runs that complete *)
(* ===================================================================== *)

Section totality.
Context {Num : Numeric} {U : Utils} {J : Native}.
Implicit Types (w : world).

Lemma total_bind {A B} (m : M A) (k : A → M B) w Q :
  total m w (λ a w1, total (k a) w1 Q) → total (bind m k) w Q.
Proof.
  intros (a & w1 & E & b & w2 & E2 & HQ). exists b, w2.
  by rewrite (bind_Val _ _ _ _ _ E).
Qed.

Lemma total_ret {A} (a : A) w (Q : A → world → Prop) :
  Q a w → total (ret a) w Q.
Proof. intros HQ. by exists a, w. Qed.

Lemma total_log e w (Q : unit → world → Prop) :
  Q () (World (fs w) (heap w) (trace w ++ [e])) → total (log e) w Q.
Proof. intros HQ. by eexists _, _. Qed.

Lemma total_getitem {A} (l : list A) i a w (Q : A → world → Prop) :
  l !! i = Some a → Q a w → total (getitem l i) w Q.
Proof. intros E HQ. exists a, w. unfold getitem. by rewrite E. Qed.

(** Loading an input that is there. *)
Lemma total_load_volume v d w (Q : niimg → world → Prop) :
  input_data (fs w) v = Some d →
  (∀ img w',
     img_data img = d → fs w' = fs w → heap w `prefix_of` heap w' →
     (∀ h, input_header w v = Some h → heap w' !! img_header img = Some h) →
     Q img w') →
  total (load_volume v) w Q.
Proof.
  intros Hd HQ. destruct v as [p|img]; simpl in *.
  - destruct (fs w !! p) as [s|] eqn:Hp; [|done].
    injection Hd as <-. eexists _, _. rewrite Hp. split; [done|].
    apply HQ; simpl; try done.
    + by apply prefix_app_r.
    + intros h [= <-]. by apply list_lookup_middle.
  - injection Hd as <-. exists img, w. split; [done|]. by apply HQ.
Qed.

Lemma total_get_zooms hdr h w (Q : list scalar → world → Prop) :
  heap w !! hdr = Some h → Q (zooms h) w → total (get_zooms hdr) w Q.
Proof.
  intros Hh HQ. exists (zooms h), w. split; [|done].
  unfold get_zooms, deref, bind. by rewrite Hh.
Qed.

Lemma total_execute_guarded g w
    (Q : (string → list jarg → list jfloat) → world → Prop) :
  (∃ r, jvm_execute (trace w) = inr r ∧
        Q r (World (fs w) (heap w) (trace w ++ [EvExecute]))) →
  total (execute_guarded g) w Q.
Proof.
  intros (r & Hr & HQ). eexists r, _. split; [|exact HQ].
  unfold execute_guarded, try_except, jexecute. by rewrite Hr.
Qed.

Lemma total_jget (r : string → list jarg → list jfloat) meth args w
    (Q : list jfloat → world → Prop) :
  Q (r meth args) (World (fs w) (heap w) (trace w ++ [EvGet meth args])) →
  total (jget r meth args) w Q.
Proof. intros HQ. by eexists _, _. Qed.

Lemma total_np_reshape_F a dims w (Q : ndarray scalar → world → Prop) :
  length a = size3 dims →
  (∀ d, reshape_F (np_float32 <$> a) dims = Some d → Q d w) →
  total (np_reshape_F a dims) w Q.
Proof.
  intros Hlen HQ.
  destruct (reshape_F_is_Some (np_float32 <$> a) dims) as [d Hd].
  { by rewrite length_fmap. }
  exists d, w. unfold np_reshape_F. rewrite Hd. split; [done|]. by apply HQ.
Qed.

Lemma reduce_is_Some op (l : list scalar) :
  l ≠ [] → is_Some (reduce op l).
Proof. destruct l; [done|]. simpl. eauto. Qed.

Lemma total_wrap_image d aff hdr w (Q : niimg → world → Prop) :
  elems d ≠ [] → is_Some (heap w !! hdr) →
  (∀ img w', img_data img = d → fs w' = fs w →
             is_Some (heap w' !! hdr) → Q img w') →
  total (wrap_image d aff hdr) w Q.
Proof.
  intros Hne [h Hh] HQ.
  destruct (reduce_is_Some np_fmin _ Hne) as [lo Hlo].
  destruct (reduce_is_Some np_fmax _ Hne) as [hi Hhi].
  assert (hdr < length (heap w)) as Hlt by (by eapply lookup_lt_Some).
  eexists (Niimg d aff (length (heap w))), _. split.
  - unfold wrap_image, np_nanmin, np_nanmax, set_cal_min, set_cal_max,
      Nifti1Image, deref, bind, ret. rewrite Hlo, Hh. cbn [heap fs trace].
    rewrite Hhi. cbn [heap fs trace].
    rewrite list_lookup_insert_eq by done. cbn [heap fs trace cal_min zooms].
    rewrite list_insert_insert_eq.
    rewrite list_lookup_insert_eq by done. cbn [heap fs trace cal_min zooms].
    by rewrite length_insert.
  - apply HQ; simpl; try done.
    rewrite lookup_app_l by (by rewrite length_insert).
    rewrite list_lookup_insert_eq by done. eauto.
Qed.

Lemma reshaped_nonempty (flat : list scalar) dims d :
  reshape_F flat dims = Some d → size3 dims ≠ 0 → elems d ≠ [].
Proof.
  intros Hd Hn. destruct (reshape_F_Some _ _ _ Hd) as (_ & Hs & Hwf & _).
  unfold wf in Hwf. rewrite Hs in Hwf. intros E. rewrite E in Hwf.
  simpl in Hwf. lia.
Qed.

Lemma reshaped_shape (flat : list scalar) dims d :
  reshape_F flat dims = Some d → shape d = dims.
Proof. intros Hd. by destruct (reshape_F_Some _ _ _ Hd) as (_ & Hs & _). Qed.

Lemma live_prefix (hp hp' : list header) hdr :
  hp `prefix_of` hp' → is_Some (hp !! hdr) → is_Some (hp' !! hdr).
Proof.
  intros [ext ->] [h Hh]. exists h. by apply lookup_app_l_Some.
Qed.

End totality.

Section scenario.
Context {Num : Numeric} {U : Utils} {J : Native}.
Implicit Types (w : world).

Lemma flash_collect_total (r : string → list jarg → list jfloat)
    dims aff hdr w :
  (∀ m a, length (r m a) = size3 dims) → size3 dims ≠ 0 →
  is_Some (heap w !! hdr) →
  total (flash_collect r dims aff hdr false None) w (λ out _,
    ∃ t2s r2s s0 err,
      out = Some [("t2s", VImg t2s); ("r2s", VImg r2s); ("s0", VImg s0);
                  ("residuals", VImg err)] ∧
      shape (img_data t2s) = dims ∧ shape (img_data r2s) = dims ∧
      shape (img_data s0) = dims ∧ shape (img_data err) = dims).
Proof.
  intros Hlen Hn Hlive. unfold flash_collect.
  apply total_bind, total_jget.
  apply total_bind, total_np_reshape_F; [done|]. intros d1 Hd1.
  apply total_bind, total_jget.
  apply total_bind, total_np_reshape_F; [done|]. intros d2 Hd2.
  apply total_bind, total_jget.
  apply total_bind, total_np_reshape_F; [done|]. intros d3 Hd3.
  apply total_bind, total_jget.
  apply total_bind, total_np_reshape_F; [done|]. intros d4 Hd4.
  apply total_bind, total_wrap_image; [by eapply reshaped_nonempty|done|].
  intros t2s wa I1 _ La.
  apply total_bind, total_wrap_image; [by eapply reshaped_nonempty|done|].
  intros r2s wb I2 _ Lb.
  apply total_bind, total_wrap_image; [by eapply reshaped_nonempty|done|].
  intros s0 wc I3 _ Lc.
  apply total_bind, total_wrap_image; [by eapply reshaped_nonempty|done|].
  intros err wd I4 _ Ld.
  apply total_bind, total_ret. apply total_ret.
  exists t2s, r2s, s0, err. rewrite I1, I2, I3, I4.
  split; [done|]. by repeat split; eapply reshaped_shape.
Qed.

Lemma input_header_frame w t v :
  input_header (World (fs w) (heap w) t) v = input_header w v.
Proof. by destruct v. Qed.

Lemma flash_two_echoes_total i1 i2 te1 te2 ov od fn w d1 d2 h1 :
  input_data (fs w) i1 = Some d1 → shape d1 = (4, 4, 4) →
  input_data (fs w) i2 = Some d2 →
  input_header w i1 = Some h1 → length (zooms h1) = 3 →
  (∀ tr, ∃ r, jvm_execute tr = inr r ∧ ∀ m a, length (r m a) = 64) →
  total (flash_t2s_fitting [i1; i2] [te1; te2] false ov od fn) w (λ out _,
    ∃ t2s r2s s0 err,
      out = Some [("t2s", VImg t2s); ("r2s", VImg r2s); ("s0", VImg s0);
                  ("residuals", VImg err)] ∧
      shape (img_data t2s) = (4, 4, 4) ∧ shape (img_data r2s) = (4, 4, 4) ∧
      shape (img_data s0) = (4, 4, 4) ∧ shape (img_data err) = (4, 4, 4)).
Proof.
  intros Hd1 Hs1 Hd2 Hh1 Hz Hnat.
  destruct (zooms h1) as [|z0 [|z1 [|z2 [|]]]] eqn:Hzs; try done.
  unfold flash_t2s_fitting, print. apply total_bind, total_log.
  unfold flash_gate. apply total_bind, total_ret. cbv beta iota.
  unfold flash_compute. apply total_bind.
  unfold flash_configure, initVM, jnew, jcall.
  apply total_bind, total_log. apply total_bind, total_log.
  apply total_bind, total_log.
  apply total_bind. eapply total_getitem; [reflexivity|].
  apply total_bind. eapply total_load_volume; [exact Hd1|].
  intros img wa Hi Hfa Hpa Hha. cbn [fs heap trace] in *.
  apply total_bind. eapply total_get_zooms; [by apply Hha|].
  rewrite Hzs, Hi, Hs1. cbv zeta beta iota.
  apply total_bind, total_log.
  apply total_bind. eapply total_getitem; [reflexivity|].
  apply total_bind. eapply total_getitem; [reflexivity|].
  apply total_bind. eapply total_getitem; [reflexivity|].
  apply total_bind, total_log. cbn [fs heap trace].
  assert (is_Some (heap wa !! img_header img)) as Hlive.
  { exists h1. apply Hha. by rewrite input_header_frame. }
  unfold for_enumerate, fold_enumerate. cbn [fold_enumerate_from].
  apply total_bind. apply total_bind. apply total_bind.
  eapply total_load_volume; [cbn [fs]; rewrite Hfa; exact Hd1|].
  intros im1 wb _ Hfb Hpb _. cbn [fs heap trace] in *.
  apply total_log. cbn [fs heap trace].
  apply total_bind. apply total_bind.
  eapply total_load_volume; [cbn [fs]; rewrite Hfb, Hfa; exact Hd2|].
  intros im2 wc _ Hfc Hpc _. cbn [fs heap trace] in *.
  apply total_log. cbn [fs heap trace]. apply total_ret.
  apply total_bind. apply total_bind, total_log.
  apply total_bind, total_log. apply total_ret. apply total_ret.
  cbv beta iota. cbn [fs heap trace].
  apply total_bind. apply total_execute_guarded.
  match goal with
  | |- ∃ r, jvm_execute ?tr = _ ∧ _ =>
      destruct (Hnat tr) as (r & Hr & Hlen)
  end.
  exists r. split; [done|].
  apply flash_collect_total; [done|done|]. cbn [heap].
  eapply live_prefix; [exact Hpc|]. by eapply live_prefix.
Qed.

End scenario.

(* ===================================================================== *)
(** ** What crosses the bridge *)
(* ===================================================================== *)

Section bridge.
Context {Num : Numeric} {U : Utils} {J : Native}.
Implicit Types (w : world) (files : gmap string stored).

Lemma configuring_no_save files inputs p :
  ¬ configuring files inputs (EvSave p).
Proof. by intros [? _]. Qed.

Lemma not_call_marshalled files inputs e :
  is_call e = false → marshalled files inputs e.
Proof. intros He meth args a ->. done. Qed.

Lemma not_call_configuring files inputs e :
  is_call e = false → is_save e = false → configuring files inputs e.
Proof. intros. split; [done|]. by apply not_call_marshalled. Qed.

Lemma tracks_emits {A} files P (m : M A) : emits P m → tracks files P m.
Proof. intros Hm w _. apply Hm. Qed.

Lemma tracks_bind {A B} files inputs (m : M A) (k : A → M B) :
  tracks files (configuring files inputs) m →
  (∀ a, tracks files (configuring files inputs) (k a)) →
  tracks files (configuring files inputs) (bind m k).
Proof.
  intros Hm Hk w Hw. unfold bind. specialize (Hm w Hw).
  destruct (m w) as [[a|e] w1]; simpl in *; [|done].
  eapply step_ok_trans; [done|]. apply Hk.
  destruct Hm as (_ & _ & _ & Hfs). rewrite Hfs; [done|].
  apply configuring_no_save.
Qed.

Lemma tracks_getitem_bind {A B} files P (l : list A) i (k : A → M B) :
  (∀ a, l !! i = Some a → tracks files P (k a)) →
  tracks files P (bind (getitem l i) k).
Proof.
  intros Hk w Hw. unfold bind, getitem.
  destruct (l !! i) as [a|] eqn:E; simpl.
  - by apply Hk.
  - apply step_ok_refl.
Qed.

Lemma tracks_load_bind {B} files inputs v (k : niimg → M B) :
  (∀ img, input_data files v = Some (img_data img) →
          tracks files (configuring files inputs) (k img)) →
  tracks files (configuring files inputs) (bind (load_volume v) k).
Proof.
  intros Hk w Hw. unfold bind.
  destruct (load_volume v w) as [[img|e] w1] eqn:E.
  - destruct (load_volume_inv _ _ _ _ E) as (Hd & _ & Hfs & _ & evs & T & F).
    eapply step_ok_trans; [|apply Hk; [by rewrite <- Hw|by rewrite Hfs]].
    exists evs. repeat split; [done| |done].
    eapply Forall_impl; [exact F|]. intros e [p ->].
    by apply not_call_configuring.
  - pose proof (emits_load_volume (configuring files inputs) v) as Hl.
    specialize (Hl (λ p _, not_call_configuring files inputs (EvLoad p)
                             eq_refl eq_refl) w).
    by rewrite E in Hl.
Qed.

Lemma tracks_fold_enumerate_from {A B} files inputs i (l : list A)
    (acc : B) body :
  (∀ i x acc, x ∈ l → tracks files (configuring files inputs) (body i x acc)) →
  tracks files (configuring files inputs) (fold_enumerate_from i l acc body).
Proof.
  revert i acc. induction l as [|x l IH]; intros i acc Hb; simpl.
  - apply tracks_emits, emits_ret.
  - apply tracks_bind; [apply Hb; left|].
    intros a. apply IH. intros j y b Hy. apply Hb. by right.
Qed.

Lemma tracks_for_enumerate {A} files inputs (l : list A) body :
  (∀ i x, x ∈ l → tracks files (configuring files inputs) (body i x)) →
  tracks files (configuring files inputs) (for_enumerate l body).
Proof. intros Hb. apply tracks_fold_enumerate_from. auto. Qed.

(** Pushing the array of a loaded input. *)
Lemma push_configuring files inputs meth (pre : list jarg) v img :
  v ∈ inputs → input_data files v = Some (img_data img) →
  (∀ a, JFloatArray a ∉ pre) →
  configuring files inputs
    (EvCall meth (pre ++ [JFloatArray (to_jarray (img_data img))])).
Proof.
  intros Hin Hd Hpre. split; [done|].
  intros meth' args a [= <- <-] Ha.
  apply elem_of_app in Ha as [Ha|Ha]; [by destruct (Hpre a)|].
  apply list_elem_of_singleton in Ha as [= ->].
  by exists v, (img_data img).
Qed.

Lemma tracks_weaken {A} files P Q (m : M A) :
  (∀ e, P e → Q e) → (∀ p, ¬ P (EvSave p)) →
  tracks files P m → tracks files Q m.
Proof. intros HPQ HS Hm w Hw. eapply step_ok_weaken; eauto. Qed.

Lemma gate_event_configuring files inputs e :
  is_gate_event e = true → configuring files inputs e.
Proof. destruct e; try done; intros _; by apply not_call_configuring. Qed.

(** A configuring step followed by anything that marshals. *)
Lemma tracks_bind_stage {A B} files inputs (m : M A) (k : A → M B) :
  tracks files (configuring files inputs) m →
  (∀ a, tracks files (marshalled files inputs) (k a)) →
  tracks files (marshalled files inputs) (bind m k).
Proof.
  intros Hm Hk w Hw. unfold bind. specialize (Hm w Hw).
  assert (step_ok (marshalled files inputs) w (m w).2 ∧
          fs (m w).2 = files) as [Hs Hfs].
  { split.
    - eapply step_ok_weaken; [|apply configuring_no_save|exact Hm].
      by intros e [_ ?].
    - destruct Hm as (_ & _ & _ & Hfs). rewrite Hfs; [done|].
      apply configuring_no_save. }
  destruct (m w) as [[a|e] w1]; simpl in *; [|done].
  eapply step_ok_trans; [done|]. by apply Hk.
Qed.

Lemma no_array_elem (args : list jarg) a :
  existsb is_array args = false → JFloatArray a ∉ args.
Proof.
  intros He Hin. apply not_true_iff_false in He. apply He.
  apply existsb_exists. exists (JFloatArray a).
  split; [by apply list_elem_of_In|done].
Qed.

Lemma call_configuring files inputs meth args :
  existsb is_array args = false →
  configuring files inputs (EvCall meth args).
Proof.
  intros He. split; [done|]. intros meth' args' a [= <- <-] Ha.
  by destruct (no_array_elem _ _ He Ha).
Qed.

Lemma push_configuring_at files inputs meth (pre : list jarg) v img :
  existsb is_array pre = false →
  v ∈ inputs → input_data files v = Some (img_data img) →
  configuring files inputs
    (EvCall meth (pre ++ [JFloatArray (to_jarray (img_data img))])).
Proof.
  intros Hpre Hin Hd. apply (push_configuring files inputs meth pre v img);
    [done|done|]. intros a. by apply no_array_elem.
Qed.

Lemma tracks_load_optional_bind {B} files inputs v (k : niimg → M B) :
  (∀ i img, v = Some i → input_data files i = Some (img_data img) →
            tracks files (configuring files inputs) (k img)) →
  tracks files (configuring files inputs) (bind (load_optional v) k).
Proof.
  intros Hk. destruct v as [i|]; simpl.
  - apply tracks_load_bind. intros img Hd. by eapply Hk.
  - intros w _. apply step_ok_refl.
Qed.

End bridge.

(** Footprints that depend on what [load_volume] found. *)
Ltac tracks_step :=
  first
    [ apply tracks_load_bind; intros
    | apply tracks_load_optional_bind; intros
    | apply tracks_getitem_bind; intros
    | apply tracks_for_enumerate; intros
    | apply tracks_bind; [|intros]
    | match goal with
      | |- tracks _ _ (match ?x with _ => _ end) => destruct x
      end
    | progress cbv zeta ].

Ltac member_solve :=
  solve [ subst; rewrite ?elem_of_app; simpl;
          eauto 8 using list_elem_of_lookup_2, list_elem_of_here ].

Ltac tracks_leaf :=
  apply tracks_emits;
  first
    [ apply emits_ret
    | apply emits_log;
      first
        [ apply call_configuring; reflexivity
        | match goal with
          | H : input_data _ ?v = Some (img_data ?img)
            |- configuring ?files ?inputs
                 (EvCall ?meth [?x; JFloatArray (to_jarray (img_data ?img))]) =>
              apply (push_configuring_at files inputs meth [x] v img);
                [reflexivity | member_solve | exact H]
          | H : input_data _ ?v = Some (img_data ?img)
            |- configuring ?files ?inputs
                 (EvCall ?meth [JFloatArray (to_jarray (img_data ?img))]) =>
              apply (push_configuring_at files inputs meth [] v img);
                [reflexivity | member_solve | exact H]
          end
        | by apply not_call_configuring ]
    | apply emits_deref | apply emits_get_zooms | apply emits_getitem ].

Ltac tracks_auto :=
  unfold print, initVM, jnew, jcall;
  repeat tracks_step; try tracks_leaf.

Section bridge_configure.
Context {Num : Numeric} {U : Utils} {J : Native}.
Implicit Types (w : world) (files : gmap string stored).

Lemma flash_configure_tracks files il te :
  tracks files (configuring files il) (flash_configure il te).
Proof. unfold flash_configure. tracks_auto. Qed.

Lemma lcpca_configure_tracks files il pl ngb cut dmin dmax :
  tracks files (configuring files (il ++ default [] pl))
    (lcpca_configure il pl ngb cut dmin dmax).
Proof. unfold lcpca_configure. tracks_auto. Qed.

Lemma mp2rage_configure_tracks files fi si it fa itr etr n eff b1 b1map :
  tracks files (configuring files (fi ++ si ++ option_list b1map))
    (mp2rage_configure fi si it fa itr etr n eff b1 b1map).
Proof. unfold mp2rage_configure. tracks_auto. Qed.

Lemma levelset_configure_tracks files imgs topo lut :
  tracks files (configuring files imgs) (levelset_configure imgs topo lut).
Proof. unfold levelset_configure. tracks_auto. Qed.

End bridge_configure.

Section bridge_calls.
Context {Num : Numeric} {U : Utils} {J : Native}.
Implicit Types (w : world) (files : gmap string stored).

Lemma tracks_no_call {A} files inputs (m : M A) :
  emits (λ e, is_call e = false) m →
  tracks files (marshalled files inputs) m.
Proof.
  intros Hm w _. destruct (Hm w) as (evs & T & F & _).
  exists evs. split; [done|]. split.
  - eapply Forall_impl; [exact F|]. apply not_call_marshalled.
  - intros HS. by destruct (HS "" (not_call_marshalled _ _ (EvSave "") eq_refl)).
Qed.

Lemma tracks_gate {A} files inputs (m : M A) :
  emits (λ e, is_gate_event e = true) m →
  tracks files (configuring files inputs) m.
Proof.
  intros Hm.
  apply (tracks_weaken files (λ e, is_gate_event e = true)).
  - apply gate_event_configuring.
  - intros p. apply gate_event_not_save.
  - by apply tracks_emits.
Qed.

Lemma tracks_print files inputs s :
  tracks files (configuring files inputs) (print s).
Proof. apply tracks_emits, emits_log. by apply not_call_configuring. Qed.

Ltac no_call_auto :=
  unfold flash_collect, lcpca_collect, mp2rage_collect, levelset_collect,
    denoised_loop, denoise_one;
  emits_auto;
  try solve [intros; simpl; try match goal with e : exn |- _ => destruct e end;
             done].

Lemma flash_tracks il te sd ov od fn files :
  tracks files (marshalled files il) (flash_t2s_fitting il te sd ov od fn).
Proof.
  unfold flash_t2s_fitting.
  apply tracks_bind_stage; [apply tracks_print|intros _].
  apply tracks_bind_stage; [apply tracks_gate, flash_gate_quiet|intros g].
  destruct g as [o|fo]; [apply tracks_no_call, emits_ret|].
  unfold flash_compute.
  apply tracks_bind_stage; [apply flash_configure_tracks|].
  intros [[dims aff] hdr]. apply tracks_no_call. no_call_auto.
Qed.

Lemma mp2rage_tracks fi si it fa itr etr n eff b1 b1map sd ov od fn files :
  tracks files (marshalled files (fi ++ si ++ option_list b1map))
    (mp2rage_t1_mapping fi si it fa itr etr n eff b1 b1map sd ov od fn).
Proof.
  unfold mp2rage_t1_mapping.
  apply tracks_bind_stage; [apply tracks_print|intros _].
  apply tracks_bind_stage; [apply tracks_gate, mp2rage_gate_quiet|intros g].
  destruct g as [o|fo]; [apply tracks_no_call, emits_ret|].
  unfold mp2rage_compute.
  apply tracks_bind_stage; [apply mp2rage_configure_tracks|].
  intros [[dims aff] hdr]. apply tracks_no_call. no_call_auto.
Qed.

Lemma levelset_tracks imgs topo lut sd ov od fn files :
  tracks files (marshalled files imgs)
    (levelset_fusion imgs topo lut sd ov od fn).
Proof.
  unfold levelset_fusion.
  apply tracks_bind_stage; [apply tracks_print|intros _].
  apply tracks_bind_stage;
    [apply tracks_emits, emits_lift_sum|intros dir].
  apply tracks_bind_stage; [apply tracks_gate, levelset_gate_quiet|intros g].
  destruct g as [o|fo]; [apply tracks_no_call, emits_ret|].
  unfold levelset_compute.
  apply tracks_bind_stage; [apply levelset_configure_tracks|].
  intros [[dims aff] hdr]. apply tracks_no_call. no_call_auto.
Qed.

Lemma lcpca_tracks il pl ngb cut dmin dmax sd ov od fn files :
  tracks files (marshalled files (il ++ default [] pl))
    (lcpca_denoising il pl ngb cut dmin dmax sd ov od fn).
Proof.
  unfold lcpca_denoising.
  apply tracks_bind_stage; [apply tracks_print|intros _].
  apply tracks_bind_stage; [apply tracks_gate, lcpca_gate_quiet|intros g].
  destruct g as [o|fo]; [apply tracks_no_call, emits_ret|].
  unfold lcpca_compute, initVM, jnew, jcall.
  apply tracks_bind_stage; [tracks_leaf|intros _].
  apply tracks_bind_stage; [tracks_leaf|intros _].
  apply tracks_bind_stage; [tracks_leaf|intros _].
  assert (tracks files (marshalled files (il ++ default [] pl))
            (lcpca_run il pl ngb cut dmin dmax sd fo)) as Hrun.
  { unfold lcpca_run.
    apply tracks_bind_stage; [apply lcpca_configure_tracks|].
    intros [[dims aff] hdr]. apply tracks_no_call. no_call_auto. }
  destruct pl as [l|]; [|done].
  case_bool_decide; [|done].
  apply tracks_no_call. no_call_auto.
Qed.

(** C8. Every array a call hands to the native object is the voxel array
    of one of its input images, flattened in column-major order, put
    through astype(float) and turned into a Java float array by
    JArray('float'): entry x + X * (y + Y * z) of what is pushed is the
    converted voxel (x, y, z). *)
Theorem inputs_pushed_column_major_as_java_floats (c : api_call) w :
  Forall (λ e, ∀ meth args a,
            e = EvCall meth args → JFloatArray a ∈ args →
            ∃ inp d,
              inp ∈ pushed_inputs c ∧
              input_data (fs w) inp = Some d ∧
              a = JArray_float <$> (astype_float <$> flatten_F d) ∧
              (wf d → ∀ x y z, in_bounds (shape d) x y z →
                 a !! ravel_F (shape d) x y z
                   = (λ v, JArray_float (astype_float v))
                       <$> getitem3 d x y z))
    (emitted w (invoke c w).2).
Proof.
  assert (tracks (fs w) (marshalled (fs w) (pushed_inputs c)) (invoke c))
    as Ht.
  { destruct c as [il te o|il pl ngb cut dmin dmax o
                  |fi si it fa itr etr n eff b1 b1map o|imgs topo lut o];
      destruct o as [sd ov od fn]; simpl.
    - apply flash_tracks.
    - apply lcpca_tracks.
    - apply mp2rage_tracks.
    - apply levelset_tracks. }
  specialize (Ht w eq_refl). apply step_ok_emitted in Ht.
  eapply Forall_impl; [exact Ht|].
  intros e He meth args a Hev Ha.
  destruct (He meth args a Hev Ha) as (inp & d & Hin & Hd & ->).
  exists inp, d. repeat (split; [done|]).
  intros Hwf x y z Hb. unfold to_jarray.
  rewrite !list_lookup_fmap, flatten_F_lookup by done.
  by destruct (getitem3 d x y z).
Qed.

End bridge_calls.

(* ===================================================================== *)
(** ** Calls that do not save, calls that abort, calls that fail *)
(* ===================================================================== *)

Section remaining.
Context {Num : Numeric} {U : Utils} {J : Native}.
Implicit Types (w : world).

(** C7. With save_data=False a call writes nothing: the files are left
    as they were, no output directory is resolved or created and no
    volume is saved.  For flash_t2s_fitting on two inputs whose first is
    a (4, 4, 4) volume, with two echo times, and a native library that
    returns one sample per voxel, the call returns exactly the four
    images t2s, r2s, s0 and residuals, each of shape (4, 4, 4). *)
Theorem no_save_no_filesystem_writes (c : api_call) w :
  save_data (options c) = false →
  (fs (invoke c w).2 = fs w ∧
   Forall (λ e, is_write e = false) (emitted w (invoke c w).2)) ∧
  (∀ i1 i2 te1 te2 ov od fn d1 d2 h1,
     c = FlashT2sFitting [i1; i2] [te1; te2] (SaveOpts false ov od fn) →
     input_data (fs w) i1 = Some d1 → shape d1 = (4, 4, 4) →
     input_data (fs w) i2 = Some d2 → shape d2 = (4, 4, 4) →
     input_header w i1 = Some h1 → length (zooms h1) = 3 →
     (∀ tr, ∃ r, jvm_execute tr = inr r ∧ ∀ m a, length (r m a) = 64) →
     ∃ t2s r2s s0 err w',
       invoke c w =
         (Val (Some [("t2s", VImg t2s); ("r2s", VImg r2s); ("s0", VImg s0);
                     ("residuals", VImg err)]), w') ∧
       shape (img_data t2s) = (4, 4, 4) ∧ shape (img_data r2s) = (4, 4, 4) ∧
       shape (img_data s0) = (4, 4, 4) ∧ shape (img_data err) = (4, 4, 4)).
Proof.
  intros Hsd. split.
  - pose proof (invoke_no_write c Hsd w) as Hs. split.
    + destruct Hs as (_ & _ & _ & Hfs). by apply Hfs.
    + by apply step_ok_emitted in Hs.
  - intros i1 i2 te1 te2 ov od fn d1 d2 h1 -> Hd1 Hs1 Hd2 Hs2 Hh1 Hz Hnat.
    destruct (flash_two_echoes_total i1 i2 te1 te2 ov od fn w d1 d2 h1
                Hd1 Hs1 Hd2 Hh1 Hz Hnat)
      as (out & w' & E & t2s & r2s & s0 & err & -> & Hshapes).
    by exists t2s, r2s, s0, err, w'.
Qed.

(** The save_data block of lcpca_denoising, however it ends, makes no
    call into the native layer. *)
Lemma lcpca_gate_not_native il pl sd ov od fn w
    (r : res (gate (list string * string * string))) w1 :
  lcpca_gate il pl sd ov od fn
    (World (fs w) (heap w) (trace w ++ [EvPrint (nl +:+ "LCPCA denoising")]))
    = (r, w1) →
  Forall (λ e, is_native e = false) (emitted w w1).
Proof.
  intros Eg.
  pose proof (emits_run _ _ _ _ _ (lcpca_gate_quiet il pl sd ov od fn) Eg)
    as Hg.
  apply gate_step in Hg as [_ (evs & T & F)]. cbn [trace] in T.
  rewrite (emitted_app w w1 ([EvPrint (nl +:+ "LCPCA denoising")] ++ evs))
    by (by rewrite T, <- app_assoc).
  apply Forall_app. split; [by apply Forall_singleton|done].
Qed.

(** C3, as amended.  When phase_list is given and its length differs
    from that of image_list, lcpca_denoising never runs execute() and
    hands no image array to the native object.  With save_data=False,
    and with save_data=True whenever the save_data block falls through,
    the JVM is started, the algorithm object is created and
    setImageNumber is called; then the mismatch is reported and the
    call returns None.  With save_data=True the save_data block runs
    first and can end the call: if it returns cached results the call
    returns them, and if it raises the call raises that exception, as
    it does with IndexError on an empty image_list; in both cases no
    call into the native layer is made. *)
Theorem lcpca_mismatch_aborts_before_any_push
    il pl ngb cut dmin dmax sd ov od fn w :
  length pl ≠ length il →
  Forall (λ e, is_push_or_run e = false)
    (emitted w (lcpca_denoising il (Some pl) ngb cut dmin dmax
                  sd ov od fn w).2) ∧
  (∀ fo w1,
     lcpca_gate il (Some pl) sd ov od fn
       (World (fs w) (heap w)
          (trace w ++ [EvPrint (nl +:+ "LCPCA denoising")]))
       = (Val (Miss fo), w1) →
     lcpca_denoising il (Some pl) ngb cut dmin dmax sd ov od fn w =
       (Val None,
        World (fs w1) (heap w1)
          (trace w1 ++
           [EvInitVM; EvNew "IntensityComplexPCADenoising";
            EvCall "setImageNumber" [JInt (Z.of_nat (length il))];
            EvPrint mismatch_msg]))) ∧
  (sd = false →
     lcpca_denoising il (Some pl) ngb cut dmin dmax sd ov od fn w =
       (Val None,
        World (fs w) (heap w)
          (trace w ++
           [EvPrint (nl +:+ "LCPCA denoising"); EvInitVM;
            EvNew "IntensityComplexPCADenoising";
            EvCall "setImageNumber" [JInt (Z.of_nat (length il))];
            EvPrint mismatch_msg]))) ∧
  (∀ out w1,
     lcpca_gate il (Some pl) sd ov od fn
       (World (fs w) (heap w)
          (trace w ++ [EvPrint (nl +:+ "LCPCA denoising")]))
       = (Val (Hit out), w1) →
     lcpca_denoising il (Some pl) ngb cut dmin dmax sd ov od fn w =
       (Val (Some out), w1) ∧
     Forall (λ e, is_native e = false) (emitted w w1)) ∧
  (∀ e w1,
     lcpca_gate il (Some pl) sd ov od fn
       (World (fs w) (heap w)
          (trace w ++ [EvPrint (nl +:+ "LCPCA denoising")]))
       = (Exc e, w1) →
     lcpca_denoising il (Some pl) ngb cut dmin dmax sd ov od fn w =
       (Exc e, w1) ∧
     Forall (λ e, is_native e = false) (emitted w w1)) ∧
  (sd = true → il = [] →
     lcpca_denoising il (Some pl) ngb cut dmin dmax sd ov od fn w =
       (Exc IndexError,
        World (fs w) (heap w)
          (trace w ++ [EvPrint (nl +:+ "LCPCA denoising")]))).
Proof.
  intros Hne.
  assert (∀ fo w1,
    lcpca_compute il (Some pl) ngb cut dmin dmax sd fo w1 =
      (Val None,
       World (fs w1) (heap w1)
         (trace w1 ++
          [EvInitVM; EvNew "IntensityComplexPCADenoising";
           EvCall "setImageNumber" [JInt (Z.of_nat (length il))];
           EvPrint mismatch_msg]))) as Hcompute.
  { intros fo w1. unfold lcpca_compute, initVM, jnew, jcall, print.
    rewrite !bind_log. rewrite bool_decide_eq_true_2 by done.
    rewrite bind_log. unfold ret. cbn [fs heap trace].
    by rewrite <- !app_assoc. }
  split; [|split; [|split; [|split; [|split]]]].
  - apply step_ok_emitted with (P := λ e, is_push_or_run e = false).
    revert w. change (emits (λ e, is_push_or_run e = false)
      (lcpca_denoising il (Some pl) ngb cut dmin dmax sd ov od fn)).
    unfold lcpca_denoising.
    apply emits_bind; [by apply emits_log|intros _].
    apply emits_bind.
    { intros w.
      apply (step_ok_weaken (λ e, is_gate_event e = true));
        [by intros []|intros p; apply gate_event_not_save|].
      apply lcpca_gate_quiet. }
    intros [o|fo]; [apply emits_ret|].
    intros w. rewrite Hcompute. exists
      [EvInitVM; EvNew "IntensityComplexPCADenoising";
       EvCall "setImageNumber" [JInt (Z.of_nat (length il))];
       EvPrint mismatch_msg].
    cbn [fs trace snd]. split; [done|]. split; [by Forall_split|done].
  - intros fo w1 Eg. unfold lcpca_denoising, print. rewrite bind_log.
    rewrite (bind_Val _ _ _ _ _ Eg). apply Hcompute.
  - intros ->. unfold lcpca_denoising, print. rewrite bind_log.
    unfold lcpca_gate. unfold bind at 1. unfold ret at 1.
    rewrite Hcompute. cbn [fs heap trace]. by rewrite <- !app_assoc.
  - intros out w1 Eg. split; [|by eapply lcpca_gate_not_native].
    unfold lcpca_denoising, print. rewrite bind_log.
    by rewrite (bind_Val _ _ _ _ _ Eg).
  - intros e w1 Eg. split; [|by eapply lcpca_gate_not_native].
    unfold lcpca_denoising, print. rewrite bind_log.
    by rewrite (bind_Exc _ _ _ _ _ Eg).
  - intros -> ->. unfold lcpca_denoising, print. rewrite bind_log.
    assert (∀ w0, lcpca_gate [] (Some pl) true ov od fn w0
                  = (Exc IndexError, w0)) as Eg by done.
    by rewrite (bind_Exc _ _ _ _ _ (Eg _)).
Qed.

Lemma levelset_has_no_sys : bool_decide ("sys" ∈ levelset_globals) = false.
Proof. by vm_compute. Qed.

Lemma flash_has_sys : bool_decide ("sys" ∈ flash_globals) = true.
Proof. by vm_compute. Qed.

Lemma mp2rage_has_sys : bool_decide ("sys" ∈ mp2rage_globals) = true.
Proof. by vm_compute. Qed.

Lemma lcpca_has_sys : bool_decide ("sys" ∈ lcpca_globals) = true.
Proof. by vm_compute. Qed.

(** Why C2 fails for [levelset_fusion] only: the handler evaluates
    [sys.exc_info()] and this module never imports [sys]. *)
Lemma levelset_masks_native_failure imgs topo lut sd files w cfg w1 msg :
  levelset_configure imgs topo lut w = (Val cfg, w1) →
  jvm_execute (trace w1) = inl msg →
  (levelset_compute imgs topo lut sd files w).1 = Exc (NameError "sys").
Proof.
  intros Ec Ex. unfold levelset_compute.
  rewrite (bind_Val _ _ _ _ _ Ec). destruct cfg as [[dims aff] hdr].
  pose proof (execute_guarded_fails levelset_globals _ _ Ex) as Hf.
  unfold bind. rewrite Hf, levelset_has_no_sys. done.
Qed.

Lemma flash_reraises_native_failure il te sd files w cfg w1 msg :
  flash_configure il te w = (Val cfg, w1) →
  jvm_execute (trace w1) = inl msg →
  (flash_compute il te sd files w).1 = Exc (JavaError msg).
Proof.
  intros Ec Ex. unfold flash_compute.
  rewrite (bind_Val _ _ _ _ _ Ec). destruct cfg as [[dims aff] hdr].
  pose proof (execute_guarded_fails flash_globals _ _ Ex) as Hf.
  unfold bind. rewrite Hf, flash_has_sys. done.
Qed.

Lemma mp2rage_reraises_native_failure
    fi si it fa itr etr n eff b1 b1map sd files w cfg w1 msg :
  mp2rage_configure fi si it fa itr etr n eff b1 b1map w = (Val cfg, w1) →
  jvm_execute (trace w1) = inl msg →
  (mp2rage_compute fi si it fa itr etr n eff b1 b1map sd files w).1
    = Exc (JavaError msg).
Proof.
  intros Ec Ex. unfold mp2rage_compute.
  rewrite (bind_Val _ _ _ _ _ Ec). destruct cfg as [[dims aff] hdr].
  pose proof (execute_guarded_fails mp2rage_globals _ _ Ex) as Hf.
  unfold bind. rewrite Hf, mp2rage_has_sys. done.
Qed.

Lemma lcpca_reraises_native_failure
    il pl ngb cut dmin dmax sd files w cfg w1 msg :
  lcpca_configure il pl ngb cut dmin dmax w = (Val cfg, w1) →
  jvm_execute (trace w1) = inl msg →
  (lcpca_run il pl ngb cut dmin dmax sd files w).1 = Exc (JavaError msg).
Proof.
  intros Ec Ex. unfold lcpca_run.
  rewrite (bind_Val _ _ _ _ _ Ec). destruct cfg as [[dims aff] hdr].
  pose proof (execute_guarded_fails lcpca_globals _ _ Ex) as Hf.
  unfold bind. rewrite Hf, lcpca_has_sys. done.
Qed.

End remaining.
(* ===================================================================== *)
(** ** What the caller sees when execute() throws *)
(* ===================================================================== *)

Ltac quiet_auto :=
  unfold flash_configure, lcpca_configure, mp2rage_configure,
    levelset_configure;
  emits_auto;
  try solve [intros; simpl; try match goal with e : exn |- _ => destruct e end;
             done].

Section native_failure.
Context {Num : Numeric} {U : Utils} {J : Native}.
Implicit Types (w : world).

Lemma emitted_of_extends w0 w : extends w0 w → trace w = trace w0 ++ emitted w0 w.
Proof. intros [evs T]. by rewrite (emitted_app w0 w evs). Qed.

(** A statement that cannot run execute(), followed by a continuation:
    if execute() was run after all, the statement returned normally. *)
Lemma reached_execute_bind {A B} (m : M A) (k : A → M B) w0 w :
  emits (λ e, e ≠ EvExecute) m →
  extends w0 w → EvExecute ∉ emitted w0 w →
  EvExecute ∈ emitted w0 (bind m k w).2 →
  ∃ a w1, m w = (Val a, w1) ∧ bind m k w = k a w1 ∧
          extends w0 w1 ∧ EvExecute ∉ emitted w0 w1.
Proof.
  intros Hm Hx Hn Hex. pose proof (Hm w) as (evs & T & F & _).
  pose proof (emitted_of_extends _ _ Hx) as T0.
  assert (emitted w0 (m w).2 = emitted w0 w ++ evs) as Em.
  { apply emitted_app. by rewrite T, T0 at 1; rewrite app_assoc. }
  assert (EvExecute ∉ emitted w0 (m w).2) as Hn'.
  { rewrite Em. intros [?|Hin]%elem_of_app; [done|].
    rewrite Forall_forall in F. by apply (F _ Hin). }
  destruct (m w) as [[a|e] w1] eqn:E; simpl in *.
  - exists a, w1. split; [done|]. split; [by apply bind_Val|].
    split; [|done]. exists (emitted w0 w ++ evs).
    by rewrite T, T0 at 1; rewrite app_assoc.
  - rewrite (bind_Exc _ _ _ _ _ E) in Hex. done.
Qed.

Lemma gate_event_not_execute (e : event) :
  is_gate_event e = true → e ≠ EvExecute.
Proof. by intros H ->. Qed.

Lemma gate_stays_before_execute {A} (m : M A) :
  emits (λ e, is_gate_event e = true) m → emits (λ e, e ≠ EvExecute) m.
Proof.
  intros Hm w. apply (step_ok_weaken (λ e, is_gate_event e = true));
    [apply gate_event_not_execute | intros p; apply gate_event_not_save
     | apply Hm].
Qed.

Lemma flash_configure_before_execute il te :
  emits (λ e, e ≠ EvExecute) (flash_configure il te).
Proof. quiet_auto. Qed.

Lemma lcpca_configure_before_execute il pl ngb cut dmin dmax :
  emits (λ e, e ≠ EvExecute) (lcpca_configure il pl ngb cut dmin dmax).
Proof. quiet_auto. Qed.

Lemma mp2rage_configure_before_execute fi si it fa itr etr n eff b1 b1map :
  emits (λ e, e ≠ EvExecute)
    (mp2rage_configure fi si it fa itr etr n eff b1 b1map).
Proof. quiet_auto. Qed.

Lemma levelset_configure_before_execute imgs topo lut :
  emits (λ e, e ≠ EvExecute) (levelset_configure imgs topo lut).
Proof. quiet_auto. Qed.

Lemma fails_with_bind {A B} w0 e (m : M A) (k : A → M B) :
  emits (λ e, e ≠ EvExecute) m →
  (∀ a, fails_with w0 e (k a)) → fails_with w0 e (bind m k).
Proof.
  intros Hm Hk w Hx Hn Hex.
  destruct (reached_execute_bind _ _ _ _ Hm Hx Hn Hex)
    as (a & w1 & _ & Eb & Hx1 & Hn1).
  rewrite Eb in *. by apply Hk.
Qed.

Lemma fails_with_ret {A} w0 e (a : A) : fails_with w0 e (ret a).
Proof. intros w Hx Hn Hex. done. Qed.

Lemma fails_with_log {B} w0 e ev (k : unit → M B) :
  ev ≠ EvExecute → fails_with w0 e (k ()) → fails_with w0 e (bind (log ev) k).
Proof.
  intros He Hk. apply fails_with_bind; [by apply emits_log|]. by intros [].
Qed.

(** The handler's first line is printed, and what is raised depends on
    whether the module can name [sys]. *)
Lemma fails_with_guarded {B} (globals : list string)
    (k : (string → list jarg → list jfloat) → M B) w0 msg :
  (∀ tr, jvm_execute tr = inl msg) →
  fails_with w0
    (if bool_decide ("sys" ∈ globals) then JavaError msg else NameError "sys")
    (bind (execute_guarded globals) k).
Proof.
  intros Hfail w1 Hx1 _ _.
  pose proof (execute_guarded_fails globals w1 msg (Hfail _)) as Hf.
  pose proof (emitted_of_extends _ _ Hx1) as T1.
  assert (∀ evs,
    emitted w0 (World (fs w1) (heap w1) (trace w1 ++ evs))
      = emitted w0 w1 ++ evs) as Em.
  { intros evs. apply emitted_app. cbn [trace].
    rewrite T1 at 1. by rewrite <- app_assoc. }
  unfold failure_seen.
  destruct (bool_decide ("sys" ∈ globals));
    rewrite (bind_Exc _ _ _ _ _ Hf); cbn [fst snd];
    (split; [done|]); rewrite Em; apply elem_of_app; right; elem_solve.
Qed.

Lemma flash_fails_with il te sd ov od fn w0 msg :
  (∀ tr, jvm_execute tr = inl msg) →
  fails_with w0 (JavaError msg) (flash_t2s_fitting il te sd ov od fn).
Proof.
  intros Hfail. unfold flash_t2s_fitting, print.
  apply fails_with_log; [done|].
  apply fails_with_bind;
    [apply gate_stays_before_execute, flash_gate_quiet|].
  intros [out|files]; [apply fails_with_ret|]. unfold flash_compute.
  apply fails_with_bind; [apply flash_configure_before_execute|].
  intros [[dims aff] hdr].
  pose proof (fails_with_guarded flash_globals
    (λ r, flash_collect r dims aff hdr sd files) w0 msg Hfail) as H.
  by rewrite flash_has_sys in H.
Qed.

Lemma mp2rage_fails_with fi si it fa itr etr n eff b1 b1map sd ov od fn
    w0 msg :
  (∀ tr, jvm_execute tr = inl msg) →
  fails_with w0 (JavaError msg)
    (mp2rage_t1_mapping fi si it fa itr etr n eff b1 b1map sd ov od fn).
Proof.
  intros Hfail. unfold mp2rage_t1_mapping, print.
  apply fails_with_log; [done|].
  apply fails_with_bind;
    [apply gate_stays_before_execute, mp2rage_gate_quiet|].
  intros [out|files]; [apply fails_with_ret|]. unfold mp2rage_compute.
  apply fails_with_bind; [apply mp2rage_configure_before_execute|].
  intros [[dims aff] hdr].
  pose proof (fails_with_guarded mp2rage_globals
    (λ r, mp2rage_collect r dims aff hdr sd files) w0 msg Hfail) as H.
  by rewrite mp2rage_has_sys in H.
Qed.

Lemma lcpca_run_fails_with il pl ngb cut dmin dmax sd files w0 msg :
  (∀ tr, jvm_execute tr = inl msg) →
  fails_with w0 (JavaError msg) (lcpca_run il pl ngb cut dmin dmax sd files).
Proof.
  intros Hfail. unfold lcpca_run.
  apply fails_with_bind; [apply lcpca_configure_before_execute|].
  intros [[dims aff] hdr].
  pose proof (fails_with_guarded lcpca_globals
    (λ r, lcpca_collect r il pl dims aff hdr sd files) w0 msg Hfail) as H.
  by rewrite lcpca_has_sys in H.
Qed.

Lemma lcpca_fails_with il pl ngb cut dmin dmax sd ov od fn w0 msg :
  (∀ tr, jvm_execute tr = inl msg) →
  fails_with w0 (JavaError msg)
    (lcpca_denoising il pl ngb cut dmin dmax sd ov od fn).
Proof.
  intros Hfail. unfold lcpca_denoising, print.
  apply fails_with_log; [done|].
  apply fails_with_bind;
    [apply gate_stays_before_execute, lcpca_gate_quiet|].
  intros [out|files]; [apply fails_with_ret|].
  unfold lcpca_compute, initVM, jnew, jcall, print.
  do 3 (apply fails_with_log; [done|]).
  destruct pl as [pl|]; [|by apply lcpca_run_fails_with].
  case_bool_decide; [|by apply lcpca_run_fails_with].
  apply fails_with_log; [done|]. apply fails_with_ret.
Qed.

Lemma levelset_fails_with imgs topo lut sd ov od fn w0 msg :
  (∀ tr, jvm_execute tr = inl msg) →
  fails_with w0 (NameError "sys") (levelset_fusion imgs topo lut sd ov od fn).
Proof.
  intros Hfail. unfold levelset_fusion, print, check_topology_lut_dir.
  apply fails_with_log; [done|].
  apply fails_with_bind; [apply emits_lift_sum|]. intros lut'.
  apply fails_with_bind;
    [apply gate_stays_before_execute, levelset_gate_quiet|].
  intros [out|files]; [apply fails_with_ret|]. unfold levelset_compute.
  apply fails_with_bind; [apply levelset_configure_before_execute|].
  intros [[dims aff] hdr].
  pose proof (fails_with_guarded levelset_globals
    (λ r, levelset_collect r dims aff hdr sd files) w0 msg Hfail) as H.
  by rewrite levelset_has_no_sys in H.
Qed.

(** C2. Let execute() throw a Java exception with message [msg], and
    let a call get as far as running it.  For flash_t2s_fitting,
    lcpca_denoising and mp2rage_t1_mapping the handler logs its
    message and the caller sees that Java exception, as claimed.  For
    levelset_fusion the handler logs the message and then fails on the
    name [sys], which the module never imports: the caller sees a
    NameError in place of the native exception. *)
Theorem native_failure_reraised_except_by_levelset_fusion
    (c : api_call) w msg :
  (∀ tr, jvm_execute tr = inl msg) →
  EvExecute ∈ emitted w (invoke c w).2 →
  (invoke c w).1 =
    Exc (match c with
         | LevelsetFusion _ _ _ _ => NameError "sys"
         | _ => JavaError msg
         end) ∧
  EvPrint (nl +:+ " The underlying Java code did not execute cleanly: ")
    ∈ emitted w (invoke c w).2.
Proof.
  intros Hfail Hex.
  assert (EvExecute ∉ emitted w w) as Hn.
  { rewrite (emitted_app w w []) by (by rewrite app_nil_r). by intros ?%elem_of_nil. }
  destruct c as [il te o|il pl ngb cut dmin dmax o
                |fi si it fa itr etr n eff b1 b1map o|imgs topo lut o];
    destruct o as [sd ov od fn]; cbn [invoke save_data overwrite output_dir
                                      file_name] in *.
  - by apply (flash_fails_with il te sd ov od fn w msg Hfail w (extends_refl w)).
  - by apply (lcpca_fails_with il pl ngb cut dmin dmax sd ov od fn w msg Hfail
                w (extends_refl w)).
  - by apply (mp2rage_fails_with fi si it fa itr etr n eff b1 b1map
                sd ov od fn w msg Hfail w (extends_refl w)).
  - by apply (levelset_fails_with imgs topo lut sd ov od fn w msg Hfail
                w (extends_refl w)).
Qed.

End native_failure.
(* ===================================================================== *)
(** ** The claims on concrete runs *)
(* ===================================================================== *)

Section witnesses.
Import Demo.

(** C3, the claim as written fails: two magnitude images and one phase
    image, nothing saved.  The JVM is started, the algorithm object is
    created and setImageNumber(2) is called before the mismatch is
    printed. *)
Lemma lcpca_mismatch_reported_after_native_calls :
  emitted (world0 (2, 2, 2))
    (@invoke numeric utils (native_ok 8) (lcpca_mismatched no_save)
       (world0 (2, 2, 2))).2
    = [EvPrint (nl +:+ "LCPCA denoising"); EvInitVM;
       EvNew "IntensityComplexPCADenoising";
       EvCall "setImageNumber" [JInt 2];
       EvPrint mismatch_msg] ∧
  ¬ reported_before_native
      (emitted (world0 (2, 2, 2))
         (@invoke numeric utils (native_ok 8) (lcpca_mismatched no_save)
            (world0 (2, 2, 2))).2).
Proof.
  assert (emitted (world0 (2, 2, 2))
    (@invoke numeric utils (native_ok 8) (lcpca_mismatched no_save)
       (world0 (2, 2, 2))).2
    = [EvPrint (nl +:+ "LCPCA denoising"); EvInitVM;
       EvNew "IntensityComplexPCADenoising";
       EvCall "setImageNumber" [JInt 2];
       EvPrint mismatch_msg]) as E by (by vm_compute).
  split; [done|]. rewrite E. intros (pre & post & Hs & Hn).
  destruct pre as [|e0 [|e1 pre]]; simplify_eq/=.
  apply Forall_cons in Hn as [_ Hn]. apply Forall_cons in Hn as [Hn _].
  done.
Qed.


(** C2, on two stored level sets and a native library that throws:
    the caller of levelset_fusion sees NameError. *)
Lemma levelset_fusion_native_failure_witness :
  (@invoke numeric utils native_fail (levelset_call no_save)
     (world0 (2, 2, 2))).1 = Exc (NameError "sys") ∧
  EvPrint (nl +:+ " The underlying Java code did not execute cleanly: ")
    ∈ emitted (world0 (2, 2, 2))
        (@invoke numeric utils native_fail (levelset_call no_save)
           (world0 (2, 2, 2))).2.
Proof.
  apply (native_failure_reraised_except_by_levelset_fusion
           (Num := numeric) (U := utils) (J := native_fail)
           (levelset_call no_save) (world0 (2, 2, 2))
           "java.lang.ArithmeticException").
  - intros tr. reflexivity.
  - vm_compute. elem_solve.
Defined.

(** C3 as amended, on two magnitude images and one phase image: with
    nothing to be saved the mismatch is reported after three native
    calls; asked to save with an empty image list, the call raises
    IndexError before any native call. *)
Lemma lcpca_mismatch_aborts_before_any_push_witness :
  (Forall (λ e, is_push_or_run e = false)
     (emitted (world0 (2, 2, 2))
        (@invoke numeric utils (native_ok 8) (lcpca_mismatched no_save)
           (world0 (2, 2, 2))).2) ∧
   @invoke numeric utils (native_ok 8) (lcpca_mismatched no_save)
     (world0 (2, 2, 2))
   = (Val None,
      World (disk (2, 2, 2)) []
        [EvPrint (nl +:+ "LCPCA denoising"); EvInitVM;
         EvNew "IntensityComplexPCADenoising";
         EvCall "setImageNumber" [JInt 2];
         EvPrint mismatch_msg])) ∧
  @invoke numeric utils (native_ok 8)
    (@LcpcaDenoising numeric [] (Some [FromFile "echo1.nii"])
       4 (Num 1) 0 (-1) (save_to_out false))
    (world0 (2, 2, 2))
  = (Exc IndexError,
     World (disk (2, 2, 2)) [] [EvPrint (nl +:+ "LCPCA denoising")]).
Proof.
  split.
  - destruct (lcpca_mismatch_aborts_before_any_push
                (Num := numeric) (U := utils) (J := native_ok 8)
                echoes [FromFile "echo1.nii"] 4 (Num 1) 0 (-1)
                false false None None (world0 (2, 2, 2)))
      as (Hquiet & _ & Hres & _).
    + simpl. lia.
    + split; [exact Hquiet | exact (Hres eq_refl)].
  - destruct (lcpca_mismatch_aborts_before_any_push
                (Num := numeric) (U := utils) (J := native_ok 8)
                [] [FromFile "echo1.nii"] 4 (Num 1) 0 (-1)
                true false (Some "out") None (world0 (2, 2, 2)))
      as (_ & _ & _ & _ & _ & Hraise).
    + simpl. lia.
    + exact (Hraise eq_refl eq_refl).
Defined.

(** C4, on the FLASH scenario with the residuals file deleted after a
    saving run. *)
Lemma partial_cache_recomputes_everything_witness :
  (∃ checks post,
     trace (@invoke numeric utils (native_ok 8)
              (flash_call (save_to_out false)) flash_partly_saved).2
       = trace (prologue_end (flash_call (save_to_out false))
                  flash_partly_saved)
           ++ checks ++ EvInitVM :: EvNew "IntensityFlashT2sFitting" :: post ∧
     Forall (λ e, is_isfile e = true) checks) ∧
  (∀ out w',
     @invoke numeric utils (native_ok 8)
       (flash_call (save_to_out false)) flash_partly_saved
       = (Val (Some out), w') →
     (∃ (r : string → list (@jarg numeric) → list num) dims,
        (∃ tr, @jvm_execute numeric (native_ok 8) tr = inr r) ∧
        Forall (@from_native numeric r dims) (images_of out)) ∧
     Forall (λ p, EvSave p ∈ emitted flash_partly_saved w')
       (resolved (flash_call (save_to_out false)) flash_partly_saved)).
Proof.
  apply (partial_cache_recomputes_everything
           (Num := numeric) (U := utils) (J := native_ok 8)
           (flash_call (save_to_out false)) flash_partly_saved
           (resolved (flash_call (save_to_out false)) flash_partly_saved)
           (prologue_end (flash_call (save_to_out false))
              flash_partly_saved));
    [reflexivity | reflexivity | by vm_compute |].
  exists "out/echo1.nii_qt2fit-err.nii". split.
  - vm_compute. elem_solve.
  - by vm_compute.
Defined.

(** C5, on the FLASH scenario with 2x2x2 echoes, nothing saved. *)
Lemma outputs_reshaped_column_major_witness :
  ∃ inp d X Y Z (r : string → list (@jarg numeric) → list num),
    first_input (flash_call no_save) = Some inp ∧
    input_data (fs (world0 (2, 2, 2))) inp = Some d ∧
    shape d = (X, Y, Z) ∧
    (∃ tr, @jvm_execute numeric (native_ok 8) tr = inr r) ∧
    Forall (λ img,
      shape (img_data img) = (X, Y, Z) ∧
      ∃ meth args,
        reshape_F (@np_float32 numeric <$> r meth args) (X, Y, Z)
          = Some (img_data img) ∧
        flatten_F (img_data img) = @np_float32 numeric <$> r meth args ∧
        ∀ x y z, x < X → y < Y → z < Z →
          getitem3 (img_data img) x y z
            = (@np_float32 numeric <$> r meth args) !! (x + X * (y + Y * z)))
      (images_of (returned (native_ok 8) (flash_call no_save)
                    (world0 (2, 2, 2)))).
Proof.
  apply (outputs_reshaped_column_major
           (Num := numeric) (U := utils) (J := native_ok 8)
           (flash_call no_save) (world0 (2, 2, 2))
           (returned (native_ok 8) (flash_call no_save) (world0 (2, 2, 2)))
           (@invoke numeric utils (native_ok 8) (flash_call no_save)
              (world0 (2, 2, 2))).2).
  - by vm_compute.
  - vm_compute. elem_solve.
Defined.

(** C6, on a level set fusion of two stored 2x2x2 volumes. *)
Lemma outputs_carry_affine_and_own_range_witness :
  ∃ inp aff,
    first_input (levelset_call no_save) = Some inp ∧
    input_affine (fs (world0 (2, 2, 2))) inp = Some aff ∧
    Forall (λ img,
      img_affine img = aff ∧
      ∃ h, heap (@invoke numeric utils (native_ok 8) (levelset_call no_save)
                   (world0 (2, 2, 2))).2 !! img_header img = Some h ∧
           reduce (@np_fmin numeric) (elems (img_data img))
             = Some (cal_min h) ∧
           reduce (@np_fmax numeric) (elems (img_data img))
             = Some (cal_max h))
      (images_of (returned (native_ok 8) (levelset_call no_save)
                    (world0 (2, 2, 2)))).
Proof.
  apply (outputs_carry_affine_and_own_range
           (Num := numeric) (U := utils) (J := native_ok 8)
           (levelset_call no_save) (world0 (2, 2, 2))
           (returned (native_ok 8) (levelset_call no_save)
              (world0 (2, 2, 2)))
           (@invoke numeric utils (native_ok 8) (levelset_call no_save)
              (world0 (2, 2, 2))).2).
  - by vm_compute.
  - vm_compute. elem_solve.
Defined.

(** C7, on the scenario of the specification: two 4x4x4 echoes with
    echo times 10 and 20, nothing saved. *)
Lemma no_save_no_filesystem_writes_witness :
  (fs (@invoke numeric utils (native_ok 64) (flash_call no_save)
         (world0 (4, 4, 4))).2 = fs (world0 (4, 4, 4)) ∧
   Forall (λ e, is_write e = false)
     (emitted (world0 (4, 4, 4))
        (@invoke numeric utils (native_ok 64) (flash_call no_save)
           (world0 (4, 4, 4))).2)) ∧
  ∃ t2s r2s s0 err w',
    @invoke numeric utils (native_ok 64) (flash_call no_save)
      (world0 (4, 4, 4)) =
      (Val (Some [("t2s", VImg t2s); ("r2s", VImg r2s); ("s0", VImg s0);
                  ("residuals", VImg err)]), w') ∧
    shape (img_data t2s) = (4, 4, 4) ∧ shape (img_data r2s) = (4, 4, 4) ∧
    shape (img_data s0) = (4, 4, 4) ∧ shape (img_data err) = (4, 4, 4).
Proof.
  destruct (no_save_no_filesystem_writes
              (Num := numeric) (U := utils) (J := native_ok 64)
              (flash_call no_save) (world0 (4, 4, 4)) eq_refl)
    as [Hquiet Hscenario].
  split; [exact Hquiet|].
  apply (Hscenario (FromFile "echo1.nii") (FromFile "echo2.nii")
           (Num 10) (Num 20) false None None
           (vol (4, 4, 4) 100) (vol (4, 4, 4) 200) hdr0).
  - reflexivity.
  - by vm_compute.
  - reflexivity.
  - by vm_compute.
  - reflexivity.
  - by vm_compute.
  - reflexivity.
  - intros tr. eexists. split; [reflexivity|].
    intros m a. unfold ramp. by rewrite length_fmap, length_seq.
Defined.

(** C9, on the FLASH scenario with all four outputs of an earlier
    saving run on disk: with save_data=False they are never looked
    at. *)
Lemma no_save_never_consults_cache_witness :
  (∀ o, save_data o = false →
     @invoke numeric utils (native_ok 8)
       (with_options (flash_call no_save) o) flash_saved
     = @invoke numeric utils (native_ok 8) (flash_call no_save)
         flash_saved) ∧
  Forall (λ e, is_cache_event e = false)
    (emitted flash_saved
       (@invoke numeric utils (native_ok 8) (flash_call no_save)
          flash_saved).2) ∧
  ∃ post,
    trace (@invoke numeric utils (native_ok 8) (flash_call no_save)
             flash_saved).2
      = [EvPrint (nl +:+ "T2* Fitting"); EvInitVM;
         EvNew "IntensityFlashT2sFitting"] ++ post.
Proof.
  destruct (no_save_never_consults_cache
              (Num := numeric) (U := utils) (J := native_ok 8)
              (flash_call no_save) flash_saved eq_refl)
    as (Hflags & Hquiet & post & Hpost).
  split; [exact Hflags|]. split; [exact Hquiet|].
  exists post. exact Hpost.
Defined.

(** C10, on two magnitude and two phase images, nothing saved. *)
Lemma lcpca_denoised_magnitudes_then_phases_witness :
  ∃ dims (r : string → list (@jarg numeric) → list num) denoised dim err,
    (∃ tr, @jvm_execute numeric (native_ok 8) tr = inr r) ∧
    returned (native_ok 8) (lcpca_call no_save) (world0 (2, 2, 2))
      = [("denoised", VList denoised); ("dimensions", VImg dim);
         ("residuals", VImg err)] ∧
    length echoes = length echoes ∧
    length denoised = length echoes + length echoes ∧
    (∀ i, i < length echoes → ∃ img,
       denoised !! i = Some img ∧
       reshape_F (@np_float32 numeric <$>
                    r "getDenoisedMagnitudeImageAt" [JInt (Z.of_nat i)]) dims
         = Some (img_data img)) ∧
    (∀ j, j < length echoes → ∃ img,
       denoised !! (length echoes + j) = Some img ∧
       reshape_F (@np_float32 numeric <$>
                    r "getDenoisedPhaseImageAt" [JInt (Z.of_nat j)]) dims
         = Some (img_data img)).
Proof.
  apply (lcpca_denoised_magnitudes_then_phases
           (Num := numeric) (U := utils) (J := native_ok 8)
           echoes echoes 4 (Num 1) 0 (-1) false false None None
           (world0 (2, 2, 2))
           (returned (native_ok 8) (lcpca_call no_save) (world0 (2, 2, 2)))
           (@invoke numeric utils (native_ok 8) (lcpca_call no_save)
              (world0 (2, 2, 2))).2).
  - by vm_compute.
  - vm_compute. elem_solve.
Defined.

(** C8, on the FLASH scenario: the array pushed for the first echo.
    Voxel (1, 0, 0), stored fifth in the row-major volume, is pushed
    second. *)
Lemma inputs_pushed_column_major_as_java_floats_witness :
  ∃ inp d,
    inp ∈ pushed_inputs (flash_call no_save) ∧
    input_data (fs (world0 (2, 2, 2))) inp = Some d ∧
    ([Num 100; Num 104; Num 102; Num 106;
        Num 101; Num 105; Num 103; Num 107] : list (@jfloat numeric))
      = @JArray_float numeric <$> (@astype_float numeric <$> flatten_F d) ∧
    (wf d → ∀ x y z, in_bounds (shape d) x y z →
       ([Num 100; Num 104; Num 102; Num 106;
        Num 101; Num 105; Num 103; Num 107] : list (@jfloat numeric)) !! ravel_F (shape d) x y z
         = (λ v, @JArray_float numeric (@astype_float numeric v))
             <$> getitem3 d x y z).
Proof.
  apply (proj1 (Forall_forall _ _)
           (inputs_pushed_column_major_as_java_floats
              (Num := numeric) (U := utils) (J := native_ok 8)
              (flash_call no_save) (world0 (2, 2, 2)))
           (EvCall "setEchoImageAt"
              [@JInt numeric 0;
               @JFloatArray numeric
                 ([Num 100; Num 104; Num 102; Num 106;
        Num 101; Num 105; Num 103; Num 107] : list (@jfloat numeric))])
        ) with (meth := "setEchoImageAt")
               (args := [@JInt numeric 0;
                         @JFloatArray numeric
                           ([Num 100; Num 104; Num 102; Num 106;
        Num 101; Num 105; Num 103; Num 107] : list (@jfloat numeric))]).
  - vm_compute. elem_solve.
  - reflexivity.
  - elem_solve.
Defined.

End witnesses.

(* ===================================================================== *)
(** ** An empty input list *)
(* ===================================================================== *)

Section edge.
Context {Num : Numeric} {U : Utils} {J : Native}.
Implicit Types (w : world).

Lemma logged_nil w : logged w [] = w.
Proof. destruct w. unfold logged. simpl. by rewrite app_nil_r. Qed.

Lemma logged_app w evs1 evs2 :
  logged (logged w evs1) evs2 = logged w (evs1 ++ evs2).
Proof. unfold logged. simpl. by rewrite app_assoc. Qed.

Lemma plain_step_log P e : P e → plain_step P (log e).
Proof. intros He w. exists [e]. split; [by Forall_split|]. right. by exists (). Qed.

Lemma plain_step_ret {A} P (a : A) : plain_step P (ret a).
Proof.
  intros w. exists []. split; [done|]. right. exists a.
  by rewrite logged_nil.
Qed.

Lemma plain_step_getitem {A} P (l : list A) i : plain_step P (getitem l i).
Proof.
  intros w. exists []. split; [done|]. rewrite logged_nil. unfold getitem.
  destruct (l !! i) as [a|]; [right; by exists a | by left].
Qed.

Lemma raises_getitem_nil {A B} P i (k : A → M B) :
  raises_index_error P (bind (getitem [] i) k).
Proof. intros w. exists []. by rewrite logged_nil. Qed.

Lemma raises_bind {A B} P (m : M A) (k : A → M B) :
  plain_step P m → (∀ a, raises_index_error P (k a)) →
  raises_index_error P (bind m k).
Proof.
  intros Hm Hk w. destruct (Hm w) as (evs & F & [E|[a E]]).
  - exists evs. by rewrite (bind_Exc _ _ _ _ _ E).
  - destruct (Hk a (logged w evs)) as (evs' & E' & F').
    exists (evs ++ evs'). rewrite (bind_Val _ _ _ _ _ E), E', logged_app.
    split; [done|]. by apply Forall_app.
Qed.

Lemma raises_bind_left {A B} P (m : M A) (k : A → M B) :
  raises_index_error P m → raises_index_error P (bind m k).
Proof.
  intros Hm w. destruct (Hm w) as (evs & E & F). exists evs.
  by rewrite (bind_Exc _ _ _ _ _ E).
Qed.

Lemma raises_bind_ret {A B} P (a : A) (k : A → M B) :
  raises_index_error P (k a) → raises_index_error P (bind (ret a) k).
Proof. done. Qed.

Ltac raises_step :=
  lazymatch goal with
  | |- raises_index_error _ (bind (getitem [] _) _) =>
      apply raises_getitem_nil
  | |- raises_index_error _ (bind (ret _) _) =>
      apply raises_bind_ret; cbv beta iota
  | |- raises_index_error _ (bind (log _) _) =>
      apply raises_bind; [apply plain_step_log; done|intro]
  | |- raises_index_error _ (bind (getitem _ _) _) =>
      apply raises_bind; [apply plain_step_getitem|intro]
  | |- raises_index_error _ (bind (bind _ _) _) =>
      apply raises_bind_left
  end.

Ltac raises_auto :=
  unfold print, initVM, jnew, jcall; repeat raises_step.

Lemma raised_outcome {A} P (m : M A) w :
  raises_index_error P m →
  (m w).1 = Exc IndexError ∧ fs (m w).2 = fs w ∧ Forall P (emitted w (m w).2).
Proof.
  intros Hm. destruct (Hm w) as (evs & -> & F). cbn [fst snd].
  split; [done|]. split; [done|].
  by rewrite (emitted_app w (logged w evs) evs).
Qed.

(** Edge case: the list whose first entry names the outputs is empty.
    Every wrapper raises IndexError on its first [x[0]]: under
    save_data=True that is the argument of _output_dir_4saving, ahead
    of any native call; otherwise the JVM has been started and the
    object created, but no array was pushed and execute() was not
    run.  Nothing is written either way. *)
Theorem empty_input_raises_index_error (c : api_call) w :
  first_input c = None →
  match c with
  | LcpcaDenoising _ (Some pl) _ _ _ _ o => save_data o = true ∨ pl = []
  | LevelsetFusion _ _ lut _ => ∃ d, _check_topology_lut_dir lut = inr d
  | _ => True
  end →
  (invoke c w).1 = Exc IndexError ∧
  fs (invoke c w).2 = fs w ∧
  Forall (λ e, is_push_or_run e = false ∧ is_write e = false)
    (emitted w (invoke c w).2) ∧
  (save_data (options c) = true →
     Forall (λ e, is_native e = false) (emitted w (invoke c w).2)).
Proof.
  intros Hfirst Hside.
  assert (raises_index_error
            (λ e, (is_push_or_run e = false ∧ is_write e = false) ∧
                  (save_data (options c) = true → is_native e = false))
            (invoke c)) as Hr.
  { destruct c as [il te o|il pl ngb cut dmin dmax o
                  |fi si it fa itr etr n eff b1 b1map o|imgs topo lut o];
      destruct o as [sd ov od fn]; cbn [first_input] in Hfirst;
      cbn [invoke options save_data overwrite output_dir file_name] in *.
    - destruct il; [|done].
      unfold flash_t2s_fitting, flash_gate, flash_files, flash_compute,
        flash_configure.
      destruct sd; raises_auto.
    - destruct il; [|done].
      unfold lcpca_denoising, lcpca_gate, lcpca_files, lcpca_compute.
      destruct sd; raises_auto.
      destruct pl as [pl|].
      + destruct Hside as [?| ->]; [done|].
        rewrite bool_decide_eq_false_2 by (simpl; lia).
        unfold lcpca_run, lcpca_configure. raises_auto.
      + unfold lcpca_run, lcpca_configure. raises_auto.
    - destruct fi; [|done].
      unfold mp2rage_t1_mapping, mp2rage_gate, mp2rage_files,
        mp2rage_compute, mp2rage_configure.
      destruct sd; raises_auto.
    - destruct imgs; [|done]. destruct Hside as [d Hd].
      unfold levelset_fusion, check_topology_lut_dir. rewrite Hd.
      unfold lift_sum, levelset_gate, levelset_files, levelset_compute,
        levelset_configure.
      destruct sd; raises_auto. }
  destruct (raised_outcome _ _ w Hr) as (E & Hfs & F).
  split; [done|]. split; [done|]. split.
  - eapply Forall_impl; [exact F|]. by intros e [? _].
  - intros Hsd. eapply Forall_impl; [exact F|]. intros e [_ ?]. auto.
Qed.

End edge.

(* ===================================================================== *)
(** ** Denoising magnitudes only *)
(* ===================================================================== *)


Section lcpca_magnitudes.
Context {Num : Numeric} {U : Utils} {J : Native}.
Implicit Types (w : world).

Lemma lcpca_magnitude_only_quiet il ngb cut dmin dmax sd ov od fn :
  emits (λ e, is_phase_event e = false)
    (lcpca_denoising il None ngb cut dmin dmax sd ov od fn).
Proof.
  unfold lcpca_denoising.
  apply emits_bind; [by apply emits_log|intros _].
  apply emits_bind.
  { intros w. apply (step_ok_weaken (λ e, is_gate_event e = true));
      [by intros []|done|apply lcpca_gate_quiet]. }
  intros [o|fo]; [apply emits_ret|].
  unfold lcpca_compute. trace_auto.
Qed.

(** Without a phase list, a computed call of lcpca_denoising that
    succeeds returns under 'denoised' exactly len(image_list) images,
    entry i reshaped from getDenoisedMagnitudeImageAt(i); it never
    calls setPhaseImageAt or getDenoisedPhaseImageAt. *)
Theorem lcpca_without_phases_returns_magnitudes
    il ngb cut dmin dmax sd ov od fn w out w' :
  lcpca_denoising il None ngb cut dmin dmax sd ov od fn w
    = (Val (Some out), w') →
  EvExecute ∈ emitted w w' →
  ∃ dims (r : string → list jarg → list jfloat) denoised dim err,
    (∃ tr, jvm_execute tr = inr r) ∧
    out = [("denoised", VList denoised); ("dimensions", VImg dim);
           ("residuals", VImg err)] ∧
    length denoised = length il ∧
    (∀ i, i < length il → ∃ img,
       denoised !! i = Some img ∧
       reshape_F (np_float32 <$>
                    r "getDenoisedMagnitudeImageAt" [JInt (Z.of_nat i)]) dims
         = Some (img_data img)) ∧
    Forall (λ e, is_phase_event e = false) (emitted w w').
Proof.
  intros H Hex.
  pose proof (emits_run _ _ _ _ _
    (lcpca_magnitude_only_quiet il ngb cut dmin dmax sd ov od fn) H) as Hq.
  apply step_ok_emitted in Hq.
  destruct (lcpca_decompose _ _ _ _ _ _ _ _ _ _ _ _ _ H)
    as (dims & aff & hdr & r & mags & phases & dim & err & HD & Hr & ->
        & Lm & Lp & Hlen & Dm & Dp & HF & HS); [by exists EvExecute|].
  simpl in Lp. destruct phases; [|done]. rewrite app_nil_r.
  exists dims, r, mags, dim, err. repeat (split; [done|]).
  split; [|done].
  intros i Hi. destruct (lookup_lt_is_Some_2 mags i) as [img Him]; [lia|].
  exists img. split; [done|]. by apply Dm.
Qed.

End lcpca_magnitudes.

(* ===================================================================== *)
(** ** Saving comes last *)
(* ===================================================================== *)

Ltac nosave_auto :=
  unfold flash_configure, lcpca_configure, mp2rage_configure,
    levelset_configure;
  emits_auto;
  try solve [intros; simpl; try match goal with e : exn |- _ => destruct e end;
             done].

Section saving_last.
Context {Num : Numeric} {U : Utils} {J : Native}.
Implicit Types (w : world).

Lemma settled_quiet {A} w0 (r : res A) w :
  step_ok (λ e, is_save e = false) w0 w → settled w0 (r, w).
Proof.
  intros S. exists w, []. split; [done|]. split; [by rewrite app_nil_r|].
  split; [done|]. done.
Qed.

Lemma settled_bind {A B} w0 (m : M A) (k : A → M B) w :
  emits (λ e, is_save e = false) m →
  step_ok (λ e, is_save e = false) w0 w →
  (∀ a w', m w = (Val a, w') → step_ok (λ e, is_save e = false) w0 w' →
           settled w0 (k a w')) →
  settled w0 (bind m k w).
Proof.
  intros Hm S Hk. destruct (m w) as [[a|e] w'] eqn:E.
  - rewrite (bind_Val _ _ _ _ _ E). apply Hk; [done|].
    eapply step_ok_trans; [exact S|]. by eapply emits_run.
  - rewrite (bind_Exc _ _ _ _ _ E). apply settled_quiet.
    eapply step_ok_trans; [exact S|]. by eapply emits_run.
Qed.

Lemma settled_saves {A} w0 (a : A) w w' post :
  step_ok (λ e, is_save e = false) w0 w →
  trace w' = trace w ++ post → Forall (λ e, is_save e = true) post →
  settled w0 (Val a, w').
Proof. intros S T F. exists w, post. by repeat split. Qed.

Lemma gate_keeps_files {A} (m : M A) :
  emits (λ e, is_gate_event e = true) m → emits (λ e, is_save e = false) m.
Proof.
  intros Hm w. apply (step_ok_weaken (λ e, is_gate_event e = true));
    [by intros [] | by intros p | apply Hm].
Qed.

Lemma flash_configure_saves_nothing il te :
  emits (λ e, is_save e = false) (flash_configure il te).
Proof. nosave_auto. Qed.

Lemma mp2rage_configure_saves_nothing fi si it fa itr etr n eff b1 b1map :
  emits (λ e, is_save e = false)
    (mp2rage_configure fi si it fa itr etr n eff b1 b1map).
Proof. nosave_auto. Qed.

Lemma levelset_configure_saves_nothing imgs topo lut :
  emits (λ e, is_save e = false) (levelset_configure imgs topo lut).
Proof. nosave_auto. Qed.

Lemma wrap_image_live d aff hdr w img w' :
  wrap_image d aff hdr w = (Val img, w') →
  img_header img < length (heap w') ∧ length (heap w) ≤ length (heap w').
Proof.
  intros E. apply wrap_image_inv in E as (h & lo & hi & _ & _ & _ & -> & ->).
  simpl. rewrite length_app, length_insert. simpl. lia.
Qed.

Lemma save_volume_live p img w :
  img_header img < length (heap w) →
  ∃ s, save_volume p img w
       = (Val (), World (<[p := s]> (fs w)) (heap w) (trace w ++ [EvSave p])).
Proof.
  intros Hl. destruct (lookup_lt_is_Some_2 _ _ Hl) as [h Hh].
  unfold save_volume, deref, bind. rewrite Hh. eauto.
Qed.

Lemma bind_save_live {B} p img (k : unit → M B) w :
  img_header img < length (heap w) →
  ∃ s, bind (save_volume p img) k w
       = k () (World (<[p := s]> (fs w)) (heap w) (trace w ++ [EvSave p])).
Proof.
  intros Hl. destruct (save_volume_live p img w Hl) as [s E].
  exists s. by rewrite (bind_Val _ _ _ _ _ E).
Qed.

Lemma flash_gate_miss il sd ov od fn w fo w' :
  flash_gate il sd ov od fn w = (Val (Miss fo), w') →
  sd = true → ∃ files, fo = Some files.
Proof.
  intros H ->. unfold flash_gate in H. inv_bind H as files w1 E.
  apply flash_cached_miss in H. eauto.
Qed.

Lemma mp2rage_gate_miss fi sd ov od fn w fo w' :
  mp2rage_gate fi sd ov od fn w = (Val (Miss fo), w') →
  sd = true → ∃ files, fo = Some files.
Proof.
  intros H ->. unfold mp2rage_gate in H. inv_bind H as files w1 E.
  apply mp2rage_cached_miss in H. eauto.
Qed.

Lemma levelset_gate_miss imgs sd ov od fn w fo w' :
  levelset_gate imgs sd ov od fn w = (Val (Miss fo), w') →
  sd = true → ∃ files, fo = Some files.
Proof.
  intros H ->. unfold levelset_gate in H. inv_bind H as files w1 E.
  apply levelset_cached_miss in H. eauto.
Qed.

End saving_last.

(** One quiet statement of a run that saves last. *)
Ltac settled_step :=
  apply settled_bind;
    [ first [ solve [nosave_auto]
            | apply emits_wrap_image
            | apply flash_configure_saves_nothing
            | apply mp2rage_configure_saves_nothing
            | apply levelset_configure_saves_nothing ]
    | assumption
    | ].

(** One [save_volume] of an image whose header is in place. *)
Ltac save_step :=
  rewrite ?bind_assoc; cbv beta iota;
  match goal with
  | |- context [bind (save_volume ?p ?img) ?k ?w] =>
      let s := fresh "s" in let E := fresh "E" in
      destruct (bind_save_live p img k w) as [s E];
        [cbn [heap]; lia | rewrite E; clear E; cbn [fs heap trace]]
  end.

Section saving_last_calls.
Context {Num : Numeric} {U : Utils} {J : Native}.
Implicit Types (w : world).

Lemma flash_settled il te sd ov od fn w :
  settled w (flash_t2s_fitting il te sd ov od fn w).
Proof.
  pose proof (step_ok_refl (λ e, is_save e = false) w) as S.
  unfold flash_t2s_fitting.
  settled_step. intros [] w0 _ S0.
  apply settled_bind;
    [apply gate_keeps_files, flash_gate_quiet|done|].
  intros [out|fo] w1 Eg S1; [by apply settled_quiet|].
  unfold flash_compute.
  settled_step. intros [[dims aff] hdr] w2 _ S2.
  settled_step. intros r w3 _ S3. unfold flash_collect.
  do 8 (settled_step; intros ? ? _ ?).
  settled_step. intros t2s v1 E1 ?.
  settled_step. intros r2s v2 E2 ?.
  settled_step. intros s0 v3 E3 ?.
  settled_step. intros err v4 E4 ?.
  apply wrap_image_live in E1 as [L1 G1], E2 as [L2 G2], E3 as [L3 G3],
    E4 as [L4 G4].
  destruct sd; [|by apply settled_quiet].
  destruct (flash_gate_miss _ _ _ _ _ _ _ _ Eg eq_refl)
    as ([[[f1 f2] f3] f4] & ->).
  unfold when_saving. do 4 save_step.
  eapply (settled_saves w _ v4 _
            [EvSave f1; EvSave f2; EvSave f3; EvSave f4]);
    [done | by rewrite <- !app_assoc | by Forall_split].
Qed.

Lemma mp2rage_settled fi si it fa itr etr n eff b1 b1map sd ov od fn w :
  settled w (mp2rage_t1_mapping fi si it fa itr etr n eff b1 b1map
               sd ov od fn w).
Proof.
  pose proof (step_ok_refl (λ e, is_save e = false) w) as S.
  unfold mp2rage_t1_mapping.
  settled_step. intros [] w0 _ S0.
  apply settled_bind;
    [apply gate_keeps_files, mp2rage_gate_quiet|done|].
  intros [out|fo] w1 Eg S1; [by apply settled_quiet|].
  unfold mp2rage_compute.
  settled_step. intros [[dims aff] hdr] w2 _ S2.
  settled_step. intros r w3 _ S3. unfold mp2rage_collect.
  do 6 (settled_step; intros ? ? _ ?).
  settled_step. intros t1 v1 E1 ?.
  settled_step. intros r1 v2 E2 ?.
  settled_step. intros uni v3 E3 ?.
  apply wrap_image_live in E1 as [L1 G1], E2 as [L2 G2], E3 as [L3 G3].
  destruct sd; [|by apply settled_quiet].
  destruct (mp2rage_gate_miss _ _ _ _ _ _ _ _ Eg eq_refl)
    as ([[f1 f2] f3] & ->).
  unfold when_saving. do 3 save_step.
  eapply (settled_saves w _ v3 _ [EvSave f1; EvSave f2; EvSave f3]);
    [done | by rewrite <- !app_assoc | by Forall_split].
Qed.

Lemma levelset_settled imgs topo lut sd ov od fn w :
  settled w (levelset_fusion imgs topo lut sd ov od fn w).
Proof.
  pose proof (step_ok_refl (λ e, is_save e = false) w) as S.
  unfold levelset_fusion.
  settled_step. intros [] w0 _ S0.
  settled_step. intros lut' w0' _ S0'.
  apply settled_bind;
    [apply gate_keeps_files, levelset_gate_quiet|done|].
  intros [out|fo] w1 Eg S1; [by apply settled_quiet|].
  unfold levelset_compute.
  settled_step. intros [[dims aff] hdr] w2 _ S2.
  settled_step. intros r w3 _ S3. unfold levelset_collect.
  do 2 (settled_step; intros ? ? _ ?).
  settled_step. intros lvl v1 E1 ?.
  apply wrap_image_live in E1 as [L1 G1].
  destruct sd; [|by apply settled_quiet].
  destruct (levelset_gate_miss _ _ _ _ _ _ _ _ Eg eq_refl) as (f1 & ->).
  unfold when_saving. save_step.
  eapply (settled_saves w _ v1 _ [EvSave f1]);
    [done | done | by Forall_split].
Qed.

Lemma settled_order {A} w (rw : res A * world) :
  settled w rw →
  (∀ pre p post,
     emitted w rw.2 = pre ++ EvSave p :: post →
     Forall (λ e, is_save e = true) post) ∧
  (∀ e, rw.1 = Exc e →
        fs rw.2 = fs w ∧ Forall (λ e, is_save e = false) (emitted w rw.2)).
Proof.
  intros (wm & post0 & S & T & F & Hx). split.
  - intros pre p post Hem.
    destruct S as (evm & Tm & Fm & _).
    rewrite (emitted_app w rw.2 (evm ++ post0)) in Hem
      by (by rewrite T, Tm, app_assoc).
    apply app_eq_inv in Hem as [(k & Hk1 & Hk2)|(k & Hk1 & Hk2)].
    + destruct k as [|x k]; simpl in Hk2.
      * subst post0. by apply Forall_cons in F as [_ F].
      * injection Hk2 as <- ->. subst evm.
        apply Forall_app in Fm as [_ Fm].
        by apply Forall_cons in Fm as [? _].
    + subst post0. apply Forall_app in F as [_ F].
      by apply Forall_cons in F as [_ F].
  - intros e He. rewrite (Hx e He). split.
    + destruct S as (_ & _ & _ & Hfs). by apply Hfs.
    + by apply step_ok_emitted in S.
Qed.

(** For flash_t2s_fitting, mp2rage_t1_mapping and levelset_fusion,
    saving is the last thing a call does: once the first file is
    written, only further saves follow (no getter, no reshape, no
    header update), and a call that raised has written no file.
    (lcpca_denoising saves each denoised image inside its output loop
    and is left out.) *)
Theorem saving_starts_after_last_output (c : api_call) w :
  java_class c ≠ "IntensityComplexPCADenoising" →
  (∀ pre p post,
     emitted w (invoke c w).2 = pre ++ EvSave p :: post →
     Forall (λ e, is_save e = true) post) ∧
  (∀ e, (invoke c w).1 = Exc e →
        fs (invoke c w).2 = fs w ∧
        Forall (λ e, is_save e = false) (emitted w (invoke c w).2)).
Proof.
  intros Hc. apply settled_order.
  destruct c as [il te o|il pl ngb cut dmin dmax o
                |fi si it fa itr etr n eff b1 b1map o|imgs topo lut o];
    destruct o as [sd ov od fn]; simpl; [|done| |].
  - apply flash_settled.
  - apply mp2rage_settled.
  - apply levelset_settled.
Qed.

End saving_last_calls.

(* ===================================================================== *)
(** ** The list arguments of the T1 mapping *)
(* ===================================================================== *)

Section pairs.
Context {Num : Numeric} {U : Utils} {J : Native}.
Implicit Types (w : world).

Lemma getitem_take {A} (l : list A) n i :
  i < n → getitem (take n l) i = getitem l i.
Proof. intros Hi. unfold getitem. by rewrite lookup_take_lt. Qed.

Lemma mp2rage_configure_pairs fi si it fa itr etr n eff b1 b1map w cfg w' :
  mp2rage_configure fi si it fa itr etr n eff b1 b1map w = (Val cfg, w') →
  2 ≤ length fi ∧ 2 ≤ length si ∧ 2 ≤ length it ∧ 2 ≤ length fa ∧
  2 ≤ length etr.
Proof.
  unfold mp2rage_configure. intros H. inv_binds H. inv_prims.
  repeat match goal with
  | H : _ !! _ = Some _ |- _ => apply lookup_lt_Some in H
  end.
  lia.
Qed.

(** mp2rage_t1_mapping reads entries 0 and 1 of first_inversion,
    second_inversion, inversion_times, flip_angles and excitation_TR
    and nothing beyond them: cutting each list after its second entry
    changes nothing.  If one of them has fewer than two entries,
    execute() is never run, and with save_data=False the call
    raises. *)
Theorem mp2rage_reads_two_entries_of_each_list
    fi si it fa itr etr n eff b1 b1map sd ov od fn w :
  (mp2rage_t1_mapping (take 2 fi) (take 2 si) (take 2 it) (take 2 fa) itr
     (take 2 etr) n eff b1 b1map sd ov od fn w
   = mp2rage_t1_mapping fi si it fa itr etr n eff b1 b1map sd ov od fn w) ∧
  ((length fi < 2 ∨ length si < 2 ∨ length it < 2 ∨ length fa < 2 ∨
    length etr < 2) →
   (EvExecute ∉ emitted w
      (mp2rage_t1_mapping fi si it fa itr etr n eff b1 b1map
         sd ov od fn w).2) ∧
   (sd = false →
      ∃ e, (mp2rage_t1_mapping fi si it fa itr etr n eff b1 b1map
              sd ov od fn w).1 = Exc e)).
Proof.
  split.
  - unfold mp2rage_t1_mapping, mp2rage_gate, mp2rage_files, mp2rage_compute,
      mp2rage_configure.
    by rewrite !getitem_take by lia.
  - intros Hshort.
    assert (∀ w1 cfg w2,
      mp2rage_configure fi si it fa itr etr n eff b1 b1map w1
        ≠ (Val cfg, w2)) as Hno.
    { intros w1 cfg w2 H. apply mp2rage_configure_pairs in H. lia. }
    split.
    + intros Hex. unfold mp2rage_t1_mapping, print in Hex.
      assert (EvExecute ∉ emitted w w) as Hn.
      { rewrite (emitted_app w w []) by (by rewrite app_nil_r).
        by intros ?%elem_of_nil. }
      destruct (reached_execute_bind _ _ w w
                  (emits_log (λ e, e ≠ EvExecute)
                     (EvPrint (nl +:+ "T1 Mapping")) ltac:(done))
                  (extends_refl w) Hn Hex)
        as ([] & w0 & _ & Eb & Hx0 & Hn0).
      rewrite Eb in Hex. clear Eb.
      destruct (reached_execute_bind _ _ w w0
                  (gate_stays_before_execute _
                     (mp2rage_gate_quiet fi sd ov od fn))
                  Hx0 Hn0 Hex)
        as (g & w1 & _ & Eb & Hx1 & Hn1).
      rewrite Eb in Hex. clear Eb. destruct g as [out|files]; [done|].
      unfold mp2rage_compute in Hex.
      destruct (reached_execute_bind _ _ w w1
                  (mp2rage_configure_before_execute
                     fi si it fa itr etr n eff b1 b1map)
                  Hx1 Hn1 Hex)
        as (cfg & w2 & Ec & _). by apply Hno in Ec.
    + intros ->. unfold mp2rage_t1_mapping, print. rewrite bind_log.
      unfold mp2rage_gate. unfold bind at 1. unfold ret at 1.
      unfold mp2rage_compute.
      destruct (mp2rage_configure fi si it fa itr etr n eff b1 b1map
                  (World (fs w) (heap w)
                     (trace w ++ [EvPrint (nl +:+ "T1 Mapping")])))
        as [[cfg|e] w2] eqn:Ec; [by apply Hno in Ec|].
      rewrite (bind_Exc _ _ _ _ _ Ec). eauto.
Qed.

End pairs.

(* ===================================================================== *)
(** ** What the cache is keyed by *)
(* ===================================================================== *)

Section stale.
Context {Num : Numeric} {U : Utils} {J : Native}.
Implicit Types (w : world).

Lemma lcpca_file_list_inj f1 f2 :
  lcpca_file_list f1 = lcpca_file_list f2 → f1 = f2.
Proof.
  destruct f1 as [[d1 a1] b1], f2 as [[d2 a2] b2]. simpl.
  replace (d1 ++ [a1; b1]) with ((d1 ++ [a1]) ++ [b1])
    by (by rewrite <- app_assoc).
  replace (d2 ++ [a2; b2]) with ((d2 ++ [a2]) ++ [b2])
    by (by rewrite <- app_assoc).
  intros [[-> ->]%app_inj_tail ->]%app_inj_tail. done.
Qed.

(** The cache is keyed by the output names alone.  With save_data=True
    and overwrite=False, once the output names are resolved and all of
    them are files, two calls of the same wrapper with the same saving
    options that resolve the same names return the same thing,
    whatever their other arguments: echo times, the images after the
    first, the algorithm parameters. *)
Theorem cached_result_ignores_other_arguments (c c' : api_call) w ps w1 :
  save_data (options c) = true → overwrite (options c) = false →
  bind (banner c) (λ _, output_files c) w = (Val ps, w1) →
  Forall (λ p, is_Some (fs w !! p)) ps →
  java_class c' = java_class c → options c' = options c →
  bind (banner c') (λ _, output_files c') w = (Val ps, w1) →
  invoke c' w = invoke c w.
Proof.
  revert c'.
  destruct c as [il te o|il pl ngb cut dmin dmax o
                |fi si it fa itr etr n eff b1 b1map o|imgs topo lut o];
    destruct o as [sd ov od fn]; simpl; intros c' -> -> Hps HF Hcls Hopt Hps';
    destruct c' as [il' te' o'|il' pl' ngb' cut' dmin' dmax' o'
                |fi' si' it' fa' itr' etr' n' eff' b1' b1map' o'
                |imgs' topo' lut' o']; try done;
    simpl in Hopt; subst o'; simpl in *.
  - inv_bind Hps as u w0 E0. apply log_inv in E0. subst w0.
    inv_bind Hps as files wf Ef. apply ret_inv in Hps as [-> <-].
    inv_bind Hps' as u' w0' E0'. apply log_inv in E0'. subst w0'.
    inv_bind Hps' as files' wf' Ef'. apply ret_inv in Hps' as [Hl <-].
    assert (files' = files) as ->.
    { destruct files as [[[? ?] ?] ?], files' as [[[? ?] ?] ?].
      simpl in Hl. by simplify_eq. }
    unfold flash_t2s_fitting, print. rewrite !bind_log.
    unfold flash_gate. rewrite !bind_assoc.
    rewrite (bind_Val _ _ _ _ _ Ef), (bind_Val _ _ _ _ _ Ef').
    pose proof (emits_run _ _ _ _ _ (flash_files_quiet il od fn) Ef) as S1.
    pose proof (step_ok_print (λ e, is_gate_event e = true) w
                  (nl +:+ "T2* Fitting") eq_refl) as S0.
    destruct (gate_step _ _ (step_ok_trans _ _ _ _ S0 S1)) as [Hfs _].
    destruct (flash_cached_hit files w1) as (out & w' & Ec & _);
      [by eapply exists_transport|].
    by rewrite !(bind_Val _ _ _ _ _ Ec).
  - inv_bind Hps as u w0 E0. apply log_inv in E0. subst w0.
    inv_bind Hps as files wf Ef. apply ret_inv in Hps as [-> <-].
    inv_bind Hps' as u' w0' E0'. apply log_inv in E0'. subst w0'.
    inv_bind Hps' as files' wf' Ef'. apply ret_inv in Hps' as [Hl <-].
    apply lcpca_file_list_inj in Hl. subst files'.
    unfold lcpca_denoising, print. rewrite !bind_log.
    unfold lcpca_gate. rewrite !bind_assoc.
    rewrite (bind_Val _ _ _ _ _ Ef), (bind_Val _ _ _ _ _ Ef').
    pose proof (emits_run _ _ _ _ _ (lcpca_files_quiet il pl od fn) Ef) as S1.
    pose proof (step_ok_print (λ e, is_gate_event e = true) w
                  (nl +:+ "LCPCA denoising") eq_refl) as S0.
    destruct (gate_step _ _ (step_ok_trans _ _ _ _ S0 S1)) as [Hfs _].
    destruct (lcpca_cached_hit files w1) as (out & w' & Ec & _);
      [by eapply exists_transport|].
    by rewrite !(bind_Val _ _ _ _ _ Ec).
  - inv_bind Hps as u w0 E0. apply log_inv in E0. subst w0.
    inv_bind Hps as files wf Ef. apply ret_inv in Hps as [-> <-].
    inv_bind Hps' as u' w0' E0'. apply log_inv in E0'. subst w0'.
    inv_bind Hps' as files' wf' Ef'. apply ret_inv in Hps' as [Hl <-].
    assert (files' = files) as ->.
    { destruct files as [[? ?] ?], files' as [[? ?] ?].
      simpl in Hl. by simplify_eq. }
    unfold mp2rage_t1_mapping, print. rewrite !bind_log.
    unfold mp2rage_gate. rewrite !bind_assoc.
    rewrite (bind_Val _ _ _ _ _ Ef), (bind_Val _ _ _ _ _ Ef').
    pose proof (emits_run _ _ _ _ _ (mp2rage_files_quiet fi od fn) Ef) as S1.
    pose proof (step_ok_print (λ e, is_gate_event e = true) w
                  (nl +:+ "T1 Mapping") eq_refl) as S0.
    destruct (gate_step _ _ (step_ok_trans _ _ _ _ S0 S1)) as [Hfs _].
    destruct (mp2rage_cached_hit files w1) as (out & w' & Ec & _);
      [by eapply exists_transport|].
    by rewrite !(bind_Val _ _ _ _ _ Ec).
  - inv_bind Hps as u w0 E0. inv_bind E0 as u1 v1 E1.
    apply log_inv in E1. subst v1.
    inv_bind E0 as dir v2 E2. pose proof E2 as E2c.
    apply lift_sum_inv in E2c as [_ ->].
    apply ret_inv in E0 as [_ ->].
    inv_bind Hps as f wf Ef. apply ret_inv in Hps as [-> <-].
    inv_bind Hps' as u' w0' E0'. inv_bind E0' as u1' v1' E1'.
    apply log_inv in E1'. subst v1'.
    inv_bind E0' as dir' v2' E2'. pose proof E2' as E2c'.
    apply lift_sum_inv in E2c' as [_ ->].
    apply ret_inv in E0' as [_ ->].
    inv_bind Hps' as f' wf' Ef'. apply ret_inv in Hps' as [Hl <-].
    injection Hl as Hl. subst f'.
    unfold levelset_fusion, print. rewrite !bind_log.
    rewrite (bind_Val _ _ _ _ _ E2), (bind_Val _ _ _ _ _ E2').
    unfold levelset_gate. rewrite !bind_assoc.
    rewrite (bind_Val _ _ _ _ _ Ef), (bind_Val _ _ _ _ _ Ef').
    pose proof (emits_run _ _ _ _ _ (levelset_files_quiet imgs od fn) Ef)
      as S1.
    pose proof (step_ok_print (λ e, is_gate_event e = true) w
                  (nl +:+ "Levelset Shape Fusion") eq_refl) as S0.
    destruct (gate_step _ _ (step_ok_trans _ _ _ _ S0 S1)) as [Hfs _].
    destruct (levelset_cached_hit f w1) as (out & w' & Ec & _);
      [by eapply exists_transport|].
    by rewrite !(bind_Val _ _ _ _ _ Ec).
Qed.

End stale.

(* ===================================================================== *)
(** ** Header objects and files while the outputs are built *)
(* ===================================================================== *)

Section building_steps.
Context {Num : Numeric} {U : Utils} {J : Native}.
Implicit Types (w : world) (hp : list header).

Lemma building_start hdr h hp :
  hp !! hdr = Some h → building hdr (zooms h) (length hp) hp [].
Proof.
  intros Hh. split; [by eapply lookup_lt_Some|]. split; [simpl; lia|].
  split; [eauto|]. split; [by intros i img|]. by intros img.
Qed.

Lemma building_wrap hdr z n0 d aff w imgs img w' :
  building hdr z n0 (heap w) imgs →
  wrap_image d aff hdr w = (Val img, w') →
  building hdr z n0 (heap w') (imgs ++ [img]) ∧
  fs w' = fs w ∧ trace w' = trace w ∧
  img_data img = d ∧ img_affine img = aff ∧
  (∀ l, l ≠ hdr → l < length (heap w) → heap w' !! l = heap w !! l).
Proof.
  intros (Hlt & Hlen & (h & Hh & Hz) & Himgs & Hlast) E.
  apply wrap_image_inv in E as (h1 & lo & hi & Hh1 & _ & _ & -> & ->).
  rewrite Hh in Hh1. injection Hh1 as <-.
  cbn [heap fs trace img_data img_affine img_header].
  set (h' := Header (zooms h) lo hi).
  assert (Hframe : ∀ l, l ≠ hdr → l < length (heap w) →
     (<[hdr := h']> (heap w) ++ [h']) !! l = heap w !! l).
  { intros l Hl Hll. rewrite lookup_app_l by (by rewrite length_insert).
    by rewrite list_lookup_insert_ne. }
  assert (Hnew :
    (<[hdr := h']> (heap w) ++ [h']) !! length (heap w) = Some h').
  { apply list_lookup_middle. by rewrite length_insert. }
  assert (Hhdr : (<[hdr := h']> (heap w) ++ [h']) !! hdr = Some h').
  { rewrite lookup_app_l by (rewrite length_insert; lia).
    apply list_lookup_insert_eq. lia. }
  split; [|done].
  split; [done|]. split.
  { rewrite !length_app, length_insert. simpl. lia. }
  split; [by exists h'|]. split.
  - intros i im Him. apply lookup_app_Some in Him as [Him|[Hi Him]].
    + destruct (Himgs i im Him) as (Hidx & h2 & Hh2 & Hz2).
      split; [done|]. exists h2. split; [|done].
      apply lookup_lt_Some in Him.
      rewrite Hframe; [done | lia | lia].
    + assert (i = length imgs) as ->.
      { apply lookup_lt_Some in Him. simpl in Him. lia. }
      rewrite Nat.sub_diag in Him. injection Him as <-.
      cbn [img_header]. split; [lia|].
      exists h'. split; [|done]. by rewrite <- Hlen.
  - intros im Hl. rewrite last_snoc in Hl. injection Hl as <-.
    cbn [img_header]. by rewrite Hhdr, Hnew.
Qed.

Lemma view_stable hp hp' img :
  hp' !! img_header img = hp !! img_header img → view hp' img = view hp img.
Proof. intros H. unfold view. by rewrite H. Qed.

Lemma written_cons hp img p saved f0 :
  written hp ((img, p) :: saved) f0 =
  written hp saved
    (match view hp img with Some s => <[p := s]> f0 | None => f0 end).
Proof. done. Qed.

Lemma written_ext hp hp' saved f0 :
  (∀ img p, (img, p) ∈ saved → view hp' img = view hp img) →
  written hp' saved f0 = written hp saved f0.
Proof.
  revert f0. induction saved as [|[img p] saved IH]; intros f0 H; [done|].
  assert (view hp' img = view hp img) as Hv.
  { apply (H img p). apply list_elem_of_here. }
  rewrite !written_cons, Hv.
  apply IH. intros im q Hin. apply (H im q). by apply list_elem_of_further.
Qed.

Lemma written_snoc hp saved f0 img p s :
  view hp img = Some s →
  written hp (saved ++ [(img, p)]) f0 = <[p := s]> (written hp saved f0).
Proof. intros H. unfold written. rewrite foldl_app. simpl. by rewrite H. Qed.

Lemma written_other hp saved f0 p :
  p ∉ saved.*2 → written hp saved f0 !! p = f0 !! p.
Proof.
  revert f0. induction saved as [|[img0 p0] saved IH]; intros f0 Hp; [done|].
  simpl in Hp. apply not_elem_of_cons in Hp as [Hne Hp].
  rewrite written_cons, IH by done. destruct (view hp img0); [|done].
  by rewrite lookup_insert_ne.
Qed.

(** The save made last under a name decides what the file holds. *)
Lemma written_last hp saved f0 i img p s :
  saved !! i = Some (img, p) → view hp img = Some s →
  (∀ j im, i < j → saved !! j ≠ Some (im, p)) →
  written hp saved f0 !! p = Some s.
Proof.
  revert i f0. induction saved as [|[img0 p0] saved IH]; intros i f0 Hi Hs Hl;
    [done|].
  rewrite written_cons. destruct i as [|i]; simpl in Hi.
  - injection Hi as -> ->. rewrite Hs, written_other.
    + by rewrite lookup_insert_eq.
    + intros ([im q] & Hq & Hin)%list_elem_of_fmap. simpl in Hq. subst q.
      apply list_elem_of_lookup in Hin as [j Hj].
      apply (Hl (S j) im); [lia|done].
  - apply (IH i); [done|done|].
    intros j im Hij. apply (Hl (S j) im). lia.
Qed.

Lemma collecting_start hdr h w :
  heap w !! hdr = Some h →
  collecting hdr (zooms h) (heap w) (fs w) [] [] w.
Proof.
  intros Hh. split; [by apply building_start|]. split; [done|].
  split; [done|]. by intros img p ?%elem_of_nil.
Qed.

Lemma collecting_same hdr z hp0 f0 imgs saved w w' :
  collecting hdr z hp0 f0 imgs saved w →
  heap w' = heap w → fs w' = fs w →
  collecting hdr z hp0 f0 imgs saved w'.
Proof. intros H Hh Hf. unfold collecting. by rewrite Hh, Hf. Qed.

Lemma collecting_wrap hdr z hp0 f0 imgs saved d aff w img w' :
  collecting hdr z hp0 f0 imgs saved w →
  wrap_image d aff hdr w = (Val img, w') →
  collecting hdr z hp0 f0 (imgs ++ [img]) saved w' ∧
  trace w' = trace w ∧ img_data img = d ∧ img_affine img = aff.
Proof.
  intros (HB & HF & HW & HS) E.
  destruct (building_wrap _ _ _ _ _ _ _ _ _ HB E)
    as (HB' & Hfs & Htr & Hd & Ha & Hfr).
  split; [|done]. destruct HB as (Hlt & Hlen & _ & Himgs & _).
  split; [done|]. split.
  { intros l Hl Hne. rewrite Hfr by lia. by apply HF. }
  split.
  { rewrite Hfs, HW. symmetry. apply written_ext. intros im p Hin.
    apply HS in Hin. apply list_elem_of_lookup in Hin as [i Hi].
    destruct (Himgs i im Hi) as (Hidx & _). apply lookup_lt_Some in Hi.
    apply view_stable. apply Hfr; lia. }
  intros im p Hin. apply elem_of_app. left. by eapply HS.
Qed.

Lemma collecting_save hdr z hp0 f0 imgs saved p img w u w' :
  collecting hdr z hp0 f0 imgs saved w →
  save_volume p img w = (Val u, w') → img ∈ imgs →
  collecting hdr z hp0 f0 imgs (saved ++ [(img, p)]) w' ∧
  trace w' = trace w ++ [EvSave p].
Proof.
  intros (HB & HF & HW & HS) E Hin.
  apply save_volume_inv in E as (s & Hs & ->). cbn [heap fs trace].
  split; [|done]. split; [done|]. split; [done|]. split.
  - rewrite (written_snoc _ _ _ _ _ _ Hs). by rewrite HW.
  - intros im q [Hq|Hq]%elem_of_app; [by eapply HS|].
    apply list_elem_of_singleton in Hq. by injection Hq as -> ->.
Qed.

Lemma collecting_zooms hdr z hp0 f0 imgs saved w :
  collecting hdr z hp0 f0 imgs saved w →
  Forall (λ img, ∃ h, heap w !! img_header img = Some h ∧ zooms h = z) imgs.
Proof.
  intros ((_ & _ & _ & Himgs & _) & _). apply Forall_lookup_2.
  intros i img Hi. destruct (Himgs i img Hi) as (-> & h & Hh & Hz). eauto.
Qed.

Lemma collecting_views hdr z hp0 f0 imgs saved w img :
  collecting hdr z hp0 f0 imgs saved w → img ∈ imgs →
  is_Some (view (heap w) img).
Proof.
  intros HC Hin. apply collecting_zooms in HC.
  rewrite Forall_forall in HC. destruct (HC img Hin) as (h & Hh & _).
  unfold view. rewrite Hh. eauto.
Qed.

(** What is on disk at the end. *)
Lemma collecting_files hdr z hp0 f0 imgs ps w :
  collecting hdr z hp0 f0 imgs (zip imgs ps) w →
  length ps = length imgs →
  (∀ i img p, imgs !! i = Some img → ps !! i = Some p →
     (∀ j, i < j → ps !! j ≠ Some p) →
     ∃ s, view (heap w) img = Some s ∧ fs w !! p = Some s) ∧
  (∀ p, p ∉ ps → fs w !! p = f0 !! p).
Proof.
  intros HC Hlen. pose proof HC as (_ & _ & HW & HS). split.
  - intros i img p Hi Hp Hl.
    destruct (collecting_views _ _ _ _ _ _ _ img HC) as [s Hs].
    { by eapply list_elem_of_lookup_2. }
    exists s. split; [done|]. rewrite HW.
    apply (written_last _ _ _ i img); [|done|].
    + by rewrite lookup_zip_with, Hi, Hp.
    + intros j im Hij Hj. apply lookup_zip_with_Some in Hj
        as (im' & q & [= <- <-] & _ & Hq). by apply (Hl j).
  - intros p Hp. rewrite HW. apply written_other.
    rewrite snd_zip by lia. done.
Qed.

End building_steps.

(* ===================================================================== *)
(** ** Header objects up to the first output *)
(* ===================================================================== *)

Section heap_steps.
Context {Num : Numeric} {U : Utils} {J : Native}.
Context (R : relation (list header)) (HR : PreOrder R).
Implicit Types (w : world).

Lemma heap_step_ret {A} (a : A) : heap_step R (ret a).
Proof using HR. intros w. simpl. reflexivity. Qed.

Lemma heap_step_raise {A} e : heap_step R (raise (A:=A) e).
Proof using HR. intros w. simpl. reflexivity. Qed.

Lemma heap_step_bind {A B} (m : M A) (k : A → M B) :
  heap_step R m → (∀ a, heap_step R (k a)) → heap_step R (bind m k).
Proof using HR.
  intros Hm Hk w. unfold bind. specialize (Hm w).
  destruct (m w) as [[a|e] w1]; simpl in *; [|done].
  etrans; [done | apply Hk].
Qed.

Lemma heap_step_log e : heap_step R (log e).
Proof using HR. intros w. simpl. reflexivity. Qed.

Lemma heap_step_lift_sum {A} (r : exn + A) : heap_step R (lift_sum r).
Proof using HR. destruct r; [apply heap_step_raise | apply heap_step_ret]. Qed.

Lemma heap_step_getitem {A} (l : list A) i : heap_step R (getitem l i).
Proof using HR.
  unfold getitem.
  destruct (l !! i); [apply heap_step_ret | apply heap_step_raise].
Qed.

Lemma heap_step_isfile p : heap_step R (isfile p).
Proof using HR. intros w. simpl. reflexivity. Qed.

Lemma heap_step_and_then (a b : M bool) :
  heap_step R a → heap_step R b → heap_step R (and_then a b).
Proof using HR.
  intros Ha Hb. apply heap_step_bind; [done|].
  intros [|]; [done | apply heap_step_ret].
Qed.

Lemma heap_step_fold_enumerate_from {A B} i (l : list A) (acc : B) body :
  (∀ i x acc, heap_step R (body i x acc)) →
  heap_step R (fold_enumerate_from i l acc body).
Proof using HR.
  intros Hb. revert i acc. induction l as [|x l IH]; intros i acc; simpl.
  - apply heap_step_ret.
  - apply heap_step_bind; [apply Hb|]. intros a. apply IH.
Qed.

Lemma heap_step_for_enumerate {A} (l : list A) body :
  (∀ i x, heap_step R (body i x)) → heap_step R (for_enumerate l body).
Proof using HR. intros Hb. apply heap_step_fold_enumerate_from. auto. Qed.

Lemma heap_step_any_missing den m : heap_step R (any_missing den m).
Proof using HR.
  revert m. induction den as [|p den IH]; intros m; simpl.
  - apply heap_step_ret.
  - apply heap_step_bind; [apply heap_step_isfile|]. intros b. apply IH.
Qed.

Lemma heap_step_run {A} (m : M A) w r w' :
  heap_step R m → m w = (r, w') → R (heap w) (heap w').
Proof using HR. intros Hm E. specialize (Hm w). by rewrite E in Hm. Qed.

End heap_steps.

Section heap_loads.
Context {Num : Numeric} {U : Utils} {J : Native}.
Implicit Types (w : world).

Lemma heap_step_load_volume v : heap_step prefix (load_volume v).
Proof.
  destruct v as [p|img]; [|apply heap_step_ret; apply _].
  intros w. simpl. destruct (fs w !! p); simpl; [by apply prefix_app_r|done].
Qed.

End heap_loads.

Ltac heap_step_one :=
  first
    [ apply heap_step_ret | apply heap_step_raise
    | apply heap_step_log | apply heap_step_lift_sum
    | apply heap_step_getitem | apply heap_step_isfile
    | apply heap_step_load_volume | apply heap_step_any_missing
    | apply heap_step_and_then
    | apply heap_step_for_enumerate; intros
    | apply heap_step_fold_enumerate_from; intros
    | apply heap_step_bind; intros
    | match goal with
      | |- heap_step _ (match ?x with _ => _ end) => destruct x
      | |- PreOrder _ => apply _
      end
    | progress cbv zeta ].

Ltac heap_step_auto :=
  unfold print, initVM, jnew, jcall, output_dir_4saving, fname_4saving,
    check_topology_lut_dir, load_optional;
  repeat heap_step_one.

Section first_header.
Context {Num : Numeric} {U : Utils} {J : Native}.
Implicit Types (w : world).

(** The image loaded first and the reading of its voxel sizes. *)
Lemma load_header inp w img wa z wb :
  load_volume inp w = (Val img, wa) →
  get_zooms (img_header img) wa = (Val z, wb) →
  wb = wa ∧ fs wa = fs w ∧
  ∃ h, z = zooms h ∧
       shares_header w (Some inp) (img_header img) h (heap wa).
Proof.
  intros El Ez. unfold get_zooms, deref, bind in Ez.
  destruct (heap wa !! img_header img) as [h|] eqn:Hh; [|done].
  injection Ez as <- <-. split; [done|].
  destruct inp as [p|img0]; simpl in El.
  - destruct (fs w !! p) as [s|] eqn:Hs; [|done].
    injection El as <- <-. cbn [heap fs img_header] in *.
    split; [done|]. rewrite list_lookup_middle in Hh by done.
    injection Hh as <-. exists (st_header s). split; [done|].
    exists (FromFile p). simpl. rewrite Hs.
    repeat split; try done.
    + by apply prefix_app_r.
    + by apply list_lookup_middle.
  - injection El as <- <-. split; [done|]. exists h. split; [done|].
    exists (InMemory img0). simpl. repeat split; try done.
    by intros ? [= <-].
Qed.

Lemma shares_header_later w first hdr h hp hp' :
  shares_header w first hdr h hp → hp `prefix_of` hp' →
  shares_header w first hdr h hp'.
Proof.
  intros (inp & Hf & Hi & Hp & Hh & Hm & Hn) Hpp. exists inp.
  repeat split; try done.
  - by etrans.
  - by eapply prefix_lookup_Some.
Qed.

Lemma shares_header_from w0 w first hdr h hp :
  heap w = heap w0 → fs w = fs w0 →
  shares_header w first hdr h hp → shares_header w0 first hdr h hp.
Proof.
  intros Hhp Hfs (inp & Hf & Hi & Hp & Hh & Hm & Hn). exists inp.
  rewrite <- Hhp. repeat split; try done.
  destruct inp; simpl in *; by rewrite <- ?Hfs, <- ?Hhp.
Qed.

End first_header.

(** Peel the statements that only log or index a list. *)
Ltac peel_quiet H :=
  repeat (let a := fresh "a" in let v := fresh "v" in let E := fresh "E" in
    apply bind_Val_inv in H as (a & v & E & H);
    first [ apply log_inv in E; subst v
          | let Hl := fresh "Hl" in apply getitem_inv in E as [Hl ->] ];
    cbn [fs heap trace] in H).

(** From the load of the first image to the returned configuration. *)
Ltac configure_header H :=
  unfold initVM, jnew, jcall in H; peel_quiet H;
  let img := fresh "img" in let wa := fresh "wa" in
  let El := fresh "El" in let Ez := fresh "Ez" in
  let z := fresh "z" in let wb := fresh "wb" in
  let h := fresh "h" in let Hsh := fresh "Hsh" in let Hp := fresh "Hp" in
  apply bind_Val_inv in H as (img & wa & El & H);
  apply bind_Val_inv in H as (z & wb & Ez & H);
  destruct (load_header _ _ _ _ _ _ El Ez) as (-> & _ & h & -> & Hsh);
  match type of El with
  | load_volume ?root _ = _ =>
      match goal with Hr : _ !! 0 = Some root |- _ => rewrite <- Hr in Hsh end
  end;
  destruct (shape (img_data img)) as [[? ?] ?];
  assert (heap wa `prefix_of` heap _) as Hp
    by (eapply (heap_step_run prefix _); [|exact H]; heap_step_auto);
  inv_binds H; inv_prims; exists h;
  (eapply shares_header_later; [|exact Hp]);
  refine (shares_header_from _ _ _ _ _ _ _ _ Hsh); done.

Section configure_headers.
Context {Num : Numeric} {U : Utils} {J : Native}.
Implicit Types (w : world).

Lemma lcpca_configure_saves_nothing il pl ngb cut dmin dmax :
  emits (λ e, is_save e = false) (lcpca_configure il pl ngb cut dmin dmax).
Proof. nosave_auto. Qed.

Lemma saves_nothing_files {A} (m : M A) w r w' :
  emits (λ e, is_save e = false) m → m w = (r, w') → fs w' = fs w.
Proof.
  intros Hm E. pose proof (emits_run _ _ _ _ _ Hm E) as (_ & _ & _ & S).
  apply S. by intros p.
Qed.

Lemma flash_configure_header il te w cfg w1 :
  flash_configure il te w = (Val cfg, w1) →
  fs w1 = fs w ∧ ∃ h, shares_header w (il !! 0) cfg.2 h (heap w1).
Proof.
  intros H. split.
  { eapply saves_nothing_files; [apply flash_configure_saves_nothing|done]. }
  unfold flash_configure in H. configure_header H.
Qed.

Lemma lcpca_configure_header il pl ngb cut dmin dmax w cfg w1 :
  lcpca_configure il pl ngb cut dmin dmax w = (Val cfg, w1) →
  fs w1 = fs w ∧ ∃ h, shares_header w (il !! 0) cfg.2 h (heap w1).
Proof.
  intros H. split.
  { eapply saves_nothing_files; [apply lcpca_configure_saves_nothing|done]. }
  unfold lcpca_configure in H. configure_header H.
Qed.

Lemma mp2rage_configure_header fi si it fa itr etr n eff b1 b1map w cfg w1 :
  mp2rage_configure fi si it fa itr etr n eff b1 b1map w = (Val cfg, w1) →
  fs w1 = fs w ∧ ∃ h, shares_header w (fi !! 0) cfg.2 h (heap w1).
Proof.
  intros H. split.
  { eapply saves_nothing_files; [apply mp2rage_configure_saves_nothing|done]. }
  unfold mp2rage_configure in H. configure_header H.
Qed.

Lemma levelset_configure_header imgs topo lut w cfg w1 :
  levelset_configure imgs topo lut w = (Val cfg, w1) →
  fs w1 = fs w ∧ ∃ h, shares_header w (imgs !! 0) cfg.2 h (heap w1).
Proof.
  intros H. split.
  { eapply saves_nothing_files; [apply levelset_configure_saves_nothing|done]. }
  unfold levelset_configure in H. configure_header H.
Qed.

(** A cache consultation that ends in a miss has loaded nothing. *)
Lemma flash_gate_miss_heap il sd ov od fn w fo w1 :
  flash_gate il sd ov od fn w = (Val (Miss fo), w1) → heap w1 = heap w.
Proof.
  unfold flash_gate. destruct sd; [|by intros [_ ->]%ret_inv]. intros H.
  inv_bind H as files wf Ef.
  apply (heap_step_run eq _) in Ef; [|unfold flash_files; heap_step_auto].
  destruct files as [[[f1 f2] f3] f4]. unfold flash_cached in H.
  inv_bind H as hit wh Eh.
  apply (heap_step_run eq _) in Eh; [|heap_step_auto].
  destruct hit; [|apply ret_inv in H as [_ ->]; congruence].
  inv_binds H. by apply ret_inv in H as [? _].
Qed.

Lemma mp2rage_gate_miss_heap fi sd ov od fn w fo w1 :
  mp2rage_gate fi sd ov od fn w = (Val (Miss fo), w1) → heap w1 = heap w.
Proof.
  unfold mp2rage_gate. destruct sd; [|by intros [_ ->]%ret_inv]. intros H.
  inv_bind H as files wf Ef.
  apply (heap_step_run eq _) in Ef; [|unfold mp2rage_files; heap_step_auto].
  destruct files as [[f1 f2] f3]. unfold mp2rage_cached in H.
  inv_bind H as hit wh Eh.
  apply (heap_step_run eq _) in Eh; [|heap_step_auto].
  destruct hit; [|apply ret_inv in H as [_ ->]; congruence].
  inv_binds H. by apply ret_inv in H as [? _].
Qed.

Lemma levelset_gate_miss_heap imgs sd ov od fn w fo w1 :
  levelset_gate imgs sd ov od fn w = (Val (Miss fo), w1) → heap w1 = heap w.
Proof.
  unfold levelset_gate. destruct sd; [|by intros [_ ->]%ret_inv]. intros H.
  inv_bind H as files wf Ef.
  apply (heap_step_run eq _) in Ef; [|unfold levelset_files; heap_step_auto].
  unfold levelset_cached in H.
  inv_bind H as hit wh Eh.
  apply (heap_step_run eq _) in Eh; [|heap_step_auto].
  destruct hit; [|apply ret_inv in H as [_ ->]; congruence].
  inv_binds H. by apply ret_inv in H as [? _].
Qed.

Lemma lcpca_gate_miss_heap il pl sd ov od fn w fo w1 :
  lcpca_gate il pl sd ov od fn w = (Val (Miss fo), w1) → heap w1 = heap w.
Proof.
  unfold lcpca_gate. destruct sd; [|by intros [_ ->]%ret_inv]. intros H.
  inv_bind H as files wf Ef.
  apply (heap_step_run eq _) in Ef;
    [|unfold lcpca_files, den_names, fold_enumerate; heap_step_auto].
  destruct files as [[den f2] f3]. unfold lcpca_cached in H.
  inv_bind H as c wc Ec.
  apply (heap_step_run eq _) in Ec; [|heap_step_auto].
  destruct c; [|apply ret_inv in H as [_ ->]; congruence].
  inv_bind H as missing wm Em.
  apply (heap_step_run eq _) in Em; [|heap_step_auto].
  destruct missing; simpl in H; [apply ret_inv in H as [_ ->]; congruence|].
  inv_binds H. by apply ret_inv in H as [? _].
Qed.

End configure_headers.

(* ===================================================================== *)
(** ** Header objects and files from the first output to the return *)
(* ===================================================================== *)

Section collect_state.
Context {Num : Numeric} {U : Utils} {J : Native}.
Implicit Types (w : world) (r : string → list jarg → list jfloat).

Lemma collecting_after_wrap d aff hdr w img w' z hp0 f0 imgs saved :
  wrap_image d aff hdr w = (Val img, w') →
  collecting hdr z hp0 f0 imgs saved w →
  collecting hdr z hp0 f0 (imgs ++ [img]) saved w'.
Proof.
  intros E HC. by destruct (collecting_wrap _ _ _ _ _ _ _ _ _ _ _ HC E).
Qed.

Lemma collecting_after_save p img w u w' hdr z hp0 f0 imgs saved :
  save_volume p img w = (Val u, w') →
  collecting hdr z hp0 f0 imgs saved w → img ∈ imgs →
  collecting hdr z hp0 f0 imgs (saved ++ [(img, p)]) w'.
Proof.
  intros E HC Hin. by destruct (collecting_save _ _ _ _ _ _ _ _ _ _ _ HC E Hin).
Qed.

Lemma flash_collect_state r dims aff hdr sd files z hp0 f0 w out w' :
  collecting hdr z hp0 f0 [] [] w →
  flash_collect r dims aff hdr sd files w = (Val (Some out), w') →
  ∃ saved,
    collecting hdr z hp0 f0 (images_of out) saved w' ∧
    is_Some (last (images_of out)) ∧
    (sd = false → saved = []) ∧
    (sd = true → ∃ fl, files = Some fl ∧
       saved = zip (images_of out) (flash_file_list fl) ∧
       length (flash_file_list fl) = length (images_of out)).
Proof.
  unfold flash_collect. intros HC H.
  apply fetch_inv in H as (d1 & _ & H).
  apply fetch_inv in H as (d2 & _ & H).
  apply fetch_inv in H as (d3 & _ & H).
  apply fetch_inv in H as (d4 & _ & H). cbn [fs heap trace] in H.
  inv_bind H as t2s w1 E.
  eapply collecting_after_wrap in E; [|exact HC].
  inv_bind H as r2s w2 E2.
  eapply collecting_after_wrap in E2; [|exact E].
  inv_bind H as s0 w3 E3.
  eapply collecting_after_wrap in E3; [|exact E2].
  inv_bind H as err w4 E4.
  eapply collecting_after_wrap in E4; [|exact E3].
  simpl in E4. clear E E2 E3 HC.
  inv_bind H as u w5 Es. apply ret_inv in H as [[= ->] <-].
  apply when_saving_inv in Es as [[-> ->]|(-> & [[[a b] c] d] & -> & Es)].
  { exists []. split; [exact E4|]. split; [by eexists|]. by split. }
  inv_bind Es as u1 v1 S1.
  eapply collecting_after_save in S1; [|exact E4|elem_solve].
  inv_bind Es as u2 v2 S2.
  eapply collecting_after_save in S2; [|exact S1|elem_solve].
  inv_bind Es as u3 v3 S3.
  eapply collecting_after_save in S3; [|exact S2|elem_solve].
  eapply collecting_after_save in Es; [|exact S3|elem_solve].
  eexists. split; [exact Es|]. split; [by eexists|]. split; [done|].
  intros _. exists (a, b, c, d). by repeat split.
Qed.

Lemma mp2rage_collect_state r dims aff hdr sd files z hp0 f0 w out w' :
  collecting hdr z hp0 f0 [] [] w →
  mp2rage_collect r dims aff hdr sd files w = (Val (Some out), w') →
  ∃ saved,
    collecting hdr z hp0 f0 (images_of out) saved w' ∧
    is_Some (last (images_of out)) ∧
    (sd = false → saved = []) ∧
    (sd = true → ∃ fl, files = Some fl ∧
       saved = zip (images_of out) (mp2rage_file_list fl) ∧
       length (mp2rage_file_list fl) = length (images_of out)).
Proof.
  unfold mp2rage_collect. intros HC H.
  apply fetch_inv in H as (d1 & _ & H).
  apply fetch_inv in H as (d2 & _ & H).
  apply fetch_inv in H as (d3 & _ & H). cbn [fs heap trace] in H.
  inv_bind H as t1 w1 E.
  eapply collecting_after_wrap in E; [|exact HC].
  inv_bind H as r1 w2 E2.
  eapply collecting_after_wrap in E2; [|exact E].
  inv_bind H as uni w3 E3.
  eapply collecting_after_wrap in E3; [|exact E2].
  simpl in E3. clear E E2 HC.
  inv_bind H as u w5 Es. apply ret_inv in H as [[= ->] <-].
  apply when_saving_inv in Es as [[-> ->]|(-> & [[a b] c] & -> & Es)].
  { exists []. split; [exact E3|]. split; [by eexists|]. by split. }
  inv_bind Es as u1 v1 S1.
  eapply collecting_after_save in S1; [|exact E3|elem_solve].
  inv_bind Es as u2 v2 S2.
  eapply collecting_after_save in S2; [|exact S1|elem_solve].
  eapply collecting_after_save in Es; [|exact S2|elem_solve].
  eexists. split; [exact Es|]. split; [by eexists|]. split; [done|].
  intros _. exists (a, b, c). by repeat split.
Qed.

Lemma levelset_collect_state r dims aff hdr sd files z hp0 f0 w out w' :
  collecting hdr z hp0 f0 [] [] w →
  levelset_collect r dims aff hdr sd files w = (Val (Some out), w') →
  ∃ saved,
    collecting hdr z hp0 f0 (images_of out) saved w' ∧
    is_Some (last (images_of out)) ∧
    (sd = false → saved = []) ∧
    (sd = true → ∃ f, files = Some f ∧
       saved = zip (images_of out) [f] ∧
       length [f] = length (images_of out)).
Proof.
  unfold levelset_collect. intros HC H.
  apply fetch_inv in H as (d1 & _ & H). cbn [fs heap trace] in H.
  inv_bind H as levelset w1 E.
  eapply collecting_after_wrap in E; [|exact HC].
  simpl in E. clear HC.
  inv_bind H as u w5 Es. apply ret_inv in H as [[= ->] <-].
  apply when_saving_inv in Es as [[-> ->]|(-> & a & -> & Es)].
  { exists []. split; [exact E|]. split; [by eexists|]. by split. }
  eapply collecting_after_save in Es; [|exact E|elem_solve].
  eexists. split; [exact Es|]. split; [by eexists|]. split; [done|].
  intros _. exists a. by repeat split.
Qed.

(** One round of an output loop of [lcpca_denoising]: the new image,
    and the name it was saved under, if any. *)
Lemma denoise_one_state r getter offset dims aff hdr sd files idx image acc
    z hp0 f0 imgs saved w acc' w' :
  collecting hdr z hp0 f0 imgs saved w →
  denoise_one r getter offset dims aff hdr sd files idx image acc w
    = (Val acc', w') →
  ∃ img ps,
    acc' = acc ++ [img] ∧
    collecting hdr z hp0 f0 (imgs ++ [img]) (saved ++ zip [img] ps) w' ∧
    (sd = false → ps = []) ∧
    (sd = true → length ps = 1 ∧
       ∀ den dimf errf, files = Some (den, dimf, errf) →
         den !! (idx + offset) = ps !! 0).
Proof.
  unfold denoise_one. intros HC H.
  inv_bind H as a w1 E. apply jget_inv in E as [-> ->].
  inv_bind H as d w2 E. apply np_reshape_F_inv in E as [_ ->].
  inv_bind H as img w3 E.
  eapply collecting_after_wrap in E; [|exact HC].
  inv_bind H as u w4 Es. apply ret_inv in H as [-> <-].
  apply when_saving_inv in Es as [[-> ->]|(-> & [[den dimf] errf] & -> & Es)].
  - exists img, []. simpl. rewrite app_nil_r.
    split; [done|]. split; [exact E|]. by split.
  - inv_bind Es as p w5 Ep. apply getitem_inv in Ep as [Hp ->].
    eapply collecting_after_save in Es;
      [|exact E|apply elem_of_app; right; elem_solve].
    exists img, [p]. split; [done|]. split; [exact Es|]. split; [done|].
    intros _. split; [done|]. by intros ? ? ? [= <- <- <-].
Qed.

Lemma zip_nil_r {A B} (l : list A) : zip l ([] : list B) = [].
Proof. by destruct l. Qed.

Lemma denoised_loop_from_state r getter offset dims aff hdr sd files images
    z hp0 f0 i0 acc imgs saved w out w' :
  collecting hdr z hp0 f0 imgs saved w →
  fold_enumerate_from i0 images acc
    (denoise_one r getter offset dims aff hdr sd files) w = (Val out, w') →
  ∃ new ps,
    out = acc ++ new ∧ length new = length images ∧
    collecting hdr z hp0 f0 (imgs ++ new) (saved ++ zip new ps) w' ∧
    (sd = false → ps = []) ∧
    (sd = true → length ps = length images ∧
       ∀ den dimf errf, files = Some (den, dimf, errf) →
         ∀ i, i < length images → den !! (i0 + i + offset) = ps !! i).
Proof.
  revert i0 acc imgs saved w.
  induction images as [|x images IH]; intros i0 acc imgs saved w HC H.
  - apply ret_inv in H as [-> ->]. exists [], []. simpl.
    rewrite !app_nil_r. split; [done|]. split; [done|].
    split; [exact HC|]. split; [done|]. intros _. split; [done|].
    intros; lia.
  - simpl in H. inv_bind H as acc1 w1 E.
    destruct (denoise_one_state _ _ _ _ _ _ _ _ _ _ _ _ _ _ _ _ _ _ _ HC E)
      as (img & ps1 & -> & HC1 & Hoff & Hon).
    destruct (IH _ _ _ _ _ HC1 H)
      as (new & ps2 & -> & Hlen & HC2 & Hoff2 & Hon2).
    exists (img :: new), (ps1 ++ ps2).
    split; [by rewrite <- app_assoc|]. split; [simpl; by rewrite Hlen|].
    destruct sd.
    + destruct Hon as [L1 K1]; [done|]. destruct Hon2 as [L2 K2]; [done|].
      destruct ps1 as [|p [|? ?]]; try done. simpl in *.
      rewrite <- !app_assoc in HC2. simpl in HC2.
      split; [exact HC2|]. split; [done|]. intros _. split; [by rewrite L2|].
      intros den dimf errf Hf [|i] Hi.
      * rewrite Nat.add_0_r. by eapply K1.
      * replace (i0 + S i + offset) with (S i0 + i + offset) by lia.
        simpl. eapply K2; [done|lia].
    + pose proof (Hoff eq_refl) as ->. pose proof (Hoff2 eq_refl) as ->.
      simpl in HC2. rewrite zip_nil_r, !app_nil_r in HC2.
      rewrite <- app_assoc in HC2. simpl in HC2.
      simpl. rewrite app_nil_r. split; [exact HC2|]. by split.
Qed.

Lemma lcpca_collect_state r il pl dims aff hdr sd files z hp0 f0 w out w' :
  collecting hdr z hp0 f0 [] [] w →
  lcpca_collect r il pl dims aff hdr sd files w = (Val (Some out), w') →
  (∀ den dimf errf, files = Some (den, dimf, errf) →
     length den = length il + length (default [] pl)) →
  ∃ saved,
    collecting hdr z hp0 f0 (images_of out) saved w' ∧
    is_Some (last (images_of out)) ∧
    (sd = false → saved = []) ∧
    (sd = true → ∃ fl, files = Some fl ∧
       saved = zip (images_of out) (lcpca_file_list fl) ∧
       length (lcpca_file_list fl) = length (images_of out)).
Proof.
  unfold lcpca_collect, denoised_loop, fold_enumerate. intros HC H Hden.
  inv_bind H as mags w1 E1.
  destruct (denoised_loop_from_state _ _ _ _ _ _ _ _ _ _ _ _ _ _ _ _ _ _ _
              HC E1) as (new1 & ps1 & -> & L1 & HC1 & Hoff1 & Hon1).
  simpl in HC1. clear HC E1.
  inv_bind H as both w2 E2.
  assert (∃ new2 ps2,
    both = new1 ++ new2 ∧ length new2 = length (default [] pl) ∧
    collecting hdr z hp0 f0 (new1 ++ new2) (zip new1 ps1 ++ zip new2 ps2) w2 ∧
    (sd = false → ps2 = []) ∧
    (sd = true → length ps2 = length (default [] pl) ∧
       ∀ den dimf errf, files = Some (den, dimf, errf) →
         ∀ j, j < length (default [] pl) →
           den !! (j + length il) = ps2 !! j))
    as (new2 & ps2 & -> & L2 & HC2 & Hoff2 & Hon2).
  { destruct pl as [l|]; simpl.
    - destruct (denoised_loop_from_state _ _ _ _ _ _ _ _ _ _ _ _ _ _ _ _ _ _ _
                  HC1 E2) as (new2 & ps2 & Hb & L2 & HC2 & Hoff2 & Hon2).
      exists new2, ps2. split; [done|]. split; [done|].
      split; [exact HC2|]. split; [done|]. intros Hsd.
      destruct (Hon2 Hsd) as [P2 K2]. split; [done|].
      intros den dimf errf Hf j Hj. rewrite <- (K2 _ _ _ Hf j Hj).
      f_equal; lia.
    - apply ret_inv in E2 as [-> ->]. exists [], []. simpl.
      rewrite !app_nil_r. split; [done|]. split; [done|].
      split; [exact HC1|]. split; [done|]. intros _. split; [done|].
      intros; lia. }
  clear HC1 E2.
  apply fetch_inv in H as (d1 & _ & H).
  apply fetch_inv in H as (d2 & _ & H). cbn [fs heap trace] in H.
  inv_bind H as dim w3 E3.
  eapply collecting_after_wrap in E3; [|exact HC2].
  inv_bind H as err w4 E4.
  eapply collecting_after_wrap in E4; [|exact E3].
  rewrite <- !app_assoc in E4. simpl in E4. clear E3 HC2.
  inv_bind H as u w5 Es. apply ret_inv in H as [[= ->] <-].
  assert (images_of [("denoised", VList (new1 ++ new2));
                     ("dimensions", VImg dim); ("residuals", VImg err)]
          = new1 ++ new2 ++ [dim; err]) as ->.
  { unfold images_of. simpl. by rewrite <- app_assoc. }
  assert (is_Some (last (new1 ++ new2 ++ [dim; err]))) as Hlast.
  { exists err. by rewrite !last_app. }
  apply when_saving_inv in Es as [[-> ->]|(-> & [[den dimf] errf] & -> & Es)].
  { exists []. rewrite (Hoff1 eq_refl), (Hoff2 eq_refl), !zip_nil_r in E4.
    split; [exact E4|]. split; [done|]. by split. }
  inv_bind Es as u1 v1 S1.
  eapply collecting_after_save in S1;
    [|exact E4|rewrite !elem_of_app; right; right; elem_solve].
  eapply collecting_after_save in Es;
    [|exact S1|rewrite !elem_of_app; right; right; elem_solve].
  destruct Hon1 as [P1 K1]; [done|]. destruct Hon2 as [P2 K2]; [done|].
  assert (den = ps1 ++ ps2) as ->.
  { pose proof (Hden _ _ _ eq_refl) as Ld. apply list_eq. intros i.
    destruct (decide (i < length il)) as [Hi|Hi].
    - rewrite lookup_app_l by lia. rewrite <- (K1 _ _ _ eq_refl i Hi).
      f_equal; lia.
    - rewrite lookup_app_r by lia. rewrite P1.
      destruct (decide (i - length il < length (default [] pl))) as [Hj|Hj].
      + rewrite <- (K2 _ _ _ eq_refl _ Hj). f_equal; lia.
      + rewrite !lookup_ge_None_2; [done|lia|lia]. }
  eexists. split; [exact Es|]. split; [done|]. split; [done|]. intros _.
  exists (ps1 ++ ps2, dimf, errf). split; [done|]. unfold lcpca_file_list.
  split.
  - rewrite <- (app_assoc ps1 ps2). rewrite !zip_with_app by lia.
    simpl. by rewrite <- !app_assoc.
  - rewrite !length_app. simpl. lia.
Qed.

End collect_state.

(* ===================================================================== *)
(** ** What a computed call leaves in memory and on disk *)
(* ===================================================================== *)

Section outcomes.
Context {Num : Numeric} {U : Utils} {J : Native}.
Implicit Types (w : world).

(** From the world after the cache consultation ([w1]) and the world
    after the configuration ([w2]) to the outcome of the call. *)
Lemma outcome_intro w first sd prologue out w' w1 w2 hdr h saved :
  heap w1 = heap w → fs w1 = fs w → fs w2 = fs w1 →
  shares_header w1 first hdr h (heap w2) →
  collecting hdr (zooms h) (heap w2) (fs w2) (images_of out) saved w' →
  is_Some (last (images_of out)) →
  (sd = false → saved = []) →
  (sd = true → ∀ ps wp, prologue w = (Val ps, wp) →
     saved = zip (images_of out) ps ∧ length ps = length (images_of out)) →
  outcome w first sd prologue out w'.
Proof.
  intros Hhp Hfs Hfs2 Hsh HC Hl Hoff Hon. exists hdr, h, (heap w2), saved.
  split; [by eapply shares_header_from|].
  split; [by rewrite <- Hfs, <- Hfs2|]. done.
Qed.

Lemma shares_header_lookup w first hdr h hp :
  shares_header w first hdr h hp → hp !! hdr = Some h.
Proof. by intros (inp & _ & _ & _ & Hh & _). Qed.

Lemma flash_outcome il te sd ov od fn w out w' :
  flash_t2s_fitting il te sd ov od fn w = (Val (Some out), w') →
  (∃ e, is_native e = true ∧ e ∈ emitted w w') →
  outcome w (il !! 0) sd
    (bind (print (nl +:+ "T2* Fitting"))
       (λ _, bind (flash_files il od fn)
               (λ files, ret (flash_file_list files)))) out w'.
Proof.
  unfold flash_t2s_fitting. intros H Hex.
  inv_bind H as u w0 E0. apply log_inv in E0. subst w0.
  inv_bind H as g w1 Eg.
  pose proof (emits_run _ _ _ _ _ (flash_gate_quiet il sd ov od fn) Eg) as Hg.
  destruct g as [o|fo].
  { apply ret_inv in H as [[= ->] ->]. exfalso.
    eapply hit_not_executed; [|exact Hg|exact Hex]. simpl. eauto. }
  apply gate_step in Hg as [Hfs _]. simpl in Hfs.
  pose proof (flash_gate_miss_heap _ _ _ _ _ _ _ _ Eg) as Hhp. simpl in Hhp.
  unfold flash_compute in H.
  inv_bind H as cfg w2 Ec. destruct cfg as [[dims aff] hdr].
  inv_bind H as r w3 Ex.
  apply flash_configure_header in Ec as (Hfs2 & h & Hsh). simpl in Hsh.
  apply execute_guarded_inv in Ex as [_ ->].
  pose proof (collecting_start hdr h
    (World (fs w2) (heap w2) (trace w2 ++ [EvExecute]))
    (shares_header_lookup _ _ _ _ _ Hsh)) as HC. cbn [fs heap] in HC.
  destruct (flash_collect_state _ _ _ _ _ _ _ _ _ _ _ _ HC H)
    as (saved & HC' & Hl & Hoff & Hon).
  eapply (outcome_intro w _ _ _ _ _ w1 w2); try done.
  intros -> ps wp Hps. destruct (Hon eq_refl) as (fl & -> & -> & Hlen).
  inv_bind Hps as u0 v0 E0. apply log_inv in E0. subst v0.
  inv_bind Hps as files wf Ef. apply ret_inv in Hps as [-> _].
  unfold flash_gate in Eg. inv_bind Eg as files' wf' Ef'.
  rewrite Ef in Ef'. injection Ef' as <- <-.
  by apply flash_cached_miss in Eg as [= ->].
Qed.

Lemma mp2rage_outcome fi si it fa itr etr n eff b1 b1map sd ov od fn
    w out w' :
  mp2rage_t1_mapping fi si it fa itr etr n eff b1 b1map sd ov od fn w
    = (Val (Some out), w') →
  (∃ e, is_native e = true ∧ e ∈ emitted w w') →
  outcome w (fi !! 0) sd
    (bind (print (nl +:+ "T1 Mapping"))
       (λ _, bind (mp2rage_files fi od fn)
               (λ files, ret (mp2rage_file_list files)))) out w'.
Proof.
  unfold mp2rage_t1_mapping. intros H Hex.
  inv_bind H as u w0 E0. apply log_inv in E0. subst w0.
  inv_bind H as g w1 Eg.
  pose proof (emits_run _ _ _ _ _ (mp2rage_gate_quiet fi sd ov od fn) Eg)
    as Hg.
  destruct g as [o|fo].
  { apply ret_inv in H as [[= ->] ->]. exfalso.
    eapply hit_not_executed; [|exact Hg|exact Hex]. simpl. eauto. }
  apply gate_step in Hg as [Hfs _]. simpl in Hfs.
  pose proof (mp2rage_gate_miss_heap _ _ _ _ _ _ _ _ Eg) as Hhp.
  simpl in Hhp. unfold mp2rage_compute in H.
  inv_bind H as cfg w2 Ec. destruct cfg as [[dims aff] hdr].
  inv_bind H as r w3 Ex.
  apply mp2rage_configure_header in Ec as (Hfs2 & h & Hsh). simpl in Hsh.
  apply execute_guarded_inv in Ex as [_ ->].
  pose proof (collecting_start hdr h
    (World (fs w2) (heap w2) (trace w2 ++ [EvExecute]))
    (shares_header_lookup _ _ _ _ _ Hsh)) as HC. cbn [fs heap] in HC.
  destruct (mp2rage_collect_state _ _ _ _ _ _ _ _ _ _ _ _ HC H)
    as (saved & HC' & Hl & Hoff & Hon).
  eapply (outcome_intro w _ _ _ _ _ w1 w2); try done.
  intros -> ps wp Hps. destruct (Hon eq_refl) as (fl & -> & -> & Hlen).
  inv_bind Hps as u0 v0 E0. apply log_inv in E0. subst v0.
  inv_bind Hps as files wf Ef. apply ret_inv in Hps as [-> _].
  unfold mp2rage_gate in Eg. inv_bind Eg as files' wf' Ef'.
  rewrite Ef in Ef'. injection Ef' as <- <-.
  by apply mp2rage_cached_miss in Eg as [= ->].
Qed.

Lemma levelset_outcome imgs topo lut sd ov od fn w out w' :
  levelset_fusion imgs topo lut sd ov od fn w = (Val (Some out), w') →
  (∃ e, is_native e = true ∧ e ∈ emitted w w') →
  outcome w (imgs !! 0) sd
    (bind (bind (print (nl +:+ "Levelset Shape Fusion"))
             (λ _, bind (check_topology_lut_dir lut) (λ _, ret ())))
       (λ _, bind (levelset_files imgs od fn) (λ f, ret [f]))) out w'.
Proof.
  unfold levelset_fusion. intros H Hex.
  inv_bind H as u w0 E0. apply log_inv in E0. subst w0.
  inv_bind H as lut' wl El. apply lift_sum_inv in El as [Hlut ->].
  inv_bind H as g w1 Eg.
  pose proof (emits_run _ _ _ _ _ (levelset_gate_quiet imgs sd ov od fn) Eg)
    as Hg.
  destruct g as [o|fo].
  { apply ret_inv in H as [[= ->] ->]. exfalso.
    eapply hit_not_executed; [|exact Hg|exact Hex]. simpl. eauto. }
  apply gate_step in Hg as [Hfs _]. simpl in Hfs.
  pose proof (levelset_gate_miss_heap _ _ _ _ _ _ _ _ Eg) as Hhp.
  simpl in Hhp. unfold levelset_compute in H.
  inv_bind H as cfg w2 Ec. destruct cfg as [[dims aff] hdr].
  inv_bind H as r w3 Ex.
  apply levelset_configure_header in Ec as (Hfs2 & h & Hsh). simpl in Hsh.
  apply execute_guarded_inv in Ex as [_ ->].
  pose proof (collecting_start hdr h
    (World (fs w2) (heap w2) (trace w2 ++ [EvExecute]))
    (shares_header_lookup _ _ _ _ _ Hsh)) as HC. cbn [fs heap] in HC.
  destruct (levelset_collect_state _ _ _ _ _ _ _ _ _ _ _ _ HC H)
    as (saved & HC' & Hl & Hoff & Hon).
  eapply (outcome_intro w _ _ _ _ _ w1 w2); try done.
  intros -> ps wp Hps. destruct (Hon eq_refl) as (fl & -> & -> & Hlen).
  inv_bind Hps as u0 v0 E0. inv_bind E0 as u1 v1 E1.
  apply log_inv in E1. subst v1.
  inv_bind E0 as d v2 E2. apply lift_sum_inv in E2 as [_ ->].
  apply ret_inv in E0 as [_ ->].
  inv_bind Hps as files wf Ef. apply ret_inv in Hps as [-> _].
  unfold levelset_gate in Eg. inv_bind Eg as files' wf' Ef'.
  rewrite Ef in Ef'. injection Ef' as <- <-.
  by apply levelset_cached_miss in Eg as [= ->].
Qed.

Lemma lcpca_outcome il pl ngb cut dmin dmax sd ov od fn w out w' :
  lcpca_denoising il pl ngb cut dmin dmax sd ov od fn w
    = (Val (Some out), w') →
  (∃ e, is_native e = true ∧ e ∈ emitted w w') →
  outcome w (il !! 0) sd
    (bind (print (nl +:+ "LCPCA denoising"))
       (λ _, bind (lcpca_files il pl od fn)
               (λ files, ret (lcpca_file_list files)))) out w'.
Proof.
  unfold lcpca_denoising. intros H Hex.
  inv_bind H as u w0 E0. apply log_inv in E0. subst w0.
  inv_bind H as g w1 Eg.
  pose proof (emits_run _ _ _ _ _ (lcpca_gate_quiet il pl sd ov od fn) Eg)
    as Hg.
  destruct g as [o|fo].
  { apply ret_inv in H as [[= ->] ->]. exfalso.
    eapply hit_not_executed; [|exact Hg|exact Hex]. simpl. eauto. }
  apply gate_step in Hg as [Hfs _]. simpl in Hfs.
  pose proof (lcpca_gate_miss_heap _ _ _ _ _ _ _ _ _ Eg) as Hhp.
  simpl in Hhp. unfold lcpca_compute in H.
  inv_bind H as u1 v1 E1. apply log_inv in E1. subst v1.
  inv_bind H as u2 v2 E2. apply log_inv in E2. subst v2.
  inv_bind H as u3 v3 E3. apply log_inv in E3. subst v3.
  cbn [fs heap trace] in H.
  assert (lcpca_run il pl ngb cut dmin dmax sd fo
            (World (fs w1) (heap w1)
               (((trace w1 ++ [EvInitVM]) ++
                 [EvNew "IntensityComplexPCADenoising"]) ++
                [EvCall "setImageNumber" [JInt (Z.of_nat (length il))]]))
          = (Val (Some out), w')) as Hrun.
  { destruct pl as [l|]; [|done]. case_bool_decide; [|done].
    inv_bind H as u4 v4 E4. by apply ret_inv in H as [? _]. }
  clear H. unfold lcpca_run in Hrun.
  inv_bind Hrun as cfg w2 Ec. destruct cfg as [[dims aff] hdr].
  inv_bind Hrun as r w3 Ex.
  apply lcpca_configure_header in Ec as (Hfs2 & h & Hsh).
  cbn [fs heap snd] in Hfs2, Hsh.
  apply execute_guarded_inv in Ex as [_ ->].
  pose proof (collecting_start hdr h
    (World (fs w2) (heap w2) (trace w2 ++ [EvExecute]))
    (shares_header_lookup _ _ _ _ _ Hsh)) as HC. cbn [fs heap] in HC.
  assert (∀ den dimf errf, fo = Some (den, dimf, errf) →
            length den = length il + length (default [] pl)) as Hden.
  { intros den dimf errf ->. unfold lcpca_gate in Eg.
    destruct sd; [|by apply ret_inv in Eg as [? _]].
    inv_bind Eg as files' wf' Ef'.
    apply lcpca_cached_miss in Eg as [= <-].
    by eapply lcpca_files_length. }
  destruct (lcpca_collect_state _ _ _ _ _ _ _ _ _ _ _ _ _ _ HC Hrun Hden)
    as (saved & HC' & Hl & Hoff & Hon).
  refine (outcome_intro w _ _ _ _ _ w1 w2 hdr h saved Hhp Hfs Hfs2
            (shares_header_from w1 _ _ _ _ _ eq_refl eq_refl Hsh)
            HC' Hl Hoff _).
  intros -> ps wp Hps. destruct (Hon eq_refl) as (fl & -> & -> & Hlen).
  inv_bind Hps as u0 v0 E0. apply log_inv in E0. subst v0.
  inv_bind Hps as files wf Ef. apply ret_inv in Hps as [-> _].
  unfold lcpca_gate in Eg. inv_bind Eg as files' wf' Ef'.
  rewrite Ef in Ef'. injection Ef' as <- <-.
  by apply lcpca_cached_miss in Eg as [= ->].
Qed.

Lemma invoke_outcome (c : api_call) w out w' :
  invoke c w = (Val (Some out), w') →
  EvExecute ∈ emitted w w' →
  outcome w (first_input c) (save_data (options c))
    (bind (banner c) (λ _, output_files c)) out w'.
Proof.
  intros H Hex.
  assert (∃ e, is_native e = true ∧ e ∈ emitted w w') as Hn
    by (by exists EvExecute).
  destruct c as [il te o|il pl ngb cut dmin dmax o
                |fi si it fa itr etr n eff b1 b1map o|imgs topo lut o];
    destruct o as [sd ov od fn]; simpl in *.
  - eapply flash_outcome; [exact H|exact Hn].
  - eapply lcpca_outcome; [exact H|exact Hn].
  - eapply mp2rage_outcome; [exact H|exact Hn].
  - eapply levelset_outcome; [exact H|exact Hn].
Qed.

End outcomes.

Section state_results.
Context {Num : Numeric} {U : Utils} {J : Native}.
Implicit Types (w : world).

(** Every image of a computed result has, in its own header, the voxel
    sizes of the header of the first input, read when the call was
    made: the wrappers change only cal_min and cal_max of the header
    they hand to nb.Nifti1Image. *)
Theorem outputs_inherit_voxel_sizes (c : api_call) w out w' :
  invoke c w = (Val (Some out), w') →
  EvExecute ∈ emitted w w' →
  ∃ inp h0,
    first_input c = Some inp ∧ input_header w inp = Some h0 ∧
    Forall (λ img, ∃ h, heap w' !! img_header img = Some h ∧
                        zooms h = zooms h0)
      (images_of out).
Proof.
  intros H Hex.
  destruct (invoke_outcome c w out w' H Hex)
    as (hdr & h & hp0 & saved & (inp & Hf & Hi & _) & HC & _).
  exists inp, h. split; [done|]. split; [done|]. by eapply collecting_zooms.
Qed.

(** The header of the first input is changed in place.  When the first
    input is an image object, after a computed call its header object
    equals the header of the last image of the result, so its cal_min
    and cal_max are the nanmin and nanmax of that image's data; no other
    header object that existed before the call is changed.  When the
    first input is a file name, no header object that existed before
    the call is changed. *)
Theorem first_input_header_updated_in_place (c : api_call) w out w' :
  invoke c w = (Val (Some out), w') →
  EvExecute ∈ emitted w w' →
  ∃ inp lst,
    first_input c = Some inp ∧ last (images_of out) = Some lst ∧
    match inp with
    | InMemory img0 =>
        (∃ h, heap w' !! img_header img0 = Some h ∧
              heap w' !! img_header lst = Some h ∧
              reduce np_fmin (elems (img_data lst)) = Some (cal_min h) ∧
              reduce np_fmax (elems (img_data lst)) = Some (cal_max h)) ∧
        (∀ l, l < length (heap w) → l ≠ img_header img0 →
              heap w' !! l = heap w !! l)
    | FromFile _ =>
        ∀ l, l < length (heap w) → heap w' !! l = heap w !! l
    end.
Proof.
  intros H Hex.
  destruct (invoke_outcome c w out w' H Hex)
    as (hdr & h & hp0 & saved & (inp & Hf & Hi & Hp & Hh & Hm & Hn)
        & (HB & HF & _) & [lst Hl] & _).
  assert (∀ l, l < length (heap w) → l ≠ hdr → heap w' !! l = heap w !! l)
    as Hframe.
  { intros l Hlt Hne. pose proof (prefix_length _ _ Hp).
    rewrite HF by (done || lia).
    destruct (lookup_lt_is_Some_2 _ _ Hlt) as [x Hx]. rewrite Hx.
    by eapply prefix_lookup_Some. }
  exists inp, lst. split; [done|]. split; [done|].
  destruct inp as [p|img0].
  - intros l Hlt. apply Hframe; [done|]. specialize (Hn p eq_refl). lia.
  - rewrite (Hm img0 eq_refl) in *. split; [|done].
    destruct (invoke_computed c w out w' H) as [(cfg & r & _ & _ & HFr) _].
    { by exists EvExecute. }
    rewrite Forall_forall in HFr.
    destruct (HFr lst) as (_ & _ & (h' & Hh' & Hlo & Hhi) & _).
    { apply last_Some in Hl as [l' ->]. apply elem_of_app. right.
      by apply list_elem_of_singleton. }
    exists h'. destruct HB as (_ & _ & _ & _ & Hlast).
    by rewrite (Hlast lst Hl).
Qed.

(** What a saving run leaves on disk.  There are as many output names
    as images in the result; a name holds the image saved under it
    last, with the header that image has on return, so when no name
    occurs twice every file holds the image returned for it; and no
    file outside the output names is created or changed. *)
Theorem saved_files_hold_returned_images (c : api_call) w out w' ps w1 :
  invoke c w = (Val (Some out), w') →
  EvExecute ∈ emitted w w' →
  save_data (options c) = true →
  bind (banner c) (λ _, output_files c) w = (Val ps, w1) →
  length ps = length (images_of out) ∧
  (∀ i img p, images_of out !! i = Some img → ps !! i = Some p →
     (∀ j, i < j → ps !! j ≠ Some p) →
     ∃ s, view (heap w') img = Some s ∧ fs w' !! p = Some s) ∧
  (∀ p, p ∉ ps → fs w' !! p = fs w !! p).
Proof.
  intros H Hex Hsd Hps.
  destruct (invoke_outcome c w out w' H Hex)
    as (hdr & h & hp0 & saved & _ & HC & _ & _ & Hon).
  destruct (Hon Hsd ps w1 Hps) as [-> Hlen]. split; [done|].
  by eapply collecting_files.
Qed.

End state_results.

(* ===================================================================== *)
(** ** A saving run followed by the same call *)
(* ===================================================================== *)

Section oblivious_steps.
Context {Num : Numeric} {U : Utils} {J : Native}.
Implicit Types (w : world).

Lemma oblivious_ret {A} (a : A) : oblivious (ret a).
Proof. by intros w w'. Qed.

Lemma oblivious_raise {A} e : oblivious (raise (A:=A) e).
Proof. by intros w w'. Qed.

Lemma oblivious_log e : oblivious (log e).
Proof. by intros w w'. Qed.

Lemma oblivious_lift_sum {A} (r : exn + A) : oblivious (lift_sum r).
Proof. destruct r; [apply oblivious_raise | apply oblivious_ret]. Qed.

Lemma oblivious_getitem {A} (l : list A) i : oblivious (getitem l i).
Proof.
  unfold getitem.
  destruct (l !! i); [apply oblivious_ret | apply oblivious_raise].
Qed.

Lemma oblivious_bind {A B} (m : M A) (k : A → M B) :
  oblivious m → (∀ a, oblivious (k a)) → oblivious (bind m k).
Proof.
  intros Hm Hk w w'. unfold bind. specialize (Hm w w').
  destruct (m w) as [[a|e] w1], (m w') as [[a'|e'] w1']; simpl in *;
    try done.
  - injection Hm as <-. apply Hk.
  - by injection Hm as <-.
Qed.

Lemma oblivious_fold_enumerate_from {A B} i (l : list A) (acc : B) body :
  (∀ i x acc, oblivious (body i x acc)) →
  oblivious (fold_enumerate_from i l acc body).
Proof.
  intros Hb. revert i acc. induction l as [|x l IH]; intros i acc; simpl.
  - apply oblivious_ret.
  - apply oblivious_bind; [apply Hb|]. intros a. apply IH.
Qed.

End oblivious_steps.

Ltac oblivious_auto :=
  unfold print, output_dir_4saving, fname_4saving, check_topology_lut_dir;
  repeat first
    [ apply oblivious_ret | apply oblivious_raise | apply oblivious_log
    | apply oblivious_lift_sum | apply oblivious_getitem
    | apply oblivious_fold_enumerate_from; intros
    | apply oblivious_bind; [|intros]
    | match goal with
      | |- oblivious (match ?x with _ => _ end) => destruct x
      end
    | progress cbv zeta ].

Section round_trip.
Context {Num : Numeric} {U : Utils} {J : Native}.
Implicit Types (w : world).

(** The output names do not depend on the state of the disk or of the
    memory. *)
Lemma prologue_oblivious (c : api_call) :
  oblivious (bind (banner c) (λ _, output_files c)).
Proof.
  destruct c; unfold banner, output_files, flash_files, lcpca_files,
    den_names, fold_enumerate, mp2rage_files, levelset_files;
    oblivious_auto.
Qed.

Lemma prologue_again (c : api_call) w w' ps w1 :
  bind (banner c) (λ _, output_files c) w = (Val ps, w1) →
  ∃ w1', bind (banner c) (λ _, output_files c) w' = (Val ps, w1').
Proof.
  intros H. pose proof (prologue_oblivious c w w') as Ho.
  rewrite H in Ho. simpl in Ho.
  destruct (bind (banner c) (λ _, output_files c) w') as [r w1'].
  simpl in Ho. subst r. eauto.
Qed.

(** A call that finds all its output files. *)
Lemma cached_call_returns_files (c : api_call) w ps w1 :
  save_data (options c) = true → overwrite (options c) = false →
  bind (banner c) (λ _, output_files c) w = (Val ps, w1) →
  Forall (λ p, is_Some (fs w !! p)) ps →
  ∃ out w',
    invoke c w = (Val (Some out), w') ∧
    fs w' = fs w ∧
    Forall (λ e, is_native e = false) (emitted w w') ∧
    Forall2 (λ img p, view (heap w') img = fs w !! p) (images_of out) ps.
Proof.
  destruct c as [il te o|il pl ngb cut dmin dmax o
                |fi si it fa itr etr n eff b1 b1map o|imgs topo lut o];
    destruct o as [sd ov od fn]; simpl; intros -> -> Hps HF.
  - inv_bind Hps as u w0 E0. apply log_inv in E0. subst w0.
    inv_bind Hps as files wf Ef. apply ret_inv in Hps as [-> <-].
    pose proof (emits_run _ _ _ _ _ (flash_files_quiet il od fn) Ef) as S1.
    pose proof (step_ok_print (λ e, is_gate_event e = true) w
                  (nl +:+ "T2* Fitting") eq_refl) as S0.
    destruct (gate_step _ _ (step_ok_trans _ _ _ _ S0 S1)) as [Hfs _].
    unfold flash_t2s_fitting, print. rewrite bind_log.
    unfold flash_gate. rewrite bind_assoc, (bind_Val _ _ _ _ _ Ef).
    destruct (flash_cached_hit files w1) as (out & w' & Ec & HV);
      [by eapply exists_transport|].
    rewrite (bind_Val _ _ _ _ _ Ec). exists out, w'. split; [done|].
    eapply hit_result; eauto.
    by eapply emits_run; [apply flash_cached_quiet|].
  - inv_bind Hps as u w0 E0. apply log_inv in E0. subst w0.
    inv_bind Hps as files wf Ef. apply ret_inv in Hps as [-> <-].
    pose proof (emits_run _ _ _ _ _ (lcpca_files_quiet il pl od fn) Ef) as S1.
    pose proof (step_ok_print (λ e, is_gate_event e = true) w
                  (nl +:+ "LCPCA denoising") eq_refl) as S0.
    destruct (gate_step _ _ (step_ok_trans _ _ _ _ S0 S1)) as [Hfs _].
    unfold lcpca_denoising, print. rewrite bind_log.
    unfold lcpca_gate. rewrite bind_assoc, (bind_Val _ _ _ _ _ Ef).
    destruct (lcpca_cached_hit files w1) as (out & w' & Ec & HV);
      [by eapply exists_transport|].
    rewrite (bind_Val _ _ _ _ _ Ec). exists out, w'. split; [done|].
    eapply hit_result; eauto.
    by eapply emits_run; [apply lcpca_cached_quiet|].
  - inv_bind Hps as u w0 E0. apply log_inv in E0. subst w0.
    inv_bind Hps as files wf Ef. apply ret_inv in Hps as [-> <-].
    pose proof (emits_run _ _ _ _ _ (mp2rage_files_quiet fi od fn) Ef) as S1.
    pose proof (step_ok_print (λ e, is_gate_event e = true) w
                  (nl +:+ "T1 Mapping") eq_refl) as S0.
    destruct (gate_step _ _ (step_ok_trans _ _ _ _ S0 S1)) as [Hfs _].
    unfold mp2rage_t1_mapping, print. rewrite bind_log.
    unfold mp2rage_gate. rewrite bind_assoc, (bind_Val _ _ _ _ _ Ef).
    destruct (mp2rage_cached_hit files w1) as (out & w' & Ec & HV);
      [by eapply exists_transport|].
    rewrite (bind_Val _ _ _ _ _ Ec). exists out, w'. split; [done|].
    eapply hit_result; eauto.
    by eapply emits_run; [apply mp2rage_cached_quiet|].
  - inv_bind Hps as u w0 E0. inv_bind E0 as u1 v1 E1.
    apply log_inv in E1. subst v1.
    inv_bind E0 as dir v2 E2. pose proof E2 as E2'.
    apply lift_sum_inv in E2' as [_ ->].
    apply ret_inv in E0 as [_ ->].
    inv_bind Hps as f wf Ef. apply ret_inv in Hps as [-> <-].
    pose proof (emits_run _ _ _ _ _ (levelset_files_quiet imgs od fn) Ef)
      as S1.
    pose proof (step_ok_print (λ e, is_gate_event e = true) w
                  (nl +:+ "Levelset Shape Fusion") eq_refl) as S0.
    destruct (gate_step _ _ (step_ok_trans _ _ _ _ S0 S1)) as [Hfs _].
    unfold levelset_fusion, print. rewrite bind_log.
    rewrite (bind_Val _ _ _ _ _ E2).
    unfold levelset_gate. rewrite bind_assoc, (bind_Val _ _ _ _ _ Ef).
    destruct (levelset_cached_hit f w1) as (out & w' & Ec & HV);
      [by eapply exists_transport|].
    rewrite (bind_Val _ _ _ _ _ Ec). exists out, w'. split; [done|].
    eapply hit_result; eauto.
    by eapply emits_run; [apply levelset_cached_quiet|].
Qed.

(** Save, then load.  After a saving run whose output names are all
    different, the same call made again with overwrite=False returns
    from the files, without any call into the native layer and without
    touching the disk, and every image it returns has the data, the
    affine and the header values of the image the first run returned in
    that place. *)
Theorem saved_results_come_back_from_cache (c : api_call) w out w' ps w1 :
  invoke c w = (Val (Some out), w') →
  EvExecute ∈ emitted w w' →
  save_data (options c) = true → overwrite (options c) = false →
  bind (banner c) (λ _, output_files c) w = (Val ps, w1) →
  NoDup ps →
  ∃ out2 w2,
    invoke c w' = (Val (Some out2), w2) ∧
    fs w2 = fs w' ∧
    Forall (λ e, is_native e = false) (emitted w' w2) ∧
    Forall2 (λ img2 img,
               is_Some (view (heap w') img) ∧
               view (heap w2) img2 = view (heap w') img)
      (images_of out2) (images_of out).
Proof.
  intros H Hex Hsd Hov Hps Hnd.
  destruct (invoke_outcome c w out w' H Hex)
    as (hdr & h & hp0 & saved & _ & HC & _ & _ & Hon).
  destruct (Hon Hsd ps w1 Hps) as [-> Hlen].
  destruct (collecting_files _ _ _ _ _ _ _ HC Hlen) as [Hfiles _].
  assert (∀ i img p, images_of out !! i = Some img → ps !! i = Some p →
            ∃ s, view (heap w') img = Some s ∧ fs w' !! p = Some s) as Hat.
  { intros i img p Hi Hp. apply (Hfiles i img p Hi Hp).
    intros j Hij Hj. pose proof (NoDup_lookup _ _ _ _ Hnd Hp Hj). lia. }
  destruct (prologue_again c w w' ps w1 Hps) as [w1' Hps'].
  destruct (cached_call_returns_files c w' ps w1' Hsd Hov Hps')
    as (out2 & w2 & Hinv & Hfs & Hnat & HV).
  { apply Forall_lookup_2. intros i p Hp.
    destruct (lookup_lt_is_Some_2 (images_of out) i) as [img Hi].
    { rewrite <- Hlen. by eapply lookup_lt_Some. }
    destruct (Hat i img p Hi Hp) as (s & _ & ->). eauto. }
  exists out2, w2. repeat (split; [done|]).
  apply Forall2_same_length_lookup_2.
  { apply Forall2_length in HV. lia. }
  intros i img2 img Hi2 Hi.
  destruct (lookup_lt_is_Some_2 ps i) as [p Hp].
  { rewrite Hlen. by eapply lookup_lt_Some. }
  destruct (Hat i img p Hi Hp) as (s & Hs & Hf).
  rewrite (Forall2_lookup_lr _ _ _ _ _ _ HV Hi2 Hp), Hs, Hf. eauto.
Qed.

End round_trip.

(* ===================================================================== *)
(** ** The further properties on concrete runs *)
(* ===================================================================== *)

Section further_witnesses.
Import Demo.

(** An empty image list, nothing to be saved. *)
Lemma empty_input_raises_index_error_witness :
  (@invoke numeric utils (native_ok 8)
     (@FlashT2sFitting numeric [] [Num 10] no_save) (world0 (2, 2, 2))).1
    = Exc IndexError ∧
  fs (@invoke numeric utils (native_ok 8)
        (@FlashT2sFitting numeric [] [Num 10] no_save) (world0 (2, 2, 2))).2
    = fs (world0 (2, 2, 2)) ∧
  Forall (λ e, is_push_or_run e = false ∧ is_write e = false)
    (emitted (world0 (2, 2, 2))
       (@invoke numeric utils (native_ok 8)
          (@FlashT2sFitting numeric [] [Num 10] no_save) (world0 (2, 2, 2))).2) ∧
  (save_data no_save = true →
     Forall (λ e, is_native e = false)
       (emitted (world0 (2, 2, 2))
          (@invoke numeric utils (native_ok 8)
             (@FlashT2sFitting numeric [] [Num 10] no_save) (world0 (2, 2, 2))).2)).
Proof.
  apply (empty_input_raises_index_error
           (Num := numeric) (U := utils) (J := native_ok 8)
           (@FlashT2sFitting numeric [] [Num 10] no_save) (world0 (2, 2, 2)));
    [reflexivity | exact I].
Defined.

(** Two magnitude images, no phase list. *)
Lemma lcpca_without_phases_returns_magnitudes_witness :
  ∃ dims (r : string → list (@jarg numeric) → list num) denoised dim err,
    (∃ tr, @jvm_execute numeric (native_ok 8) tr = inr r) ∧
    returned (native_ok 8)
      (@LcpcaDenoising numeric echoes None 4 (Num 1) 0 (-1) no_save)
      (world0 (2, 2, 2))
      = [("denoised", VList denoised); ("dimensions", VImg dim);
         ("residuals", VImg err)] ∧
    length denoised = length echoes ∧
    (∀ i, i < length echoes → ∃ img,
       denoised !! i = Some img ∧
       reshape_F (@np_float32 numeric <$>
                    r "getDenoisedMagnitudeImageAt" [JInt (Z.of_nat i)]) dims
         = Some (img_data img)) ∧
    Forall (λ e, is_phase_event e = false)
      (emitted (world0 (2, 2, 2))
         (@invoke numeric utils (native_ok 8)
            (@LcpcaDenoising numeric echoes None 4 (Num 1) 0 (-1) no_save)
            (world0 (2, 2, 2))).2).
Proof.
  apply (lcpca_without_phases_returns_magnitudes
           (Num := numeric) (U := utils) (J := native_ok 8)
           echoes 4 (Num 1) 0 (-1) false false None None (world0 (2, 2, 2))
           (returned (native_ok 8)
              (@LcpcaDenoising numeric echoes None 4 (Num 1) 0 (-1) no_save)
              (world0 (2, 2, 2)))
           (@invoke numeric utils (native_ok 8)
              (@LcpcaDenoising numeric echoes None 4 (Num 1) 0 (-1) no_save)
              (world0 (2, 2, 2))).2).
  - by vm_compute.
  - vm_compute. elem_solve.
Defined.

(** The FLASH scenario, saving to [out]. *)
Lemma saving_starts_after_last_output_witness :
  (∀ pre p post,
     emitted (world0 (2, 2, 2))
       (@invoke numeric utils (native_ok 8) (flash_call (save_to_out false))
          (world0 (2, 2, 2))).2 = pre ++ EvSave p :: post →
     Forall (λ e, is_save e = true) post) ∧
  (∀ e, (@invoke numeric utils (native_ok 8) (flash_call (save_to_out false))
           (world0 (2, 2, 2))).1 = Exc e →
        fs (@invoke numeric utils (native_ok 8)
              (flash_call (save_to_out false)) (world0 (2, 2, 2))).2
          = fs (world0 (2, 2, 2)) ∧
        Forall (λ e, is_save e = false)
          (emitted (world0 (2, 2, 2))
             (@invoke numeric utils (native_ok 8)
                (flash_call (save_to_out false)) (world0 (2, 2, 2))).2)).
Proof.
  apply (saving_starts_after_last_output
           (Num := numeric) (U := utils) (J := native_ok 8)
           (flash_call (save_to_out false)) (world0 (2, 2, 2))).
  discriminate.
Defined.

(** The FLASH scenario after a saving run, called again with another
    second image and other echo times. *)
Lemma cached_result_ignores_other_arguments_witness :
  @invoke numeric utils (native_ok 8)
    (@FlashT2sFitting numeric [FromFile "echo1.nii"; FromFile "nowhere.nii"]
       [Num 99] (save_to_out false)) flash_saved
  = @invoke numeric utils (native_ok 8) (flash_call (save_to_out false))
      flash_saved.
Proof.
  apply (cached_result_ignores_other_arguments
           (Num := numeric) (U := utils) (J := native_ok 8)
           (flash_call (save_to_out false))
           (@FlashT2sFitting numeric [FromFile "echo1.nii"; FromFile "nowhere.nii"]
              [Num 99] (save_to_out false))
           flash_saved
           (resolved (flash_call (save_to_out false)) flash_saved)
           (prologue_end (flash_call (save_to_out false)) flash_saved));
    [reflexivity | reflexivity | by vm_compute | | reflexivity | reflexivity
     | by vm_compute].
  vm_compute. repeat constructor; eexists; reflexivity.
Defined.

End further_witnesses.

(* ===================================================================== *)
(** ** Memory and disk after concrete runs *)
(* ===================================================================== *)

Section state_witnesses.
Import Demo.

(** A level set fusion of two stored 2x2x2 volumes, nothing saved. *)
Lemma outputs_inherit_voxel_sizes_witness :
  ∃ inp h0,
    first_input (levelset_call no_save) = Some inp ∧
    input_header (world0 (2, 2, 2)) inp = Some h0 ∧
    Forall (λ img,
      ∃ h, heap (@invoke numeric utils (native_ok 8) (levelset_call no_save)
                   (world0 (2, 2, 2))).2 !! img_header img = Some h ∧
           zooms h = zooms h0)
      (images_of (returned (native_ok 8) (levelset_call no_save)
                    (world0 (2, 2, 2)))).
Proof.
  apply (outputs_inherit_voxel_sizes
           (Num := numeric) (U := utils) (J := native_ok 8)
           (levelset_call no_save) (world0 (2, 2, 2))
           (returned (native_ok 8) (levelset_call no_save)
              (world0 (2, 2, 2)))
           (@invoke numeric utils (native_ok 8) (levelset_call no_save)
              (world0 (2, 2, 2))).2).
  - by vm_compute.
  - vm_compute. elem_solve.
Defined.

(** A level set fusion of one image object, whose header object the
    caller holds at address 0, and one stored volume. *)
Lemma first_input_header_updated_in_place_witness :
  ∃ inp lst,
    first_input
      (@LevelsetFusion numeric
         [InMemory (@Niimg numeric (vol (2, 2, 2) 100) aff0 0);
          FromFile "echo2.nii"] true None no_save) = Some inp ∧
    last (images_of
            (returned (native_ok 8)
               (@LevelsetFusion numeric
                  [InMemory (@Niimg numeric (vol (2, 2, 2) 100) aff0 0);
                   FromFile "echo2.nii"] true None no_save)
               (@World numeric (disk (2, 2, 2)) [hdr0] []))) = Some lst ∧
    match inp with
    | InMemory img0 =>
        (∃ h,
           heap (@invoke numeric utils (native_ok 8)
                   (@LevelsetFusion numeric
                      [InMemory (@Niimg numeric (vol (2, 2, 2) 100) aff0 0);
                       FromFile "echo2.nii"] true None no_save)
                   (@World numeric (disk (2, 2, 2)) [hdr0] [])).2
             !! img_header img0 = Some h ∧
           heap (@invoke numeric utils (native_ok 8)
                   (@LevelsetFusion numeric
                      [InMemory (@Niimg numeric (vol (2, 2, 2) 100) aff0 0);
                       FromFile "echo2.nii"] true None no_save)
                   (@World numeric (disk (2, 2, 2)) [hdr0] [])).2
             !! img_header lst = Some h ∧
           reduce (@np_fmin numeric) (elems (img_data lst))
             = Some (cal_min h) ∧
           reduce (@np_fmax numeric) (elems (img_data lst))
             = Some (cal_max h)) ∧
        (∀ l, l < length (heap (@World numeric (disk (2, 2, 2)) [hdr0] [])) →
              l ≠ img_header img0 →
              heap (@invoke numeric utils (native_ok 8)
                      (@LevelsetFusion numeric
                         [InMemory (@Niimg numeric (vol (2, 2, 2) 100) aff0 0);
                          FromFile "echo2.nii"] true None no_save)
                      (@World numeric (disk (2, 2, 2)) [hdr0] [])).2 !! l
              = heap (@World numeric (disk (2, 2, 2)) [hdr0] []) !! l)
    | FromFile _ =>
        ∀ l, l < length (heap (@World numeric (disk (2, 2, 2)) [hdr0] [])) →
             heap (@invoke numeric utils (native_ok 8)
                     (@LevelsetFusion numeric
                        [InMemory (@Niimg numeric (vol (2, 2, 2) 100) aff0 0);
                         FromFile "echo2.nii"] true None no_save)
                     (@World numeric (disk (2, 2, 2)) [hdr0] [])).2 !! l
             = heap (@World numeric (disk (2, 2, 2)) [hdr0] []) !! l
    end.
Proof.
  apply (first_input_header_updated_in_place
           (Num := numeric) (U := utils) (J := native_ok 8)
           (@LevelsetFusion numeric
              [InMemory (@Niimg numeric (vol (2, 2, 2) 100) aff0 0);
               FromFile "echo2.nii"] true None no_save)
           (@World numeric (disk (2, 2, 2)) [hdr0] [])
           (returned (native_ok 8)
              (@LevelsetFusion numeric
                 [InMemory (@Niimg numeric (vol (2, 2, 2) 100) aff0 0);
                  FromFile "echo2.nii"] true None no_save)
              (@World numeric (disk (2, 2, 2)) [hdr0] []))
           (@invoke numeric utils (native_ok 8)
              (@LevelsetFusion numeric
                 [InMemory (@Niimg numeric (vol (2, 2, 2) 100) aff0 0);
                  FromFile "echo2.nii"] true None no_save)
              (@World numeric (disk (2, 2, 2)) [hdr0] [])).2).
  - by vm_compute.
  - vm_compute. elem_solve.
Defined.

(** The FLASH scenario on 2x2x2 echoes, saving to [out]. *)
Lemma saved_files_hold_returned_images_witness :
  length (resolved (flash_call (save_to_out false)) (world0 (2, 2, 2)))
    = length (images_of (returned (native_ok 8)
                           (flash_call (save_to_out false))
                           (world0 (2, 2, 2)))) ∧
  (∀ i img p,
     images_of (returned (native_ok 8) (flash_call (save_to_out false))
                  (world0 (2, 2, 2))) !! i = Some img →
     resolved (flash_call (save_to_out false)) (world0 (2, 2, 2)) !! i
       = Some p →
     (∀ j, i < j →
        resolved (flash_call (save_to_out false)) (world0 (2, 2, 2)) !! j
          ≠ Some p) →
     ∃ s,
       view (heap (@invoke numeric utils (native_ok 8)
                     (flash_call (save_to_out false))
                     (world0 (2, 2, 2))).2) img = Some s ∧
       fs (@invoke numeric utils (native_ok 8)
             (flash_call (save_to_out false)) (world0 (2, 2, 2))).2 !! p
         = Some s) ∧
  (∀ p, p ∉ resolved (flash_call (save_to_out false)) (world0 (2, 2, 2)) →
     fs (@invoke numeric utils (native_ok 8)
           (flash_call (save_to_out false)) (world0 (2, 2, 2))).2 !! p
       = fs (world0 (2, 2, 2)) !! p).
Proof.
  apply (saved_files_hold_returned_images
           (Num := numeric) (U := utils) (J := native_ok 8)
           (flash_call (save_to_out false)) (world0 (2, 2, 2))
           (returned (native_ok 8) (flash_call (save_to_out false))
              (world0 (2, 2, 2)))
           (@invoke numeric utils (native_ok 8)
              (flash_call (save_to_out false)) (world0 (2, 2, 2))).2
           (resolved (flash_call (save_to_out false)) (world0 (2, 2, 2)))
           (prologue_end (flash_call (save_to_out false))
              (world0 (2, 2, 2)))).
  - by vm_compute.
  - vm_compute. elem_solve.
  - reflexivity.
  - by vm_compute.
Defined.

(** The FLASH scenario on 2x2x2 echoes, saving to [out], run twice. *)
Lemma saved_results_come_back_from_cache_witness :
  ∃ out2 w2,
    @invoke numeric utils (native_ok 8) (flash_call (save_to_out false))
      (@invoke numeric utils (native_ok 8) (flash_call (save_to_out false))
         (world0 (2, 2, 2))).2 = (Val (Some out2), w2) ∧
    fs w2 = fs (@invoke numeric utils (native_ok 8)
                  (flash_call (save_to_out false)) (world0 (2, 2, 2))).2 ∧
    Forall (λ e, is_native e = false)
      (emitted (@invoke numeric utils (native_ok 8)
                  (flash_call (save_to_out false)) (world0 (2, 2, 2))).2 w2) ∧
    Forall2 (λ img2 img,
               is_Some (view (heap (@invoke numeric utils (native_ok 8)
                                      (flash_call (save_to_out false))
                                      (world0 (2, 2, 2))).2) img) ∧
               view (heap w2) img2
               = view (heap (@invoke numeric utils (native_ok 8)
                               (flash_call (save_to_out false))
                               (world0 (2, 2, 2))).2) img)
      (images_of out2)
      (images_of (returned (native_ok 8) (flash_call (save_to_out false))
                    (world0 (2, 2, 2)))).
Proof.
  apply (saved_results_come_back_from_cache
           (Num := numeric) (U := utils) (J := native_ok 8)
           (flash_call (save_to_out false)) (world0 (2, 2, 2))
           (returned (native_ok 8) (flash_call (save_to_out false))
              (world0 (2, 2, 2)))
           (@invoke numeric utils (native_ok 8)
              (flash_call (save_to_out false)) (world0 (2, 2, 2))).2
           (resolved (flash_call (save_to_out false)) (world0 (2, 2, 2)))
           (prologue_end (flash_call (save_to_out false))
              (world0 (2, 2, 2)))).
  - by vm_compute.
  - vm_compute. elem_solve.
  - reflexivity.
  - reflexivity.
  - by vm_compute.
  - apply (bool_decide_unpack _). by vm_compute.
Defined.

End state_witnesses.
